(** * A shallow embedding of the BEF executor (lib/bef_executor/bef_executor.cc)

    The register file, the kernel-info table and the heap of AsyncValues are
    explicit state.  Every function of the executor is a computation in a
    small state/error monad [M]: an [assert] of the C++ source that fails is
    the fault [AssertFailed], and a recursion that runs out of fuel is the
    fault [OutOfFuel].  Observable actions (reference-count traffic, CASes
    on registers, worklist appends, kernel invocations, continuation
    registrations, counter updates) are logged in an event trace so that
    ordering properties can be stated. *)

From Stdlib Require Import List ZArith Lia Bool Arith.
Import ListNotations.

(* ------------------------------------------------------------------ *)
(** ** List helpers (SmallVector / ArrayRef operations) *)

(** [l[n] = x]; out of range leaves the list unchanged. *)
Fixpoint set_nth {A} (n : nat) (x : A) (l : list A) : list A :=
  match l, n with
  | [], _ => []
  | _ :: t, O => x :: t
  | h :: t, S n' => h :: set_nth n' x t
  end.

(** [SmallVector::pop_back_val]: the back of the vector is its last element. *)
Definition pop_back {A} (l : list A) : option (list A * A) :=
  match rev l with
  | [] => None
  | x :: r => Some (rev r, x)
  end.

(* ------------------------------------------------------------------ *)
(** ** Data model *)

Definition ptr := nat.

(** The state of an AsyncValue. *)
Inductive AVState := Unavailable | Concrete (payload : Z) | ErrorState (diag : nat).

Definition is_available (st : AVState) : bool :=
  match st with Unavailable => false | _ => true end.
Definition is_error (st : AVState) : bool :=
  match st with ErrorState _ => true | _ => false end.

(** The closures the executor registers with [AsyncValue::AndThen]
    (defunctionalised). *)
Inductive Callback :=
| CbDecrement (kernel_ids : list nat)
    (** the two closures of [ProcessUsedBys]:
        [DecrementArgumentsNotReadyCounts(ids); this->DropRef()] *)
| CbKeepHandler
    (** [MaybeAddRefForResult]: [[handler = location_handler_.CopyRef()]() {}] *)
| CbForward (indirect : ptr).
    (** [IndirectAsyncValue::ForwardTo] on a pending target *)

Record AsyncValue := mkAV {
  refcount : Z;
  state : AVState;
  indirect : bool;            (** is an IndirectAsyncValue *)
  forwarded : option ptr;     (** target of [ForwardTo], for an indirect value *)
  waiters : list Callback }.

Definition set_refcount (n : Z) (v : AsyncValue) : AsyncValue :=
  mkAV n (state v) (indirect v) (forwarded v) (waiters v).
Definition set_forwarded (t : ptr) (v : AsyncValue) : AsyncValue :=
  mkAV (refcount v) (state v) (indirect v) (Some t) (waiters v).
Definition set_waiters (ws : list Callback) (v : AsyncValue) : AsyncValue :=
  mkAV (refcount v) (state v) (indirect v) (forwarded v) ws.
Definition set_state (st : AVState) (v : AsyncValue) : AsyncValue :=
  mkAV (refcount v) st (indirect v) (forwarded v) (waiters v).

(** [BEFFileImpl::RegisterInfo]. *)
Record RegisterInfo := mkReg { value : option ptr; user_count : nat }.

(** [BEFFileImpl::KernelInfo]. *)
Record KernelInfo := mkKI { offset : nat; arguments_not_ready : Z }.

(** A decoded kernel record ([BEFKernel]): header fields and the entries
    of its body (arguments, attributes, functions, results, used-bys). *)
Record BEFKernel := mkKernel {
  kernel_code : nat;
  kernel_location : nat;
  special_metadata : nat;
  num_arguments : nat;
  num_attributes : nat;
  num_functions : nat;
  num_results : nat;
  num_used_bys_of : list nat;   (** [num_used_bys(i)] for each result [i] *)
  body : list nat }.

Definition num_used_bys (k : BEFKernel) (result_number : nat) : nat :=
  nth result_number (num_used_bys_of k) 0.

Definition GetKernelEntries (k : BEFKernel) (off n : nat) : list nat :=
  firstn n (skipn off (body k)).

Definition kKernelEntryAlignment : nat := 4.
Definition kNonStrict : nat := 1.

(** Events of the trace. *)
Inductive Event :=
| EvAddRef (p : ptr) (n : Z)
| EvDropRef (p : ptr) (n : Z)
| EvRegisterCAS (r : nat) (p : ptr) (success : bool)
| EvForwardTo (i : ptr) (target : ptr)
| EvFetchSub (kernel_id : nat) (prior : Z)
| EvInvoke (kernel_id : nat)
| EvPropagateError (kernel_id : nat) (err : ptr)
| EvSetKernelsWithErrorInputReady (kernel_ids : list nat)
| EvAppend (kernel_ids : list nat)
| EvAndThen (p : ptr) (cb : Callback)
| EvDispatch (result_number : nat) (p : ptr).

(** The [assert]s of the source, by call site. *)
Inductive Assertion :=
| A_valid_pointer          (** dereferencing an AsyncValue pointer *)
| A_register_index         (** [register_infos_[i]] *)
| A_kernel_index           (** ["invalid kernel ID"] *)
| A_kernel_alignment       (** [offset % kKernelEntryAlignment == 0] *)
| A_kernel_record          (** decoding a kernel record *)
| A_kernel_fn              (** [kernel_fn != nullptr] *)
| A_result_register_unset  (** [GetRegisterValue(..) == nullptr || IsUnresolvedIndirect()] *)
| A_result_set             (** ["Kernel did not set result AsyncValue"] *)
| A_user_count_positive    (** [SetRegisterValue]: [reg->user_count > 0] *)
| A_cast_indirect          (** [cast<IndirectAsyncValue>(existing)] *)
| A_used_bys_nonempty      (** [!used_bys.empty()] *)
| A_forwarded              (** resolving an IndirectAsyncValue that was forwarded *)
| A_pseudo_worklist        (** [!kernel_ids->empty() && kernel_ids->back() == 0] *)
| A_pseudo_shape           (** pseudo kernel: no args/attrs/functions, some results *)
| A_argument_set           (** ["Argument AsyncValue is not set."] *)
| A_results_empty          (** ["result AsyncValue is not nullptr"] *)
| A_result_regs_count.     (** [result_regs.size() == fn.result_types().size()]
                               (= [results.size()]) *)

Inductive Fault := AssertFailed (a : Assertion) | OutOfFuel.

(** The executor state: heap of AsyncValues (a pointer is an index), the
    register file, the kernel infos, the executor's and the location
    handler's reference counts, and the trace. *)
Record St := mkSt {
  heap : list AsyncValue;
  regs : list RegisterInfo;
  kinfos : list KernelInfo;
  exec_refs : Z;
  handler_refs : Z;
  trace : list Event }.

Definition with_heap h s := mkSt h (regs s) (kinfos s) (exec_refs s) (handler_refs s) (trace s).
Definition with_regs r s := mkSt (heap s) r (kinfos s) (exec_refs s) (handler_refs s) (trace s).
Definition with_kinfos k s := mkSt (heap s) (regs s) k (exec_refs s) (handler_refs s) (trace s).
Definition with_exec_refs n s := mkSt (heap s) (regs s) (kinfos s) n (handler_refs s) (trace s).
Definition with_handler_refs n s := mkSt (heap s) (regs s) (kinfos s) (exec_refs s) n (trace s).
Definition with_trace t s := mkSt (heap s) (regs s) (kinfos s) (exec_refs s) (handler_refs s) t.

(* ------------------------------------------------------------------ *)
(** ** The state/error monad *)

Inductive Outcome (A : Type) := Ok (a : A) (s : St) | Fail (f : Fault).
Arguments Ok {A} a s.
Arguments Fail {A} f.

Definition M (A : Type) := St -> Outcome A.

Definition ret {A} (a : A) : M A := fun s => Ok a s.
Definition bind {A B} (m : M A) (f : A -> M B) : M B :=
  fun s => match m s with Ok a s' => f a s' | Fail e => Fail e end.

Notation "x <- m ;; k" := (bind m (fun x => k))
  (at level 61, m at next level, right associativity).
Notation "' pat <- m ;; k" := (bind m (fun x => match x with pat => k end))
  (at level 61, pat pattern, m at next level, right associativity).
Notation "m ;; k" := (bind m (fun _ => k)) (at level 61, right associativity).

Definition get : M St := fun s => Ok s s.
Definition modify (f : St -> St) : M unit := fun s => Ok tt (f s).
Definition fault {A} (f : Fault) : M A := fun _ => Fail f.
Definition assert (a : Assertion) (b : bool) : M unit :=
  if b then ret tt else fault (AssertFailed a).
Definition from_option {A} (a : Assertion) (o : option A) : M A :=
  match o with Some x => ret x | None => fault (AssertFailed a) end.
Definition emit (e : Event) : M unit :=
  modify (fun s => with_trace (trace s ++ [e]) s).

(* ------------------------------------------------------------------ *)
(** ** AsyncValue primitives *)

Definition load_av (p : ptr) : M AsyncValue :=
  s <- get ;; from_option A_valid_pointer (nth_error (heap s) p).
Definition store_av (p : ptr) (v : AsyncValue) : M unit :=
  modify (fun s => with_heap (set_nth p v (heap s)) s).

Definition AddRef (p : ptr) (n : Z) : M unit :=
  v <- load_av p ;; store_av p (set_refcount (refcount v + n) v) ;; emit (EvAddRef p n).
Definition DropRef (p : ptr) (n : Z) : M unit :=
  v <- load_av p ;; store_av p (set_refcount (refcount v - n) v) ;; emit (EvDropRef p n).

(** [host->MakeIndirectAsyncValue().release()]: a fresh pending indirect
    value holding one reference. *)
Definition MakeIndirectAsyncValue : M ptr :=
  s <- get ;;
  let p := length (heap s) in
  modify (with_heap (heap s ++ [mkAV 1 Unavailable true None []])) ;;
  ret p.

Definition av_state (p : ptr) : M AVState := v <- load_av p ;; ret (state v).
Definition IsAvailable (p : ptr) : M bool := st <- av_state p ;; ret (is_available st).
Definition IsError (p : ptr) : M bool := st <- av_state p ;; ret (is_error st).
Definition IsUnresolvedIndirect (p : ptr) : M bool :=
  v <- load_av p ;;
  ret (indirect v && match forwarded v with None => true | Some _ => false end).

Definition ExecutorAddRef : M unit := modify (fun s => with_exec_refs (exec_refs s + 1) s).
Definition ExecutorDropRef : M unit := modify (fun s => with_exec_refs (exec_refs s - 1) s).
Definition HandlerAddRef : M unit := modify (fun s => with_handler_refs (handler_refs s + 1) s).
Definition HandlerDropRef : M unit := modify (fun s => with_handler_refs (handler_refs s - 1) s).

(* ------------------------------------------------------------------ *)
(** ** Registers *)

Definition load_reg (r : nat) : M RegisterInfo :=
  s <- get ;; from_option A_register_index (nth_error (regs s) r).

(** [GetRegisterValue]. *)
Definition GetRegisterValue (r : nat) : M (option ptr) :=
  reg <- load_reg r ;; ret (value reg).

(** [reg->value.compare_exchange_strong(existing = nullptr, desired)]:
    [None] on success, [Some existing] on failure. *)
Definition compare_exchange_strong_reg (r : nat) (desired : ptr) : M (option ptr) :=
  reg <- load_reg r ;;
  match value reg with
  | None =>
      modify (fun s => with_regs (set_nth r (mkReg (Some desired) (user_count reg)) (regs s)) s) ;;
      emit (EvRegisterCAS r desired true) ;;
      ret None
  | Some e => emit (EvRegisterCAS r desired false) ;; ret (Some e)
  end.

(** Another thread's successful install of [q] into register [r], run between
    a load and a CAS of ours ([None]: no concurrent install). *)
Definition interleave (r : nat) (race : option ptr) : M unit :=
  match race with
  | None => ret tt
  | Some q => _ <- compare_exchange_strong_reg r q ;; ret tt
  end.

(** [GetOrCreateRegisterValue], with the concurrent install [race] that may
    happen between its load and its CAS. *)
Definition GetOrCreateRegisterValue_race (race : option ptr) (r : nat) : M ptr :=
  reg <- load_reg r ;;
  match value reg with
  | Some v => ret v
  | None =>
      indirect_value <- MakeIndirectAsyncValue ;;
      AddRef indirect_value (Z.of_nat (user_count reg)) ;;
      interleave r race ;;
      existing <- compare_exchange_strong_reg r indirect_value ;;
      match existing with
      | Some e => DropRef indirect_value (Z.of_nat (user_count reg) + 1) ;; ret e
      | None => ret indirect_value
      end
  end.

Definition GetOrCreateRegisterValue (r : nat) : M ptr :=
  GetOrCreateRegisterValue_race None r.

(* ------------------------------------------------------------------ *)
(** ** Kernel frames and kernel implementations *)

Record KernelFrame := mkFrame {
  frame_args : list ptr;
  frame_attributes : list nat;
  frame_functions : list nat;
  frame_num_results : nat;
  frame_location : nat }.

(** A kernel implementation fills the result slots of its frame. *)
Definition KernelImplementation := KernelFrame -> M (list (option ptr)).

(** Work the executor performs on a thread: the firing loop over a
    worklist, or the completion of a forwarded IndirectAsyncValue. *)
Inductive Task := TDecrement (kernel_ids : list nat) | TResolveIndirect (i : ptr).

Section Executor.

(** [kernels_]: the function's kernel stream; entry [i] is [Some k] when a
    kernel record starts at entry [i]. *)
Variable kernels_ : list (option BEFKernel).
(** [bef_file_->kernels_]: kernel implementations by kernel code. *)
Variable kernel_impls : list KernelImplementation.
(** [GetHost()->GetCancelAsyncValue()]. *)
Variable cancel_async_value : option ptr.

(** [BEFKernel kernel(kernels_.data() + index)]. *)
Definition decode_kernel (index : nat) : M BEFKernel :=
  from_option A_kernel_record (match nth_error kernels_ index with
                               | Some (Some k) => Some k
                               | _ => None
                               end).

(** Running a continuation; [go] is the executor itself (a recursive call). *)
Definition run_callback (go : Task -> M unit) (cb : Callback) : M unit :=
  match cb with
  | CbDecrement ids => go (TDecrement ids) ;; ExecutorDropRef
  | CbKeepHandler => HandlerDropRef
  | CbForward i => go (TResolveIndirect i)
  end.

Fixpoint run_callbacks (go : Task -> M unit) (cbs : list Callback) : M unit :=
  match cbs with
  | [] => ret tt
  | cb :: rest => run_callback go cb ;; run_callbacks go rest
  end.

(** [AsyncValue::AndThen]: run inline when available, else wait. *)
Definition AndThen (go : Task -> M unit) (p : ptr) (cb : Callback) : M unit :=
  v <- load_av p ;;
  if is_available (state v) then run_callback go cb
  else store_av p (set_waiters (waiters v ++ [cb]) v) ;; emit (EvAndThen p cb).

(** [IndirectAsyncValue::ForwardTo(TakeRef(target))]: the reference on
    [target] is donated to the indirect value. *)
Definition ForwardTo (go : Task -> M unit) (i target : ptr) : M unit :=
  iv <- load_av i ;;
  store_av i (set_forwarded target iv) ;;
  emit (EvForwardTo i target) ;;
  AndThen go target (CbForward i).

(** An indirect value takes over the state of its (now available) target
    and notifies its own waiters. *)
Definition resolve_indirect (go : Task -> M unit) (i : ptr) : M unit :=
  iv <- load_av i ;;
  target <- from_option A_forwarded (forwarded iv) ;;
  tv <- load_av target ;;
  store_av i (set_waiters [] (set_state (state tv) iv)) ;;
  run_callbacks go (waiters iv).

(** [SetRegisterValue]: returns the register's effective value and
    [register_already_set]. *)
Definition SetRegisterValue (go : Task -> M unit) (r : nat) (new_value : ptr)
  : M (ptr * bool) :=
  reg <- load_reg r ;;
  assert A_user_count_positive (0 <? user_count reg) ;;
  AddRef new_value (Z.of_nat (user_count reg) - 1)%Z ;;
  existing <- compare_exchange_strong_reg r new_value ;;
  match existing with
  | Some e =>
      ev <- load_av e ;;
      assert A_cast_indirect (indirect ev) ;;
      DropRef new_value (Z.of_nat (user_count reg) - 1)%Z ;;
      ForwardTo go e new_value ;;
      ret (e, true)
  | None => ret (new_value, false)
  end.

(* ------------------------------------------------------------------ *)
(** ** Readiness counters *)

Definition load_kinfo (kernel_id : nat) : M KernelInfo :=
  s <- get ;; from_option A_kernel_index (nth_error (kinfos s) kernel_id).
Definition store_not_ready (kernel_id : nat) (ki : KernelInfo) (n : Z) : M unit :=
  modify (fun s => with_kinfos (set_nth kernel_id (mkKI (offset ki) n) (kinfos s)) s).

(** [arguments_not_ready.fetch_sub(1)]: returns the prior value. *)
Definition fetch_sub (kernel_id : nat) : M Z :=
  ki <- load_kinfo kernel_id ;;
  store_not_ready kernel_id ki (arguments_not_ready ki - 1)%Z ;;
  emit (EvFetchSub kernel_id (arguments_not_ready ki)) ;;
  ret (arguments_not_ready ki).

(** One iteration of [SetKernelsWithErrorInputReady] on this thread: the
    load, then the [compare_exchange_weak] loop, which (with no concurrent
    writer) stores 1 when the value read is greater than 1. *)
Definition SetKernelWithErrorInputReady (kernel_id : nat) : M unit :=
  ki <- load_kinfo kernel_id ;;
  if (1 <? arguments_not_ready ki)%Z then store_not_ready kernel_id ki 1%Z else ret tt.

Fixpoint SetKernelsWithErrorInputReady_loop (kernels_with_error_input : list nat) : M unit :=
  match kernels_with_error_input with
  | [] => ret tt
  | k :: rest => SetKernelWithErrorInputReady k ;; SetKernelsWithErrorInputReady_loop rest
  end.

Definition SetKernelsWithErrorInputReady (kernels_with_error_input : list nat) : M unit :=
  SetKernelsWithErrorInputReady_loop kernels_with_error_input ;;
  emit (EvSetKernelsWithErrorInputReady kernels_with_error_input).

(* ------------------------------------------------------------------ *)
(** ** Used-by dispatch *)

(** [BEFExecutor::MaybeAddRefForResult]. *)
Definition MaybeAddRefForResult (go : Task -> M unit) (result : ptr) : M unit :=
  avail <- IsAvailable result ;;
  if avail then ret tt else HandlerAddRef ;; AndThen go result CbKeepHandler.

(** [BEFExecutor::ProcessUsedBys]: returns the advanced [entry_offset] and
    the worklist [kernel_ids].  The single-user and the batched closures of
    the source are the same continuation [CbDecrement used_bys]. *)
Definition ProcessUsedBys (go : Task -> M unit) (kernel : BEFKernel)
  (result_number : nat) (result : ptr) (entry_offset : nat) (kernel_ids : list nat)
  : M (nat * list nat) :=
  emit (EvDispatch result_number result) ;;
  let n := num_used_bys kernel result_number in
  if n =? 0 then MaybeAddRefForResult go result ;; ret (entry_offset, kernel_ids)
  else
    let used_bys := GetKernelEntries kernel entry_offset n in
    let entry_offset' := entry_offset + n in
    assert A_used_bys_nonempty (negb (length used_bys =? 0)) ;;
    st <- av_state result ;;
    (if is_error st then SetKernelsWithErrorInputReady used_bys else ret tt) ;;
    if is_available st then
      emit (EvAppend used_bys) ;; ret (entry_offset', kernel_ids ++ used_bys)
    else
      ExecutorAddRef ;;
      AndThen go result (CbDecrement used_bys) ;;
      ret (entry_offset', kernel_ids).

(* ------------------------------------------------------------------ *)
(** ** The firing loop *)

(** Argument binding: [GetOrCreateRegisterValue] for each argument
    register, recording the last Error-state argument. *)
Fixpoint bind_arguments (args : list nat) (any_error_argument : option ptr)
  : M (list ptr * option ptr) :=
  match args with
  | [] => ret ([], any_error_argument)
  | reg_idx :: rest =>
      v <- GetOrCreateRegisterValue reg_idx ;;
      err <- IsError v ;;
      '(vs, any) <- bind_arguments rest (if err then Some v else any_error_argument) ;;
      ret (v :: vs, any)
  end.

(** [FormRef(any_error_argument)] for every result slot. *)
Fixpoint propagate_error (any_error_argument : ptr) (n : nat) : M (list (option ptr)) :=
  match n with
  | O => ret []
  | S n' =>
      AddRef any_error_argument 1 ;;
      rest <- propagate_error any_error_argument n' ;;
      ret (Some any_error_argument :: rest)
  end.

(** [for (auto* arg : kernel_frame.GetArguments()) arg->DropRef();] *)
Fixpoint drop_arguments (args : list ptr) : M unit :=
  match args with
  | [] => ret tt
  | a :: rest => DropRef a 1 ;; drop_arguments rest
  end.

(** One iteration of the result loop of [DecrementArgumentsNotReadyCounts]. *)
Definition publish_result (go : Task -> M unit) (kernel : BEFKernel) (reg_idx : nat)
  (result_number : nat) (frame_results : list (option ptr)) (entry_offset : nat)
  (kernel_ids : list nat) : M (nat * list nat) :=
  reg <- load_reg reg_idx ;;
  unset <- match value reg with
           | None => ret true
           | Some p => IsUnresolvedIndirect p
           end ;;
  assert A_result_register_unset unset ;;
  result <- from_option A_result_set (nth result_number frame_results None) ;;
  if user_count reg =? 0 then
    MaybeAddRefForResult go result ;;
    DropRef result 1 ;;
    ret (entry_offset, kernel_ids)
  else
    '(register_value, register_already_set) <- SetRegisterValue go reg_idx result ;;
    '(entry_offset', kernel_ids') <-
       ProcessUsedBys go kernel result_number register_value entry_offset kernel_ids ;;
    (if register_already_set then DropRef register_value 1 else ret tt) ;;
    ret (entry_offset', kernel_ids').

Fixpoint publish_results (go : Task -> M unit) (kernel : BEFKernel) (results : list nat)
  (result_number : nat) (frame_results : list (option ptr)) (entry_offset : nat)
  (kernel_ids : list nat) : M (list nat) :=
  match results with
  | [] => ret kernel_ids
  | reg_idx :: rest =>
      '(entry_offset', kernel_ids') <-
         publish_result go kernel reg_idx result_number frame_results entry_offset kernel_ids ;;
      publish_results go kernel rest (S result_number) frame_results entry_offset' kernel_ids'
  end.

(** Firing a kernel once its counter reached zero: decode, bind, invoke or
    propagate the error, release the arguments, publish the results. *)
Definition fire_kernel (go : Task -> M unit) (kernel_id : nat) (ki : KernelInfo)
  (kernel_ids : list nat) : M (list nat) :=
  assert A_kernel_alignment (offset ki mod kKernelEntryAlignment =? 0) ;;
  kernel <- decode_kernel (offset ki / kKernelEntryAlignment) ;;
  let any_error_argument := cancel_async_value in
  kernel_fn <- from_option A_kernel_fn (nth_error kernel_impls (kernel_code kernel)) ;;
  let is_nonstrict_kernel := negb (Nat.land (special_metadata kernel) kNonStrict =? 0) in
  let entry_offset := 0 in
  let arguments := GetKernelEntries kernel entry_offset (num_arguments kernel) in
  '(args, any_error_argument) <- bind_arguments arguments any_error_argument ;;
  let entry_offset := entry_offset + length arguments in
  let attributes := GetKernelEntries kernel entry_offset (num_attributes kernel) in
  let entry_offset := entry_offset + length attributes in
  let functions := GetKernelEntries kernel entry_offset (num_functions kernel) in
  frame_results <-
    match any_error_argument with
    | Some err =>
        if is_nonstrict_kernel then
          emit (EvInvoke kernel_id) ;;
          kernel_fn (mkFrame args attributes functions (num_results kernel) (kernel_location kernel))
        else
          emit (EvPropagateError kernel_id err) ;;
          propagate_error err (num_results kernel)
    | None =>
        emit (EvInvoke kernel_id) ;;
        kernel_fn (mkFrame args attributes functions (num_results kernel) (kernel_location kernel))
    end ;;
  drop_arguments args ;;
  let entry_offset := entry_offset + length functions in
  let results := GetKernelEntries kernel entry_offset (num_results kernel) in
  let entry_offset := entry_offset + length results in
  publish_results go kernel results 0 frame_results entry_offset kernel_ids.

(** The body of the [while] loop for one popped [kernel_id]: the
    readiness gate, then firing. *)
Definition process_kernel (go : Task -> M unit) (kernel_id : nat) (kernel_ids : list nat)
  : M (list nat) :=
  prior <- fetch_sub kernel_id ;;
  if negb (prior =? 1)%Z then ret kernel_ids
  else
    ki <- load_kinfo kernel_id ;;
    fire_kernel go kernel_id ki kernel_ids.

(** The executor: [DecrementArgumentsNotReadyCounts] (one worklist pop per
    step) and the completion of forwarded indirect values. *)
Fixpoint run (fuel : nat) (t : Task) : M unit :=
  match fuel with
  | O => fault OutOfFuel
  | S fuel' =>
      match t with
      | TDecrement kernel_ids =>
          match pop_back kernel_ids with
          | None => ret tt
          | Some (rest, kernel_id) =>
              kernel_ids' <- process_kernel (run fuel') kernel_id rest ;;
              run fuel' (TDecrement kernel_ids')
          end
      | TResolveIndirect i => resolve_indirect (run fuel') i
      end
  end.

Definition DecrementArgumentsNotReadyCounts (fuel : nat) (kernel_ids : list nat) : M unit :=
  run fuel (TDecrement kernel_ids).

(* ------------------------------------------------------------------ *)
(** ** Argument pseudo-kernel, bootstrap and [Execute] *)

Fixpoint pseudo_results (go : Task -> M unit) (kernel : BEFKernel) (results : list nat)
  (result_number : nat) (used_by_offset : nat) (kernel_ids : list nat) : M (list nat) :=
  match results with
  | [] => ret kernel_ids
  | reg_idx :: rest =>
      reg <- load_reg reg_idx ;;
      if user_count reg =? 0 then
        pseudo_results go kernel rest (S result_number) used_by_offset kernel_ids
      else
        result <- GetRegisterValue reg_idx ;;
        r <- from_option A_argument_set result ;;
        '(used_by_offset', kernel_ids') <-
           ProcessUsedBys go kernel result_number r used_by_offset kernel_ids ;;
        pseudo_results go kernel rest (S result_number) used_by_offset' kernel_ids'
  end.

(** [BEFExecutor::ProcessArgumentsPseudoKernel]. *)
Definition ProcessArgumentsPseudoKernel (go : Task -> M unit) (kernel_ids : list nat)
  : M (list nat) :=
  match pop_back kernel_ids with
  | None => fault (AssertFailed A_pseudo_worklist)
  | Some (rest, back) =>
      assert A_pseudo_worklist (back =? 0) ;;
      kernel <- decode_kernel 0 ;;
      assert A_pseudo_shape ((num_arguments kernel =? 0) && (num_attributes kernel =? 0)
                             && (num_functions kernel =? 0) && negb (num_results kernel =? 0)) ;;
      let results := GetKernelEntries kernel 0 (num_results kernel) in
      pseudo_results go kernel results 0 (length results) rest
  end.

(** The initial worklist: [e - i - 1] for [i = 0 .. e-1]. *)
Definition initial_worklist (e : nat) : list nat := map (fun i => e - i - 1) (seq 0 e).

(** The body of the [BEFExecutor] constructor (the executor and the
    location handler are created with one reference each). *)
Definition BEFExecutor_init (fuel : nat) (has_arguments_pseudo_kernel : bool) : M unit :=
  modify (fun s => with_handler_refs 1 (with_exec_refs 1 s)) ;;
  s <- get ;;
  let kernel_ids_to_visit := initial_worklist (length (kinfos s)) in
  kernel_ids <- (if has_arguments_pseudo_kernel
                 then ProcessArgumentsPseudoKernel (run fuel) kernel_ids_to_visit
                 else ret kernel_ids_to_visit) ;;
  DecrementArgumentsNotReadyCounts fuel kernel_ids.

(** The loop of [InitializeArgumentRegisters] from register [i], with [n]
    registers left: register [i] receives [arguments[i]] when
    [i < arguments.size()] (an argument beyond the last register is
    ignored). *)
Fixpoint InitializeArgumentRegisters_loop (arguments : list ptr) (i n : nat) : M unit :=
  match n with
  | O => ret tt
  | S n' =>
      (match nth_error arguments i with
       | Some value =>
           reg <- load_reg i ;;
           AddRef value (Z.of_nat (user_count reg)) ;;
           modify (fun s => with_regs (set_nth i (mkReg (Some value) (user_count reg))
                                         (regs s)) s)
       | None => ret tt
       end) ;;
      InitializeArgumentRegisters_loop arguments (S i) n'
  end.

(** [InitializeArgumentRegisters]: [for (i = 0, e = register_infos.size(); i != e; ++i)]. *)
Definition InitializeArgumentRegisters (arguments : list ptr) : M unit :=
  s <- get ;; InitializeArgumentRegisters_loop arguments 0 (length (regs s)).

(** The result loop of [Execute]. *)
Fixpoint populate_results (result_regs : list nat) (results : list (option ptr))
  : M (list (option ptr)) :=
  match result_regs, results with
  | r :: rrest, res :: rest =>
      assert A_results_empty (match res with None => true | Some _ => false end) ;;
      v <- GetOrCreateRegisterValue r ;;
      rest' <- populate_results rrest rest ;;
      ret (Some v :: rest')
  | _, _ => ret results
  end.

(** [BEFExecutor::Execute], given what [ReadFunction] yielded: the kernel
    stream [kernels_] (this section's), the register infos, the kernel
    infos and the result registers. *)
Definition Execute (fuel : nat) (register_infos : list RegisterInfo)
  (kernel_infos : list KernelInfo) (result_regs : list nat)
  (arguments : list ptr) (results : list (option ptr)) : M (list (option ptr)) :=
  match kernels_ with
  | [] => ret results
  | _ =>
      assert A_result_regs_count (length result_regs =? length results) ;;
      modify (fun s => with_kinfos kernel_infos (with_regs register_infos s)) ;;
      InitializeArgumentRegisters arguments ;;
      BEFExecutor_init fuel (negb (length arguments =? 0)) ;;
      results' <- populate_results result_regs results ;;
      ExecutorDropRef ;;
      ret results'
  end.

End Executor.

(* ------------------------------------------------------------------ *)
(** ** A concrete function: [r2 = add(a0, a1); r3 = neg(r2); return r3] *)

Module Sample.

(** [MakeAvailableAsyncValueRef]: a fresh available value with one reference. *)
Definition MakeAvailableAsyncValue (st : AVState) : M ptr :=
  s <- get ;;
  let p := length (heap s) in
  modify (with_heap (heap s ++ [mkAV 1 st false None []])) ;;
  ret p.

Definition payload (p : ptr) : M Z :=
  st <- av_state p ;; ret (match st with Concrete z => z | _ => 0%Z end).

Definition add_kernel : KernelImplementation := fun frame =>
  match frame_args frame with
  | [a; b] => x <- payload a ;; y <- payload b ;;
              r <- MakeAvailableAsyncValue (Concrete (x + y)) ;; ret [Some r]
  | _ => ret []
  end.

Definition neg_kernel : KernelImplementation := fun frame =>
  match frame_args frame with
  | [a] => x <- payload a ;; r <- MakeAvailableAsyncValue (Concrete (- x)) ;; ret [Some r]
  | _ => ret []
  end.

(** A kernel that fails: its result is an error value. *)
Definition fail_kernel : KernelImplementation := fun _ =>
  r <- MakeAvailableAsyncValue (ErrorState 7) ;; ret [Some r].

Definition impls : list KernelImplementation := [add_kernel; neg_kernel; fail_kernel].

(** Kernel 0: the argument pseudo-kernel (results r0, r1, each used by kernel 1). *)
Definition k0 := mkKernel 0 0 0 0 0 0 2 [1; 1] [0; 1; 1; 1].
(** Kernel 1: [r2 = add(r0, r1)], [r2] used by kernel 2. *)
Definition k1 := mkKernel 0 0 0 2 0 0 1 [1] [0; 1; 2; 2].
(** Kernel 2: [r3 = neg(r2)], [r3] exported only. *)
Definition k2 := mkKernel 1 0 0 1 0 0 1 [0] [2; 3].

Definition stream : list (option BEFKernel) := [Some k0; Some k1; Some k2].
Definition register_infos := [mkReg None 1; mkReg None 1; mkReg None 1; mkReg None 1].
Definition kernel_infos := [mkKI 0 1; mkKI 4 3; mkKI 8 2].

(** The caller's arguments [3] and [4]. *)
Definition s0 : St :=
  mkSt [mkAV 1 (Concrete 3) false None []; mkAV 1 (Concrete 4) false None []] [] [] 0 0 [].

Definition run_sample :=
  Execute stream impls None 100 register_infos kernel_infos [3] [0; 1] [None] s0.

End Sample.

(** What the caller asserts of a result register before publishing into it
    ([GetRegisterValue(reg) == nullptr || IsUnresolvedIndirect()]). *)
Definition unset_or_unresolved (s : St) (w : option ptr) : Prop :=
  match w with
  | None => True
  | Some e => exists ev, nth_error (heap s) e = Some ev /\ indirect ev = true
                         /\ forwarded ev = None
  end.

(* ------------------------------------------------------------------ *)
(** ** Concurrent histories of the readiness counters *)

(** The atomic operations any thread performs on a readiness counter: the
    [fetch_sub(1)] of the firing loop, and the successful
    [compare_exchange_weak(current, 1)] of [SetKernelsWithErrorInputReady],
    which only happens when the counter still equals the [current > 1] read
    before (a failed CAS or a load changes nothing). *)
Inductive CounterOp := OpFetchSub (kernel_id : nat) | OpSetReady (kernel_id : nat).

(** A linearised history of counter operations, from whatever threads; it
    returns the [(kernel_id, prior)] pairs observed by the [fetch_sub]s. *)
Fixpoint run_counter_ops (ops : list CounterOp) : M (list (nat * Z)) :=
  match ops with
  | [] => ret []
  | OpFetchSub k :: rest =>
      prior <- fetch_sub k ;;
      priors <- run_counter_ops rest ;;
      ret ((k, prior) :: priors)
  | OpSetReady k :: rest =>
      SetKernelWithErrorInputReady k ;;
      run_counter_ops rest
  end.

(** Control state of one thread running [SetKernelsWithErrorInputReady]:
    before the [load] of the next kernel of the list, or in the [while] loop
    for [kernel_id] with the local [not_ready_count]. *)
Inductive AccelPC :=
| AccelNext (kernel_ids : list nat)
| AccelLoop (kernel_id : nat) (not_ready_count : Z) (kernel_ids : list nat).

(** One atomic step of that thread.  [spurious]: [compare_exchange_weak]
    may fail although the values are equal; on failure it loads the current
    value into [not_ready_count]. *)
Definition accel_step (spurious : bool) (pc : AccelPC) : M AccelPC :=
  match pc with
  | AccelNext [] => ret (AccelNext [])
  | AccelNext (k :: rest) =>
      ki <- load_kinfo k ;;
      ret (AccelLoop k (arguments_not_ready ki) rest)
  | AccelLoop k not_ready_count rest =>
      if (1 <? not_ready_count)%Z then
        ki <- load_kinfo k ;;
        if ((arguments_not_ready ki =? not_ready_count)%Z && negb spurious)%bool then
          store_not_ready k ki 1%Z ;; ret (AccelNext rest)
        else ret (AccelLoop k (arguments_not_ready ki) rest)
      else ret (AccelNext rest)
  end.

(** A scheduler's choice: a step of the accelerating thread, or an atomic
    counter operation of another thread. *)
Inductive Sched := SAccel (spurious : bool) | SOther (op : CounterOp).

Definition other_step (op : CounterOp) : M unit :=
  match op with
  | OpFetchSub k => _ <- fetch_sub k ;; ret tt
  | OpSetReady k => SetKernelWithErrorInputReady k
  end.

Fixpoint run_interleaving (sched : list Sched) (pc : AccelPC) : M AccelPC :=
  match sched with
  | [] => ret pc
  | SAccel spurious :: rest => pc' <- accel_step spurious pc ;; run_interleaving rest pc'
  | SOther op :: rest => other_step op ;; run_interleaving rest pc
  end.

(* ------------------------------------------------------------------ *)
(** ** Specification helpers *)

(** A computation that never fails [SetRegisterValue]'s assertion
    [user_count > 0], from any state. *)
Definition safe {A} (m : M A) : Prop :=
  forall s, m s <> Fail (AssertFailed A_user_count_positive).

(** The counter after [SetKernelWithErrorInputReady]: 1 if it was above 1. *)
Definition clamp (ki : KernelInfo) : KernelInfo :=
  mkKI (offset ki) (if (1 <? arguments_not_ready ki)%Z then 1%Z else arguments_not_ready ki).

(** [s'] differs from [s] on the heap only by the refcount changes [d]. *)
Definition heap_delta (s s' : St) (d : ptr -> Z) : Prop :=
  forall p, nth_error (heap s') p
            = option_map (fun a => set_refcount (refcount a + d p)%Z a) (nth_error (heap s) p).

(** The counters after error acceleration: each unchanged or clamped to 1. *)
Definition counters_clamped (kis kis' : list KernelInfo) : Prop :=
  forall k, nth_error kis' k = nth_error kis k
            \/ exists ki, nth_error kis k = Some ki /\ nth_error kis' k = Some (clamp ki).

(** Events that neither fire a kernel nor decrement a counter: error
    acceleration, worklist append, continuation registration. *)
Definition quiet (e : Event) : bool :=
  match e with
  | EvSetKernelsWithErrorInputReady _ | EvAppend _ | EvAndThen _ _ => true
  | _ => false
  end.

Definition is_dispatch (e : Event) : bool :=
  match e with EvDispatch _ _ => true | _ => false end.

(** The [Dispatch] events the argument pseudo-kernel is expected to
    produce: one per result register with a non-zero user count, in result
    order, naming the value the caller installed in that register. *)
Fixpoint pseudo_dispatches (rs : list RegisterInfo) (results : list nat) (rn : nat)
  : list Event :=
  match results with
  | [] => []
  | r :: rest =>
      match nth_error rs r with
      | Some (mkReg (Some p) (S _)) => [EvDispatch rn p]
      | _ => []
      end ++ pseudo_dispatches rs rest (S rn)
  end.

(** Registers that hold a value keep it. *)
Definition regs_mono (rs rs' : list RegisterInfo) : Prop :=
  forall i p uc, nth_error rs i = Some (mkReg (Some p) uc) ->
                 nth_error rs' i = Some (mkReg (Some p) uc).

(** The number of [fetch_sub]s on [k] in a history, and the number of them
    that observed the prior value 1 (the counter reaching zero). *)
Definition num_fetch_subs (k : nat) (ops : list CounterOp) : nat :=
  length (filter (fun op => match op with OpFetchSub k' => Nat.eqb k' k | _ => false end) ops).

Definition num_reached_zero (k : nat) (priors : list (nat * Z)) : nat :=
  length (filter (fun '(k', prior) => (Nat.eqb k' k && Z.eqb prior 1)%bool) priors).

(** The events of kernel [k]'s readiness gate in a trace: the [fetch_sub]s
    on its counter and the runs of its body (invocation or error
    short-circuit). *)
Definition gate_event (k : nat) (e : Event) : bool :=
  match e with
  | EvFetchSub k' _ | EvInvoke k' | EvPropagateError k' _ => Nat.eqb k' k
  | _ => false
  end.

(** A run of kernel [k]'s body. *)
Definition fired_event (k : nat) (e : Event) : bool :=
  match e with
  | EvInvoke k' | EvPropagateError k' _ => Nat.eqb k' k
  | _ => false
  end.

Definition num_fired (k : nat) (tr : list Event) : nat := length (filter (fired_event k) tr).

(** A sequence of gate events in which every [fetch_sub] that observes the
    prior value 1 is directly followed by one run of the body, and a body
    runs at no other point. *)
Inductive Gated : list Event -> Prop :=
| Gated_nil : Gated []
| Gated_pass k prior rest : prior <> 1%Z -> Gated rest -> Gated (EvFetchSub k prior :: rest)
| Gated_invoke k rest : Gated rest -> Gated (EvFetchSub k 1 :: EvInvoke k :: rest)
| Gated_error k e rest :
    Gated rest -> Gated (EvFetchSub k 1 :: EvPropagateError k e :: rest).

(** 1 when kernel [k]'s counter is positive, else 0. *)
Definition gate_pos (s : St) (k : nat) : nat :=
  match nth_error (kinfos s) k with
  | Some ki => if (0 <? arguments_not_ready ki)%Z then 1 else 0
  | None => 0
  end.

(** The successful runs of [m] extend the trace by events in which the gate
    events of every kernel are [Gated]; a kernel's body runs at most once,
    only over a positive counter, and the counter is no longer positive
    afterwards. *)
Definition gates {A} (m : M A) : Prop :=
  forall s a s', m s = Ok a s' -> forall k, exists d,
    trace s' = trace s ++ d /\ Gated (filter (gate_event k) d)
    /\ num_fired k d + gate_pos s' k <= gate_pos s k.

(** ** Reference accounting *)

(** The reference count of [p] ([0] outside the heap). *)
Definition refcount_of (s : St) (p : ptr) : Z :=
  match nth_error (heap s) p with Some av => refcount av | None => 0%Z end.

(** The reference an IndirectAsyncValue installed as a placeholder keeps
    for the executor until it is forwarded ([DropRef] after [ForwardTo] in
    the result loop): 1 for an indirect value not yet forwarded. *)
Definition av_owes (av : AsyncValue) : Z :=
  if indirect av && match forwarded av with None => true | Some _ => false end
  then 1%Z else 0%Z.

Definition owes_forward (s : St) (p : ptr) : Z :=
  match nth_error (heap s) p with Some av => av_owes av | None => 0%Z end.

(** How many entries of [l] are [Some p]. *)
Definition count_some (l : list (option ptr)) (p : ptr) : nat :=
  length (filter (fun o => match o with Some q => Nat.eqb q p | None => false end) l).

(** [sum_{r : register r holds p} pend r]. *)
Fixpoint reg_oblig (pend : nat -> nat) (rs : list RegisterInfo) (i : nat) (p : ptr) : nat :=
  match rs with
  | [] => 0
  | reg :: rs' =>
      (match value reg with Some q => if Nat.eqb q p then pend i else 0 | None => 0 end)
      + reg_oblig pend rs' (S i) p
  end.

(** A kernel implementation that leaves the registers and the counters
    alone and gives every result slot it fills a reference of its own: over
    each successful run, the references of every value (less the one an
    unforwarded placeholder keeps) grow at least by the number of result
    slots holding that value. *)
Definition owns_results (fn : KernelImplementation) : Prop :=
  forall frame s frs s', fn frame s = Ok frs s' ->
    regs s' = regs s /\ kinfos s' = kinfos s
    /\ forall p, (refcount_of s p - owes_forward s p + Z.of_nat (count_some frs p)
                  <= refcount_of s' p - owes_forward s' p)%Z.

Section Accounting.
Variable kernels_ : list (option BEFKernel).
(** The function's result registers. *)
Variable result_regs : list nat.

(** The argument registers of kernel [k], as its record in the stream
    lists them. *)
Definition kernel_args_in (kis : list KernelInfo) (k : nat) : list nat :=
  match nth_error kis k with
  | Some ki => match nth_error kernels_ (offset ki / kKernelEntryAlignment) with
               | Some (Some kernel) => GetKernelEntries kernel 0 (num_arguments kernel)
               | _ => []
               end
  | None => []
  end.

(** Every use of register [r]: by an argument of any kernel, and by a
    result of the function. *)
Definition total_uses (kis : list KernelInfo) (r : nat) : nat :=
  list_sum (map (fun k => count_occ Nat.eq_dec (kernel_args_in kis k) r) (seq 0 (length kis)))
  + count_occ Nat.eq_dec result_regs r.

(** The uses of register [r] still to come: by the arguments of the kernels
    whose counter is positive (not fired yet), and by the results of the
    function. *)
Definition pending_uses (s : St) (r : nat) : nat :=
  list_sum (map (fun k => gate_pos s k * count_occ Nat.eq_dec (kernel_args_in (kinfos s) k) r)
                (seq 0 (length (kinfos s))))
  + count_occ Nat.eq_dec result_regs r.

(** The references of [p] beyond those owed: to every pending use of a
    register holding [p] (and to the uses listed in [X], the arguments of a
    kernel being fired), and to the forwarding of an unforwarded
    placeholder. *)
Definition slack (X : list nat) (s : St) (p : ptr) : Z :=
  (refcount_of s p
   - Z.of_nat (reg_oblig (fun r => (pending_uses s r + count_occ Nat.eq_dec X r)%nat) (regs s) 0 p)
   - owes_forward s p)%Z.

(** The user count of every register covers its pending uses (and [X]). *)
Definition uses_bounded (X : list nat) (s : St) : Prop :=
  forall r reg, nth_error (regs s) r = Some reg ->
    (pending_uses s r + count_occ Nat.eq_dec X r <= user_count reg)%nat.

(** Successful runs of [m] keep [uses_bounded X] and never lower the slack
    of a value. *)
Definition keeps_slack {A} (X : list nat) (m : M A) : Prop :=
  forall s a s', m s = Ok a s' -> uses_bounded X s ->
    uses_bounded X s' /\ forall p, (slack X s p <= slack X s' p)%Z.

(** The user count of each register (as [ReadFunction] sets it up) covers
    its uses: as an argument of the kernels and as a function result. *)
Definition uses_within (register_infos : list RegisterInfo) (kernel_infos : list KernelInfo)
  : Prop :=
  forall r reg, nth_error register_infos r = Some reg ->
    (total_uses kernel_infos r <= user_count reg)%nat.

End Accounting.

(** Every IndirectAsyncValue of the caller's heap that still waits for its
    forward holds at least the reference the forward will release. *)
Definition placeholders_held (s : St) : Prop :=
  forall p, (owes_forward s p <= refcount_of s p)%Z.

(** Events that touch no readiness gate. *)
Definition gate_silent (e : Event) : bool :=
  match e with
  | EvFetchSub _ _ | EvInvoke _ | EvPropagateError _ _ => false
  | _ => true
  end.

(** Computations that leave the counters alone and emit no gate event. *)
Definition silent {A} (m : M A) : Prop :=
  forall s a s', m s = Ok a s' ->
    kinfos s' = kinfos s /\ exists d, trace s' = trace s ++ d /\ forallb gate_silent d = true.

(** [m] completes the firing of kernel [k] whose [fetch_sub] just observed
    1 (its counter is no longer positive): the gate events it adds, after
    that [fetch_sub], are [Gated]. *)
Definition completes_fire {A} (k : nat) (m : M A) : Prop :=
  forall s a s', m s = Ok a s' -> gate_pos s k = 0 -> forall k', exists d,
    trace s' = trace s ++ d
    /\ Gated (if Nat.eqb k' k then EvFetchSub k 1 :: filter (gate_event k') d
              else filter (gate_event k') d)
    /\ num_fired k' d + gate_pos s' k' <= (if Nat.eqb k' k then 1 else gate_pos s k').

(** What the accelerating thread has established at a point of an
    interleaving started on [ids]: the kernels it is done with have a
    counter of at most 1, and in the loop for [k] the counter is at most
    the local [not_ready_count]. *)
Definition accel_invariant (ids : list nat) (kis : list KernelInfo) (pc : AccelPC) : Prop :=
  let done_ok done := forall k ki, In k done -> nth_error kis k = Some ki ->
                                   (arguments_not_ready ki <= 1)%Z in
  match pc with
  | AccelNext rest => exists done, ids = done ++ rest /\ done_ok done
  | AccelLoop k c rest =>
      exists done, ids = done ++ k :: rest /\ done_ok done
                   /\ forall ki, nth_error kis k = Some ki -> (arguments_not_ready ki <= c)%Z
  end.

(** How the firing loop may change the state: registers are never
    removed, never change their user count and, once holding a value, keep
    it (only a null register is written); kernel infos keep their offset
    and their counter never grows; the heap never shrinks. *)
Definition regs_evolve (rs rs' : list RegisterInfo) : Prop :=
  forall i reg, nth_error rs i = Some reg ->
    exists reg', nth_error rs' i = Some reg' /\ user_count reg' = user_count reg
                 /\ (value reg = None \/ value reg' = value reg).

Definition kinfos_evolve (kis kis' : list KernelInfo) : Prop :=
  forall k ki, nth_error kis k = Some ki ->
    exists ki', nth_error kis' k = Some ki' /\ offset ki' = offset ki
                /\ (arguments_not_ready ki' <= arguments_not_ready ki)%Z.

Definition evolves (s s' : St) : Prop :=
  length (heap s) <= length (heap s') /\ regs_evolve (regs s) (regs s')
  /\ kinfos_evolve (kinfos s) (kinfos s').

(** A computation whose successful runs only change the state as above. *)
Definition preserves {A} (m : M A) : Prop :=
  forall s a s', m s = Ok a s' -> evolves s s'.

(** The references [InitializeArgumentRegisters] adds to [p]: the user
    count of every register [i] that receives [arguments[i] = p]. *)
Fixpoint arg_refs (arguments : list ptr) (rs : list RegisterInfo) (p : ptr) : Z :=
  match arguments, rs with
  | a :: arguments', r :: rs' =>
      ((if Nat.eqb a p then Z.of_nat (user_count r) else 0) + arg_refs arguments' rs' p)%Z
  | _, _ => 0%Z
  end.

(** The last value of [vs] that is in the Error state in heap [h], or
    [any] when there is none. *)
Definition last_error (h : list AsyncValue) (vs : list ptr) (any : option ptr) : option ptr :=
  fold_left (fun acc v => match nth_error h v with
                          | Some av => if is_error (state av) then Some v else acc
                          | None => acc
                          end) vs any.

(* ------------------------------------------------------------------ *)
(** ** Concrete scenarios *)

Module Scenarios.

(** A continuation that does nothing (no indirect value is resolved here). *)
Definition idle_go : Task -> M unit := fun _ => ret tt.

(** The sample function's registers and counters, before the arguments are
    installed. *)
Definition s_regs : St := with_kinfos Sample.kernel_infos (with_regs Sample.register_infos Sample.s0).

(** One result register with no static user. *)
Definition s_unused : St := with_regs [mkReg None 0] Sample.s0.

(** An Error-state result (one reference) and the sample's counters. *)
Definition s_error : St :=
  mkSt [mkAV 1 (ErrorState 7) false None []] [] Sample.kernel_infos 0 0 [].

(** The sample after its arguments are installed, the second in Error state. *)
Definition s_strict : St :=
  mkSt [mkAV 1 (Concrete 3) false None []; mkAV 1 (ErrorState 7) false None []]
       [mkReg (Some 0) 1; mkReg (Some 1) 1; mkReg None 1; mkReg None 1]
       Sample.kernel_infos 0 0 [].

(** The sample after [InitializeArgumentRegisters]. *)
Definition s_args : St :=
  mkSt [mkAV 2 (Concrete 3) false None []; mkAV 2 (Concrete 4) false None []]
       [mkReg (Some 0) 1; mkReg (Some 1) 1; mkReg None 1; mkReg None 1]
       Sample.kernel_infos 0 0 [].

(** The sample function called while its second argument is still pending. *)
Definition s0_arg_pending : St :=
  mkSt [mkAV 1 (Concrete 3) false None []; mkAV 1 Unavailable false None []] [] [] 0 0 [].

Definition run_arg_pending :=
  Execute Sample.stream Sample.impls None 100 Sample.register_infos Sample.kernel_infos
    [3] [0; 1] [None] s0_arg_pending.

(** Two kernels accelerated while another thread decrements the first one;
    the first CAS fails on a changed value, a later one fails spuriously. *)
Definition s_accel : St := with_kinfos [mkKI 0 3; mkKI 4 2] Sample.s0.
Definition accel_schedule : list Sched :=
  [SAccel false; SOther (OpFetchSub 0); SAccel false; SAccel false;
   SAccel false; SAccel true; SAccel false].

(** An unavailable result with one reference. *)
Definition s_pending : St := mkSt [mkAV 1 Unavailable false None []] [] Sample.kernel_infos 0 0 [].

(** Register 0 already holds the unresolved IndirectAsyncValue 1 (another
    kernel got there first); value 0 is available. *)
Definition s_race : St :=
  mkSt [mkAV 1 (Concrete 5) false None []; mkAV 2 Unavailable true None []]
       [mkReg (Some 1) 2] [] 0 0 [].

(** The sample after its arguments are installed, with kernel 1 one
    decrement away from firing. *)
Definition s_fire : St := with_kinfos [mkKI 0 1; mkKI 4 1; mkKI 8 2] s_args.

End Scenarios.

(* ================================================================== *)
(** * Lemmas *)

Lemma length_set_nth {A} (n : nat) (x : A) (l : list A) :
  length (set_nth n x l) = length l.
Proof. revert n; induction l as [|h t IH]; intros [|n]; simpl; auto. Qed.

Lemma nth_error_set_nth_eq {A} (n : nat) (x : A) (l : list A) :
  n < length l -> nth_error (set_nth n x l) n = Some x.
Proof.
  revert n; induction l as [|h t IH]; intros [|n] H; simpl in *; try lia; auto.
  apply IH; lia.
Qed.

Lemma nth_error_set_nth_neq {A} (n m : nat) (x : A) (l : list A) :
  m <> n -> nth_error (set_nth n x l) m = nth_error l m.
Proof.
  revert n m; induction l as [|h t IH]; intros [|n] [|m] H; simpl; auto; try lia.
  all: apply IH; lia.
Qed.

Lemma nth_error_app_length {A} (l : list A) (x : A) :
  nth_error (l ++ [x]) (length l) = Some x.
Proof. rewrite nth_error_app2 by lia. now rewrite Nat.sub_diag. Qed.

Lemma set_nth_app_length {A} (l : list A) (x y : A) :
  set_nth (length l) y (l ++ [x]) = l ++ [y].
Proof. induction l as [|h t IH]; simpl; auto. now rewrite IH. Qed.

Lemma nth_error_Some_lt {A} (l : list A) n x : nth_error l n = Some x -> n < length l.
Proof. intro H. apply nth_error_Some. congruence. Qed.

Lemma set_nth_nth_error {A} (l : list A) n x :
  nth_error l n = Some x -> set_nth n x l = l.
Proof.
  revert n; induction l as [|h t IH]; intros [|n] H; simpl in *; try discriminate.
  - now inversion H.
  - now rewrite IH.
Qed.

Lemma set_nth_set_nth {A} (n : nat) (x y : A) (l : list A) :
  set_nth n x (set_nth n y l) = set_nth n x l.
Proof.
  revert n; induction l as [|h t IH]; intros [|n]; simpl; auto. now rewrite IH.
Qed.

Ltac simpl_lists :=
  repeat (rewrite ?length_set_nth, ?nth_error_app_length, ?set_nth_app_length, ?length_app,
            ?set_nth_set_nth).

Tactic Notation "csimpl" := cbn -[set_nth nth_error Z.add Z.sub Z.of_nat app length].
Tactic Notation "csimpl" "in" "*" := cbn -[set_nth nth_error Z.add Z.sub Z.of_nat app length] in *.

(** Unfold the monad plumbing and compute. *)
Ltac unfold_ops :=
  unfold SetRegisterValue, ForwardTo, GetOrCreateRegisterValue_race, MakeIndirectAsyncValue,
    interleave, compare_exchange_strong_reg, AddRef, DropRef, IsUnresolvedIndirect,
    IsAvailable, IsError, av_state, load_av, store_av, load_reg, GetRegisterValue in *.
(** Compute through a straight-line run, using the hypotheses about the
    registers and the heap. *)
Ltac crunch :=
  repeat progress (
    csimpl; simpl_lists;
    try rewrite nth_error_set_nth_eq by (simpl_lists; lia);
    try rewrite nth_error_set_nth_neq by congruence;
    try (match goal with H : nth_error _ _ = Some _ |- _ => rewrite H end)).

Ltac unfold_monad :=
  unfold from_option, assert, emit, modify, get, fault, bind, ret,
    with_heap, with_regs, with_kinfos, with_trace, with_exec_refs, with_handler_refs in *;
  csimpl in *.

(** Publishing a result into a register with no users. *)
Lemma publish_result_unused (go : Task -> M unit) (kernel : BEFKernel) (r : nat)
    (result_number : nat) (frame_results : list (option ptr)) (entry_offset : nat)
    (kernel_ids : list nat) (s : St) (w : option ptr) (v : ptr) (av : AsyncValue)
    (Hreg : nth_error (regs s) r = Some (mkReg w 0))
    (Hw : unset_or_unresolved s w)
    (Hres : nth result_number frame_results None = Some v)
    (Hv : nth_error (heap s) v = Some av) :
  let pending := negb (is_available (state av)) in
  exists s',
    publish_result go kernel r result_number frame_results entry_offset kernel_ids s
      = Ok (entry_offset, kernel_ids) s'
    /\ regs s' = regs s /\ kinfos s' = kinfos s /\ exec_refs s' = exec_refs s
    /\ handler_refs s' = (handler_refs s + if pending then 1 else 0)%Z
    /\ nth_error (heap s') v
       = Some (mkAV (refcount av - 1) (state av) (indirect av) (forwarded av)
                    (waiters av ++ if pending then [CbKeepHandler] else []))
    /\ (forall p, p <> v -> nth_error (heap s') p = nth_error (heap s) p)
    /\ trace s' = trace s ++ (if pending then [EvAndThen v CbKeepHandler] else [])
                          ++ [EvDropRef v 1].
Proof.
  pose proof (nth_error_Some_lt _ _ _ Hv) as Hvlt.
  assert (Hpre :
    publish_result go kernel r result_number frame_results entry_offset kernel_ids s
    = (MaybeAddRefForResult go v ;; DropRef v 1 ;; ret (entry_offset, kernel_ids)) s).
  {     unfold publish_result, load_reg, IsUnresolvedIndirect, load_av; unfold_monad.
    rewrite Hreg; csimpl.
    destruct w as [e|]; csimpl.
    - destruct Hw as (ev & He & Hind & Hfwd). rewrite He; csimpl. rewrite Hind, Hfwd; csimpl.
      rewrite Hres; reflexivity.
    - rewrite Hres; reflexivity. }
  rewrite Hpre. clear Hpre.
  unfold MaybeAddRefForResult, AndThen, HandlerAddRef; unfold_ops; unfold_monad.
  rewrite Hv; csimpl.
  destruct (is_available (state av)) eqn:Havail; crunch; rewrite ?Havail; crunch;
    (eexists; split; [reflexivity|]); csimpl; repeat split; try lia.
  all: try (intros p Hp; now rewrite ?nth_error_set_nth_neq by congruence).
  all: try (now rewrite <- ?app_assoc).
  all: rewrite nth_error_set_nth_eq by (simpl_lists; lia);
       unfold set_refcount, set_waiters; csimpl; now rewrite ?app_nil_r.
Qed.

(* ------------------------------------------------------------------ *)
(** ** Runs that never fail [SetRegisterValue]'s [user_count > 0] assertion *)


Lemma safe_ret {A} (a : A) : safe (ret a).
Proof. intros s; discriminate. Qed.

Lemma safe_bind {A B} (m : M A) (f : A -> M B) :
  safe m -> (forall a, safe (f a)) -> safe (bind m f).
Proof.
  intros Hm Hf s. unfold bind. specialize (Hm s).
  destruct (m s) as [a s'|e]; [apply Hf|congruence].
Qed.

Lemma safe_bind_from_option {A B} (a : Assertion) (o : option A) (f : A -> M B) :
  a <> A_user_count_positive -> (forall x, o = Some x -> safe (f x)) ->
  safe (bind (from_option a o) f).
Proof.
  intros Ha Hf s. unfold bind, from_option, fault. destruct o as [x|].
  - now apply Hf.
  - congruence.
Qed.

Lemma safe_get : safe get.
Proof. intros s; discriminate. Qed.
Lemma safe_modify f : safe (modify f).
Proof. intros s; discriminate. Qed.
Lemma safe_emit e : safe (emit e).
Proof. intros s; discriminate. Qed.
Lemma safe_fault {A} f : f <> AssertFailed A_user_count_positive -> safe (@fault A f).
Proof. intros H s; unfold fault; congruence. Qed.
Lemma safe_assert a b : a <> A_user_count_positive -> safe (assert a b).
Proof. intros H s; unfold assert, fault, ret; destruct b; congruence. Qed.
Lemma safe_from_option {A} a (o : option A) : a <> A_user_count_positive -> safe (from_option a o).
Proof. intros H s; unfold from_option, fault, ret; destruct o; congruence. Qed.

Create HintDb safe_db.
#[export] Hint Resolve safe_ret safe_get safe_modify safe_emit : safe_db.

(** Decompose a computation into its primitive steps. *)
Ltac safe_tac :=
  repeat match goal with
  | |- safe (bind (from_option _ _) _) =>
      apply safe_bind_from_option; [discriminate|intros ? ?]
  | |- safe (bind _ _) => apply safe_bind; [|intros ?]
  | |- safe (fault _) => apply safe_fault; discriminate
  | |- safe (assert _ _) => apply safe_assert; discriminate
  | |- safe (from_option _ _) => apply safe_from_option; discriminate
  | |- safe (match ?x with _ => _ end) => destruct x
  | |- safe (if ?b then _ else _) => destruct b
  | |- safe _ => solve [eauto with safe_db]
  end.

Section Safety.
Variable kernels_ : list (option BEFKernel).
Variable kernel_impls : list KernelImplementation.
Variable cancel_async_value : option ptr.
Variable go : Task -> M unit.
Hypothesis go_safe : forall t, safe (go t).
#[local] Hint Resolve go_safe : safe_db.

Lemma safe_load_av p : safe (load_av p).
Proof. unfold load_av; safe_tac. Qed.
Lemma safe_store_av p v : safe (store_av p v).
Proof. unfold store_av; safe_tac. Qed.
Lemma safe_AddRef p n : safe (AddRef p n).
Proof. unfold AddRef, load_av, store_av; safe_tac. Qed.
Lemma safe_DropRef p n : safe (DropRef p n).
Proof. unfold DropRef, load_av, store_av; safe_tac. Qed.
Lemma safe_load_reg r : safe (load_reg r).
Proof. unfold load_reg; safe_tac. Qed.
#[local] Hint Resolve safe_load_av safe_store_av safe_AddRef safe_DropRef safe_load_reg : safe_db.

Lemma safe_GetOrCreateRegisterValue r : safe (GetOrCreateRegisterValue r).
Proof.
  unfold GetOrCreateRegisterValue, GetOrCreateRegisterValue_race, MakeIndirectAsyncValue,
    interleave, compare_exchange_strong_reg; safe_tac.
Qed.

Lemma safe_run_callbacks cbs : safe (run_callbacks go cbs).
Proof.
  induction cbs as [|cb cbs IH]; cbn [run_callbacks]; [safe_tac|].
  apply safe_bind; [|intros; exact IH].
  unfold run_callback, ExecutorDropRef, HandlerDropRef; destruct cb; safe_tac.
Qed.

Lemma safe_AndThen p cb : safe (AndThen go p cb).
Proof.
  unfold AndThen, run_callback, ExecutorDropRef, HandlerDropRef; safe_tac;
    destruct cb; safe_tac; auto.
Qed.
#[local] Hint Resolve safe_GetOrCreateRegisterValue safe_run_callbacks safe_AndThen : safe_db.

Lemma safe_ForwardTo i t : safe (ForwardTo go i t).
Proof. unfold ForwardTo; safe_tac. Qed.

Lemma safe_resolve_indirect i : safe (resolve_indirect go i).
Proof. unfold resolve_indirect; safe_tac. Qed.

Lemma safe_fetch_sub k : safe (fetch_sub k).
Proof. unfold fetch_sub, load_kinfo, store_not_ready; safe_tac. Qed.

Lemma safe_SetKernelsWithErrorInputReady ids : safe (SetKernelsWithErrorInputReady ids).
Proof.
  unfold SetKernelsWithErrorInputReady; apply safe_bind; [|intros; safe_tac].
  induction ids as [|k ids IH]; cbn [SetKernelsWithErrorInputReady_loop]; [safe_tac|].
  apply safe_bind; [|intros; exact IH].
  unfold SetKernelWithErrorInputReady, load_kinfo, store_not_ready; safe_tac.
Qed.
#[local] Hint Resolve safe_ForwardTo safe_resolve_indirect safe_fetch_sub
  safe_SetKernelsWithErrorInputReady : safe_db.

Lemma safe_ProcessUsedBys kernel rn result off ids :
  safe (ProcessUsedBys go kernel rn result off ids).
Proof.
  unfold ProcessUsedBys, MaybeAddRefForResult, IsAvailable, av_state, ExecutorAddRef,
    HandlerAddRef; safe_tac.
Qed.

Lemma safe_bind_arguments args any : safe (bind_arguments args any).
Proof.
  revert any; induction args as [|a args IH]; intros any; cbn [bind_arguments]; [safe_tac|].
  apply safe_bind; [auto with safe_db|intros v].
  apply safe_bind; [unfold IsError, av_state; safe_tac|intros err].
  apply safe_bind; [apply IH|intros [vs any']; safe_tac].
Qed.

Lemma safe_propagate_error e n : safe (propagate_error e n).
Proof.
  induction n; cbn [propagate_error]; [safe_tac|].
  apply safe_bind; [auto with safe_db|intros _].
  apply safe_bind; [exact IHn|intros; safe_tac].
Qed.

Lemma safe_drop_arguments args : safe (drop_arguments args).
Proof.
  induction args; cbn [drop_arguments]; [safe_tac|].
  apply safe_bind; [auto with safe_db|intros _; exact IHargs].
Qed.
#[local] Hint Resolve safe_ProcessUsedBys safe_bind_arguments safe_propagate_error
  safe_drop_arguments : safe_db.

Lemma safe_at {A} (m : M A) s : safe m -> m s <> Fail (AssertFailed A_user_count_positive).
Proof. intros H; apply H. Qed.

Lemma bind_at {A B} (m : M A) (f : A -> M B) s :
  m s <> Fail (AssertFailed A_user_count_positive) ->
  (forall a s', m s = Ok a s' -> f a s' <> Fail (AssertFailed A_user_count_positive)) ->
  bind m f s <> Fail (AssertFailed A_user_count_positive).
Proof. intros Hm Hf; unfold bind; destruct (m s) eqn:E; [now apply Hf|congruence]. Qed.

Lemma load_reg_Ok r s reg s' :
  load_reg r s = Ok reg s' -> s' = s /\ nth_error (regs s) r = Some reg.
Proof.
  unfold load_reg, bind, get, from_option, ret, fault.
  destruct (nth_error (regs s) r); intros H; inversion H; subst; auto.
Qed.

(** [SetRegisterValue] passes its assertion when the register has users. *)
Lemma SetRegisterValue_safe_at r v s reg :
  nth_error (regs s) r = Some reg -> user_count reg <> 0 ->
  SetRegisterValue go r v s <> Fail (AssertFailed A_user_count_positive).
Proof.
  intros Hr Hu. unfold SetRegisterValue.
  apply bind_at; [apply safe_at, safe_load_reg|].
  intros reg' s' Hl. apply load_reg_Ok in Hl as [-> Hr']. rewrite Hr in Hr'.
  injection Hr' as <-.
  apply bind_at.
  - unfold assert, ret. destruct (Nat.ltb_spec 0 (user_count reg)); [discriminate|lia].
  - intros [] s2 _. apply safe_at.
    unfold compare_exchange_strong_reg; safe_tac.
Qed.

Lemma safe_publish_result kernel r rn frs off ids :
  safe (publish_result go kernel r rn frs off ids).
Proof.
  intros s. unfold publish_result.
  apply bind_at; [apply safe_at, safe_load_reg|].
  intros reg s1 Hl. apply load_reg_Ok in Hl as [-> Hr].
  apply bind_at.
  { apply safe_at. destruct (value reg); unfold IsUnresolvedIndirect, load_av; safe_tac. }
  intros unset s2 Hs2.
  assert (s2 = s) as ->.
  { destruct (value reg) as [p|]; [|now inversion Hs2].
    revert Hs2; unfold IsUnresolvedIndirect, load_av, bind, get, from_option, ret, fault.
    destruct (nth_error (heap s) p); intros H; now inversion H. }
  apply bind_at; [apply safe_at; safe_tac|].
  intros [] s3 Hs3. assert (s3 = s) as ->.
  { revert Hs3; unfold assert, ret, fault; destruct unset; intros H; now inversion H. }
  apply bind_at; [apply safe_at; safe_tac|].
  intros result s4 Hs4. assert (s4 = s) as ->.
  { revert Hs4; unfold from_option, ret, fault; destruct (nth rn frs None);
      intros H; now inversion H. }
  destruct (Nat.eqb_spec (user_count reg) 0).
  - apply safe_at. unfold MaybeAddRefForResult, IsAvailable, av_state, HandlerAddRef; safe_tac.
  - apply bind_at; [now apply SetRegisterValue_safe_at with reg|].
    intros [rv already] s5 _. apply safe_at. safe_tac.
Qed.
#[local] Hint Resolve safe_publish_result : safe_db.

Lemma safe_publish_results kernel results rn frs off ids :
  safe (publish_results go kernel results rn frs off ids).
Proof.
  revert rn off ids; induction results as [|r rest IH]; intros rn off ids;
    cbn [publish_results]; [safe_tac|].
  apply safe_bind; [auto with safe_db|intros [off' ids']; apply IH].
Qed.
#[local] Hint Resolve safe_publish_results : safe_db.

Hypothesis impls_safe : forall fn, In fn kernel_impls -> forall frame, safe (fn frame).

Lemma safe_fire_kernel k ki ids :
  safe (fire_kernel kernels_ kernel_impls cancel_async_value go k ki ids).
Proof.
  unfold fire_kernel, decode_kernel.
  apply safe_bind; [safe_tac|intros _].
  apply safe_bind_from_option; [discriminate|intros kernel _].
  apply safe_bind_from_option; [discriminate|intros fn Hfn].
  apply nth_error_In in Hfn.
  apply safe_bind; [auto with safe_db|intros [args any]].
  apply safe_bind; [|intros frs; apply safe_bind; [auto with safe_db|intros; auto with safe_db]].
  destruct any; [destruct (negb _)|]; (apply safe_bind; [auto with safe_db|intros _]);
    auto with safe_db.
Qed.

Lemma safe_process_kernel k ids :
  safe (process_kernel kernels_ kernel_impls cancel_async_value go k ids).
Proof.
  unfold process_kernel. apply safe_bind; [auto with safe_db|intros prior].
  destruct (negb _); [safe_tac|].
  apply safe_bind; [unfold load_kinfo; safe_tac|intros ki; apply safe_fire_kernel].
Qed.

End Safety.

#[export] Hint Resolve safe_load_av safe_store_av safe_AddRef safe_DropRef safe_load_reg
  safe_GetOrCreateRegisterValue : safe_db.

Lemma safe_run kernels_ kernel_impls cancel :
  (forall fn, In fn kernel_impls -> forall frame, safe (fn frame)) ->
  forall fuel t, safe (run kernels_ kernel_impls cancel fuel t).
Proof.
  intros Himpls fuel. induction fuel as [|fuel IH]; intros t; cbn [run].
  - apply safe_fault; discriminate.
  - destruct t as [ids|i].
    + destruct (pop_back ids) as [[rest k]|]; [|apply safe_ret].
      apply safe_bind; [apply safe_process_kernel; auto|intros; apply IH].
    + apply safe_resolve_indirect; exact IH.
Qed.

Lemma safe_pseudo_results go kernel results rn off ids :
  (forall t, safe (go t)) -> safe (pseudo_results go kernel results rn off ids).
Proof.
  intros Hgo. revert rn off ids; induction results as [|r rest IH]; intros rn off ids;
    cbn [pseudo_results]; [safe_tac|].
  apply safe_bind; [apply safe_load_reg|intros reg].
  destruct (_ =? 0); [apply IH|].
  apply safe_bind; [unfold GetRegisterValue; apply safe_bind;
                    [apply safe_load_reg|intros; safe_tac]|intros res].
  apply safe_bind_from_option; [discriminate|intros v _].
  apply safe_bind; [now apply safe_ProcessUsedBys|intros [off' ids']; apply IH].
Qed.

Lemma safe_Execute kernels_ kernel_impls cancel fuel register_infos kernel_infos
    result_regs arguments results :
  (forall fn, In fn kernel_impls -> forall frame, safe (fn frame)) ->
  safe (Execute kernels_ kernel_impls cancel fuel register_infos kernel_infos
          result_regs arguments results).
Proof.
  intros Himpls. pose proof (safe_run kernels_ kernel_impls cancel Himpls fuel) as Hrun.
  unfold Execute. destruct kernels_ as [|k ks]; [safe_tac|].
  apply safe_bind; [safe_tac|intros _].
  apply safe_bind; [safe_tac|intros _].
  apply safe_bind.
  { unfold InitializeArgumentRegisters. apply safe_bind; [safe_tac|intros st].
    generalize 0 (length (regs st)). intros i n. revert i.
    induction n as [|n IH]; intros i; cbn [InitializeArgumentRegisters_loop]; [safe_tac|].
    apply safe_bind; [|intros _; apply IH].
    destruct (nth_error arguments i) as [a|]; [|safe_tac].
    apply safe_bind; [apply safe_load_reg|intros reg].
    apply safe_bind; [apply safe_AddRef|intros _]. safe_tac. }
  intros _. apply safe_bind.
  { unfold BEFExecutor_init, DecrementArgumentsNotReadyCounts.
    apply safe_bind; [safe_tac|intros _]. apply safe_bind; [safe_tac|intros st].
    apply safe_bind; [|intros; apply Hrun].
    destruct (negb _); [|safe_tac].
    unfold ProcessArgumentsPseudoKernel, decode_kernel.
    destruct (pop_back _) as [[rest back]|]; [|safe_tac].
    apply safe_bind; [safe_tac|intros _].
    apply safe_bind_from_option; [discriminate|intros kernel _].
    apply safe_bind; [safe_tac|intros _]. now apply safe_pseudo_results. }
  intros _. apply safe_bind.
  { revert results; induction result_regs as [|r rrest IH]; intros [|res rest];
      cbn [populate_results]; safe_tac. }
  intros res'. unfold ExecutorDropRef; safe_tac.
Qed.


(* ------------------------------------------------------------------ *)
(** ** Error acceleration on this thread *)

Lemma bind_Ok {A B} (m : M A) (f : A -> M B) s a s' :
  m s = Ok a s' -> bind m f s = f a s'.
Proof. intros H; unfold bind; now rewrite H. Qed.


Lemma clamp_idem ki : clamp (clamp ki) = clamp ki.
Proof.
  destruct ki as [o c]; unfold clamp; cbn.
  destruct (Z.ltb_spec 1 c) as [H|H]; cbn; [reflexivity|].
  apply Z.ltb_ge in H. now rewrite H.
Qed.

Lemma clamp_le_1 ki : (arguments_not_ready (clamp ki) <= 1)%Z.
Proof. unfold clamp; cbn. destruct (Z.ltb_spec 1 (arguments_not_ready ki)); lia. Qed.

Lemma SetKernelsWithErrorInputReady_loop_spec ids s :
  Forall (fun k => k < length (kinfos s)) ids ->
  exists kis,
    SetKernelsWithErrorInputReady_loop ids s = Ok tt (with_kinfos kis s)
    /\ length kis = length (kinfos s)
    /\ forall k, nth_error kis k
                 = option_map (fun ki => if existsb (Nat.eqb k) ids then clamp ki else ki)
                              (nth_error (kinfos s) k).
Proof.
  revert s; induction ids as [|k ids IH]; intros s Hids.
  - exists (kinfos s). split; [now destruct s|]. split; [reflexivity|].
    intros k; cbn; now destruct (nth_error (kinfos s) k).
  - inversion Hids as [|? ? Hk Hrest]; subst.
    destruct (nth_error (kinfos s) k) as [ki|] eqn:Hki;
      [|apply nth_error_None in Hki; lia].
    set (s1 := with_kinfos (set_nth k (clamp ki) (kinfos s)) s).
    assert (Hstep : SetKernelWithErrorInputReady k s = Ok tt s1).
    { unfold SetKernelWithErrorInputReady, load_kinfo, store_not_ready, bind, get,
        from_option, ret, modify. rewrite Hki. subst s1; unfold clamp.
      destruct (1 <? arguments_not_ready ki)%Z; [reflexivity|].
      destruct ki as [o c]; cbn. rewrite (set_nth_nth_error _ _ _ Hki).
      now destruct s. }
    assert (Hrest1 : Forall (fun k => k < length (kinfos s1)) ids)
      by (subst s1; cbn; now rewrite length_set_nth).
    destruct (IH s1 Hrest1) as (kis & Hrun & Hlen & Hnth).
    exists kis. split; [|split].
    + cbn [SetKernelsWithErrorInputReady_loop]. rewrite (bind_Ok _ _ _ _ _ Hstep), Hrun.
      reflexivity.
    + rewrite Hlen; subst s1; cbn; now rewrite length_set_nth.
    + intros k'. rewrite Hnth. subst s1; cbn [kinfos with_kinfos].
      destruct (Nat.eq_dec k' k) as [->|Hne].
      * rewrite nth_error_set_nth_eq by lia. rewrite Hki; cbn.
        rewrite Nat.eqb_refl; cbn. destruct (existsb _ ids); [now rewrite clamp_idem|reflexivity].
      * rewrite nth_error_set_nth_neq by exact Hne. cbn.
        now rewrite (proj2 (Nat.eqb_neq k' k) Hne).
Qed.

(* ------------------------------------------------------------------ *)
(** ** Reference-count bookkeeping *)


Lemma heap_delta_refl s : heap_delta s s (fun _ => 0%Z).
Proof.
  intros p. destruct (nth_error (heap s) p) as [[]|]; cbn; auto.
  unfold set_refcount; cbn. now rewrite Z.add_0_r.
Qed.

Lemma heap_delta_trans s1 s2 s3 d1 d2 :
  heap_delta s1 s2 d1 -> heap_delta s2 s3 d2 -> heap_delta s1 s3 (fun p => d1 p + d2 p)%Z.
Proof.
  intros H1 H2 p. rewrite H2, H1. destruct (nth_error (heap s1) p); cbn; auto.
  unfold set_refcount; cbn. do 2 f_equal. lia.
Qed.

Lemma heap_delta_ext s1 s2 d1 d2 :
  (forall p, d1 p = d2 p) -> heap_delta s1 s2 d1 -> heap_delta s1 s2 d2.
Proof. intros He H p. rewrite H. now rewrite He. Qed.

Lemma AddRef_Ok p n s a :
  nth_error (heap s) p = Some a ->
  exists s', AddRef p n s = Ok tt s'
    /\ heap_delta s s' (fun q => if Nat.eqb q p then n else 0)%Z
    /\ length (heap s') = length (heap s)
    /\ trace s' = trace s ++ [EvAddRef p n]
    /\ regs s' = regs s /\ kinfos s' = kinfos s.
Proof.
  intros Ha. pose proof (nth_error_Some_lt _ _ _ Ha).
  unfold AddRef, load_av, store_av; unfold_monad. rewrite Ha; csimpl.
  eexists; split; [reflexivity|]; csimpl.
  split; [|split; [now rewrite length_set_nth|auto]].
  intros q. cbn [heap]. destruct (Nat.eqb_spec q p) as [->|Hne].
  - rewrite nth_error_set_nth_eq by lia. now rewrite Ha.
  - rewrite nth_error_set_nth_neq by exact Hne.
    destruct (nth_error (heap s) q) as [[]|]; cbn; auto.
    unfold set_refcount; cbn. now rewrite Z.add_0_r.
Qed.

Lemma DropRef_Ok p n s a :
  nth_error (heap s) p = Some a ->
  exists s', DropRef p n s = Ok tt s'
    /\ heap_delta s s' (fun q => if Nat.eqb q p then - n else 0)%Z
    /\ length (heap s') = length (heap s)
    /\ trace s' = trace s ++ [EvDropRef p n]
    /\ regs s' = regs s /\ kinfos s' = kinfos s.
Proof.
  intros Ha. pose proof (nth_error_Some_lt _ _ _ Ha).
  unfold DropRef, load_av, store_av; unfold_monad. rewrite Ha; csimpl.
  eexists; split; [reflexivity|]; csimpl.
  split; [|split; [now rewrite length_set_nth|auto]].
  intros q. cbn [heap]. destruct (Nat.eqb_spec q p) as [->|Hne].
  - rewrite nth_error_set_nth_eq by lia. rewrite Ha; cbn. do 3 f_equal; try lia.
  - rewrite nth_error_set_nth_neq by exact Hne.
    destruct (nth_error (heap s) q) as [[]|]; cbn; auto.
    unfold set_refcount; cbn. now rewrite Z.add_0_r.
Qed.

Lemma propagate_error_Ok err n s :
  err < length (heap s) ->
  exists s', propagate_error err n s = Ok (repeat (Some err) n) s'
    /\ heap_delta s s' (fun q => if Nat.eqb q err then Z.of_nat n else 0)%Z
    /\ length (heap s') = length (heap s)
    /\ trace s' = trace s ++ repeat (EvAddRef err 1) n
    /\ regs s' = regs s /\ kinfos s' = kinfos s.
Proof.
  revert s; induction n as [|n IH]; intros s Hlt.
  - exists s. split; [reflexivity|]. split; [|split; [reflexivity|]].
    + eapply heap_delta_ext; [|apply heap_delta_refl]. intros q; cbn.
      now destruct (q =? err).
    + split; [now rewrite app_nil_r|auto].
  - destruct (nth_error (heap s) err) as [a|] eqn:Ha; [|apply nth_error_None in Ha; lia].
    destruct (AddRef_Ok err 1 s a Ha) as (s1 & H1 & D1 & L1 & T1 & R1 & K1).
    destruct (IH s1 ltac:(lia)) as (s2 & H2 & D2 & L2 & T2 & R2 & K2).
    exists s2. cbn [propagate_error].
    rewrite (bind_Ok _ _ _ _ _ H1), (bind_Ok _ _ _ _ _ H2).
    split; [reflexivity|]. split; [|split; [lia|split; [|split; congruence]]].
    + eapply heap_delta_ext; [|eapply heap_delta_trans; eassumption].
      intros q; cbn. destruct (q =? err); lia.
    + rewrite T2, T1, <- app_assoc. reflexivity.
Qed.

Lemma drop_arguments_Ok args s :
  Forall (fun p => p < length (heap s)) args ->
  exists s', drop_arguments args s = Ok tt s'
    /\ heap_delta s s' (fun q => - Z.of_nat (count_occ Nat.eq_dec args q))%Z
    /\ length (heap s') = length (heap s)
    /\ trace s' = trace s ++ map (fun a => EvDropRef a 1) args
    /\ regs s' = regs s /\ kinfos s' = kinfos s.
Proof.
  revert s; induction args as [|x args IH]; intros s Hall.
  - exists s. split; [reflexivity|]. split; [|split; [reflexivity|]].
    + eapply heap_delta_ext; [|apply heap_delta_refl]. intros q; reflexivity.
    + split; [now rewrite app_nil_r|auto].
  - inversion Hall as [|? ? Hx Hrest]; subst.
    destruct (nth_error (heap s) x) as [a|] eqn:Ha; [|apply nth_error_None in Ha; lia].
    destruct (DropRef_Ok x 1 s a Ha) as (s1 & H1 & D1 & L1 & T1 & R1 & K1).
    assert (Hrest1 : Forall (fun p => p < length (heap s1)) args) by now rewrite L1.
    destruct (IH s1 Hrest1) as (s2 & H2 & D2 & L2 & T2 & R2 & K2).
    exists s2. cbn [drop_arguments].
    rewrite (bind_Ok _ _ _ _ _ H1), H2.
    split; [reflexivity|]. split; [|split; [lia|split; [|split; congruence]]].
    + eapply heap_delta_ext; [|eapply heap_delta_trans; eassumption].
      intros q; cbn. destruct (Nat.eqb_spec q x) as [->|Hne].
      * destruct (Nat.eq_dec x x) as [_|]; [|congruence]. lia.
      * destruct (Nat.eq_dec x q) as [|_]; [congruence|]. lia.
    + rewrite T2, T1, <- app_assoc. reflexivity.
Qed.

(* ------------------------------------------------------------------ *)
(** ** Inverting successful runs *)

Lemma bind_Ok_inv {A B} (m : M A) (f : A -> M B) s b s'' :
  bind m f s = Ok b s'' -> exists a s', m s = Ok a s' /\ f a s' = Ok b s''.
Proof.
  unfold bind. destruct (m s) as [a s'|e]; intros H; [|discriminate]. eauto.
Qed.

Ltac binv H :=
  apply bind_Ok_inv in H;
  let a := fresh "a" in let st := fresh "st" in let H1 := fresh "Hstep" in
  destruct H as (a & st & H1 & H).

Lemma ret_Ok_inv {A} (a b : A) s s' : ret a s = Ok b s' -> a = b /\ s' = s.
Proof. unfold ret; intros H; now inversion H. Qed.

Lemma emit_Ok_inv e s u s' : emit e s = Ok u s' -> s' = with_trace (trace s ++ [e]) s.
Proof. unfold emit, modify; intros H; now inversion H. Qed.

Lemma assert_Ok_inv a b s u s' : assert a b s = Ok u s' -> s' = s /\ b = true.
Proof. unfold assert, ret, fault; destruct b; intros H; now inversion H. Qed.

Lemma from_option_Ok_inv {A} a (o : option A) s x s' :
  from_option a o s = Ok x s' -> s' = s /\ o = Some x.
Proof. unfold from_option, ret, fault; destruct o; intros H; now inversion H. Qed.

Lemma load_av_Ok_inv p s v s' : load_av p s = Ok v s' -> s' = s /\ nth_error (heap s) p = Some v.
Proof.
  unfold load_av, bind, get, from_option, ret, fault.
  destruct (nth_error (heap s) p); intros H; now inversion H.
Qed.


Lemma counters_clamped_refl kis : counters_clamped kis kis.
Proof. intros k; now left. Qed.

Lemma counters_clamped_trans k1 k2 k3 :
  counters_clamped k1 k2 -> counters_clamped k2 k3 -> counters_clamped k1 k3.
Proof.
  intros H1 H2 k. destruct (H2 k) as [E2|(ki & E2 & F2)]; destruct (H1 k) as [E1|(ki' & E1 & F1)].
  - left; congruence.
  - right; exists ki'; split; congruence.
  - right; exists ki; split; congruence.
  - right; exists ki'; split; [assumption|]. rewrite F2. rewrite F1 in E2.
    injection E2 as <-. now rewrite clamp_idem.
Qed.

Lemma SetKernelsWithErrorInputReady_loop_Ok_inv ids s u s' :
  SetKernelsWithErrorInputReady_loop ids s = Ok u s' ->
  heap s' = heap s /\ regs s' = regs s /\ trace s' = trace s
  /\ exec_refs s' = exec_refs s /\ handler_refs s' = handler_refs s
  /\ counters_clamped (kinfos s) (kinfos s').
Proof.
  revert s; induction ids as [|k ids IH]; intros s H; cbn [SetKernelsWithErrorInputReady_loop] in H.
  - apply ret_Ok_inv in H as [_ ->]. repeat split; auto. apply counters_clamped_refl.
  - binv H. apply IH in H as (Hh & Hr & Ht & He & Hhr & Hc).
    unfold SetKernelWithErrorInputReady in Hstep.
    binv Hstep. unfold load_kinfo in Hstep0. binv Hstep0.
    unfold get in Hstep1. injection Hstep1 as <- <-.
    apply from_option_Ok_inv in Hstep0 as [-> Hki].
    destruct (Z.ltb_spec 1 (arguments_not_ready a0)) as [Hgt|Hle].
    + unfold store_not_ready, modify in Hstep. injection Hstep as <- <-.
      cbn in *. repeat split; try congruence.
      eapply counters_clamped_trans; [|exact Hc].
      intros k'. destruct (Nat.eq_dec k' k) as [->|Hne].
      * right. exists a0. split; [exact Hki|].
        rewrite nth_error_set_nth_eq by (apply nth_error_Some_lt with a0; exact Hki).
        unfold clamp. destruct (Z.ltb_spec 1 (arguments_not_ready a0)); [reflexivity|lia].
      * left. now rewrite nth_error_set_nth_neq by exact Hne.
    + apply ret_Ok_inv in Hstep as [_ ->]. repeat split; auto.
Qed.


Lemma av_state_Ok_inv p s st s' :
  av_state p s = Ok st s' -> s' = s /\ exists v, nth_error (heap s) p = Some v /\ st = state v.
Proof.
  unfold av_state, load_av, bind, get, from_option, ret, fault.
  destruct (nth_error (heap s) p); intros H; inversion H; subst; eauto.
Qed.

Lemma IsAvailable_Ok_inv p s b s' :
  IsAvailable p s = Ok b s' ->
  s' = s /\ exists v, nth_error (heap s) p = Some v /\ b = is_available (state v).
Proof.
  unfold IsAvailable, av_state, load_av, bind, get, from_option, ret, fault.
  destruct (nth_error (heap s) p); intros H; inversion H; subst; eauto.
Qed.

Tactic Notation "binv" hyp(H) "as" ident(a) ident(st) ident(H1) :=
  apply bind_Ok_inv in H; destruct H as (a & st & H1 & H).

Lemma ProcessUsedBys_Ok_inv go kernel rn v off ids s off' ids' s' :
  ProcessUsedBys go kernel rn v off ids s = Ok (off', ids') s' ->
  exists delta, trace s' = trace s ++ EvDispatch rn v :: delta
    /\ Forall (fun e => quiet e = true) delta
    /\ regs s' = regs s /\ counters_clamped (kinfos s) (kinfos s')
    /\ exists extra, ids' = ids ++ extra.
Proof.
  intros H. unfold ProcessUsedBys in H. binv H as u s1 E1. apply emit_Ok_inv in E1 as ->.
  set (s1 := with_trace (trace s ++ [EvDispatch rn v]) s) in *.
  destruct (num_used_bys kernel rn =? 0).
  - binv H as u2 s2 E2. apply ret_Ok_inv in H as [[= <- <-] ->].
    unfold MaybeAddRefForResult in E2. binv E2 as avail s3 E3.
    apply IsAvailable_Ok_inv in E3 as [-> _].
    destruct avail.
    + apply ret_Ok_inv in E2 as [_ ->]. exists []. subst s1; cbn. repeat split; auto.
      apply counters_clamped_refl. exists []; now rewrite app_nil_r.
    + binv E2 as u4 s4 E4. unfold HandlerAddRef, modify in E4. injection E4 as <- <-.
      unfold AndThen in E2. binv E2 as av s5 E5. apply load_av_Ok_inv in E5 as [-> _].
      destruct (is_available (state av)).
      * unfold run_callback, HandlerDropRef, modify in E2. injection E2 as <- <-.
        exists []. subst s1; cbn. repeat split; auto. apply counters_clamped_refl.
        exists []; now rewrite app_nil_r.
      * binv E2 as u6 s6 E6. unfold store_av, modify in E6. injection E6 as <- <-.
        apply emit_Ok_inv in E2 as ->.
        exists [EvAndThen v CbKeepHandler]. subst s1; cbn. repeat split; auto.
        now rewrite <- app_assoc. apply counters_clamped_refl.
        exists []; now rewrite app_nil_r.
  - set (used_bys := GetKernelEntries kernel off (num_used_bys kernel rn)) in *.
    binv H as u2 s2 E2. apply assert_Ok_inv in E2 as [-> _].
    binv H as st s3 E3. apply av_state_Ok_inv in E3 as [-> (av & Hv & ->)].
    binv H as u4 s4 E4.
    assert (Hacc : exists d, trace s4 = trace s1 ++ d /\ Forall (fun e => quiet e = true) d
                     /\ heap s4 = heap s1 /\ regs s4 = regs s1
                     /\ counters_clamped (kinfos s1) (kinfos s4)).
    { destruct (is_error (state av)).
      - unfold SetKernelsWithErrorInputReady in E4. binv E4 as u5 s5 E5.
        apply SetKernelsWithErrorInputReady_loop_Ok_inv in E5 as (Hh & Hr & Ht & _ & _ & Hc).
        apply emit_Ok_inv in E4 as ->.
        exists [EvSetKernelsWithErrorInputReady used_bys]. cbn. rewrite Ht.
        repeat split; auto.
      - apply ret_Ok_inv in E4 as [_ ->]. exists []. rewrite app_nil_r.
        repeat split; auto. apply counters_clamped_refl. }
    destruct Hacc as (d & Ht & Hq & Hh & Hr & Hc).
    destruct (is_available (state av)) eqn:Havail.
    + binv H as u5 s5 E5. apply emit_Ok_inv in E5 as ->.
      apply ret_Ok_inv in H as [[= <- <-] ->].
      exists (d ++ [EvAppend used_bys]). cbn. rewrite Ht. subst s1; cbn.
      repeat split.
      * now rewrite <- !app_assoc.
      * apply Forall_app; split; auto.
      * exact Hr.
      * exact Hc.
      * eauto.
    + binv H as u5 s5 E5. unfold ExecutorAddRef, modify in E5. injection E5 as <- <-.
      binv H as u6 s6 E6. apply ret_Ok_inv in H as [[= <- <-] ->].
      unfold AndThen in E6. binv E6 as av' s7 E7. apply load_av_Ok_inv in E7 as [-> Hv'].
      cbn in Hv'. rewrite Hh in Hv'. subst s1; cbn in Hv, Hv'. rewrite Hv in Hv'.
      injection Hv' as <-. rewrite Havail in E6.
      binv E6 as u8 s8 E8. unfold store_av, modify in E8. injection E8 as <- <-.
      apply emit_Ok_inv in E6 as ->.
      exists (d ++ [EvAndThen v (CbDecrement used_bys)]). cbn. rewrite Ht; cbn.
      repeat split.
      * now rewrite <- !app_assoc.
      * apply Forall_app; split; auto.
      * exact Hr.
      * exact Hc.
      * exists []; now rewrite app_nil_r.
Qed.

Lemma filter_dispatch_quiet d :
  Forall (fun e => quiet e = true) d -> filter is_dispatch d = [].
Proof.
  induction d as [|e d IH]; intros H; [reflexivity|].
  inversion H as [|? ? He Hd]; subst. cbn. rewrite IH by exact Hd.
  destruct e; cbn in *; congruence.
Qed.

Lemma pseudo_results_Ok_inv go kernel results rn uoff ids s ids' s' :
  pseudo_results go kernel results rn uoff ids s = Ok ids' s' ->
  exists delta, trace s' = trace s ++ delta
    /\ Forall (fun e => quiet e || is_dispatch e = true) delta
    /\ filter is_dispatch delta = pseudo_dispatches (regs s) results rn
    /\ regs s' = regs s /\ counters_clamped (kinfos s) (kinfos s')
    /\ exists extra, ids' = ids ++ extra.
Proof.
  revert rn uoff ids s; induction results as [|r rest IH]; intros rn uoff ids s H;
    cbn [pseudo_results] in H.
  - apply ret_Ok_inv in H as [<- ->]. exists []. rewrite app_nil_r.
    repeat split; auto. apply counters_clamped_refl. exists []; now rewrite app_nil_r.
  - binv H as reg s1 E1. apply load_reg_Ok in E1 as [-> Hr].
    cbn [pseudo_dispatches]. rewrite Hr.
    destruct (Nat.eqb_spec (user_count reg) 0) as [Hu|Hu].
    + apply IH in H as (delta & Ht & Hq & Hf & Hrg & Hc & Hx).
      exists delta. destruct reg as [[p|] uc]; cbn in Hu; subst; cbn; tauto.
    + binv H as w s2 E2. unfold GetRegisterValue in E2. binv E2 as reg' s3 E3.
      apply load_reg_Ok in E3 as [-> Hr']. rewrite Hr in Hr'. injection Hr' as <-.
      apply ret_Ok_inv in E2 as [<- ->].
      binv H as p s4 E4. apply from_option_Ok_inv in E4 as [-> Hp].
      binv H as pr s5 E5. destruct pr as [uoff' ids1].
      apply ProcessUsedBys_Ok_inv in E5 as (d1 & Ht1 & Hq1 & Hr1 & Hc1 & (x1 & ->)).
      apply IH in H as (d2 & Ht2 & Hq2 & Hf2 & Hr2 & Hc2 & (x2 & ->)).
      exists (EvDispatch rn p :: d1 ++ d2). repeat split.
      * rewrite Ht2, Ht1. now rewrite <- !app_assoc.
      * constructor; [reflexivity|]. apply Forall_app; split; [|exact Hq2].
        eapply Forall_impl; [|exact Hq1]. intros e He; now rewrite He.
      * cbn. rewrite filter_app, filter_dispatch_quiet by exact Hq1. cbn.
        rewrite Hf2, Hr1. destruct reg as [w uc]; cbn in Hp, Hu; subst w.
        destruct uc; [lia|reflexivity].
      * congruence.
      * eapply counters_clamped_trans; eassumption.
      * exists (x1 ++ x2); now rewrite app_assoc.
Qed.

Lemma initial_worklist_rev e : initial_worklist e = rev (seq 0 e).
Proof.
  unfold initial_worklist. induction e as [|e IH]; [reflexivity|].
  transitivity (e :: rev (seq 0 e)).
  - cbn [seq map]. f_equal; [lia|].
    rewrite <- seq_shift, map_map, <- IH. apply map_ext. intros a. lia.
  - rewrite seq_S, rev_app_distr. reflexivity.
Qed.

Lemma pop_back_initial_worklist e :
  0 < e -> pop_back (initial_worklist e) = Some (rev (seq 1 (e - 1)), 0).
Proof.
  intros He. unfold pop_back. rewrite initial_worklist_rev, rev_involutive.
  destruct e as [|e]; [lia|]. cbn. now rewrite Nat.sub_0_r.
Qed.

(* ------------------------------------------------------------------ *)
(** ** Populating the results *)

Lemma regs_mono_refl rs : regs_mono rs rs.
Proof. intros i p uc H; exact H. Qed.

Lemma regs_mono_trans r1 r2 r3 : regs_mono r1 r2 -> regs_mono r2 r3 -> regs_mono r1 r3.
Proof. intros H1 H2 i p uc H. auto. Qed.

Lemma GetOrCreateRegisterValue_Ok_inv r s p s' :
  GetOrCreateRegisterValue r s = Ok p s' ->
  regs_mono (regs s) (regs s')
  /\ exists uc, nth_error (regs s') r = Some (mkReg (Some p) uc).
Proof.
  intros H. unfold GetOrCreateRegisterValue, GetOrCreateRegisterValue_race in H.
  binv H as reg s1 E1. apply load_reg_Ok in E1 as [-> Hr].
  destruct reg as [[v|] uc]; cbn [value user_count] in H.
  - apply ret_Ok_inv in H as [-> ->]. split; [apply regs_mono_refl|eauto].
  - binv H as q s2 E2. unfold MakeIndirectAsyncValue in E2.
    binv E2 as st s3 E3. unfold get in E3. injection E3 as <- <-.
    binv E2 as u4 s4 E4. unfold modify in E4. injection E4 as <- <-.
    apply ret_Ok_inv in E2 as [<- ->].
    binv H as u5 s5 E5. unfold AddRef in E5.
    binv E5 as av s6 E6. apply load_av_Ok_inv in E6 as [-> _].
    binv E5 as u7 s7 E7. unfold store_av, modify in E7. injection E7 as <- <-.
    apply emit_Ok_inv in E5 as ->.
    binv H as u8 s8 E8. unfold interleave in E8. apply ret_Ok_inv in E8 as [_ ->].
    binv H as ex s9 E9. unfold compare_exchange_strong_reg in E9.
    binv E9 as reg' s10 E10. apply load_reg_Ok in E10 as [-> Hr'].
    cbn in Hr'. rewrite Hr in Hr'. injection Hr' as <-. cbn [value user_count] in E9.
    binv E9 as u11 s11 E11. unfold modify in E11. injection E11 as <- <-.
    binv E9 as u12 s12 E12. apply emit_Ok_inv in E12 as ->.
    apply ret_Ok_inv in E9 as [<- ->].
    apply ret_Ok_inv in H as [<- ->].
    pose proof (nth_error_Some_lt _ _ _ Hr) as Hlt.
    cbn. split.
    + intros i p uc' Hi. destruct (Nat.eq_dec i r) as [->|Hne]; [congruence|].
      now rewrite nth_error_set_nth_neq by exact Hne.
    + exists uc. rewrite nth_error_set_nth_eq; [reflexivity|]. exact Hlt.
Qed.

Lemma populate_results_Ok_inv rr results s results' s' :
  populate_results rr results s = Ok results' s' ->
  length rr = length results ->
  regs_mono (regs s) (regs s')
  /\ Forall2 (fun r res => exists p uc, res = Some p
                                     /\ nth_error (regs s') r = Some (mkReg (Some p) uc))
             rr results'.
Proof.
  revert results s results' s'; induction rr as [|r rr IH]; intros results s results' s' H Hlen.
  - destruct results; [|discriminate]. cbn in H. apply ret_Ok_inv in H as [<- ->].
    split; [apply regs_mono_refl|constructor].
  - destruct results as [|res rest]; [discriminate|]. cbn [populate_results] in H.
    binv H as u1 s1 E1. apply assert_Ok_inv in E1 as [-> _].
    binv H as p s2 E2. apply GetOrCreateRegisterValue_Ok_inv in E2 as (M2 & uc & Hp).
    binv H as rest' s3 E3. apply IH in E3 as (M3 & F3); [|cbn in Hlen; lia].
    apply ret_Ok_inv in H as [<- ->].
    split; [eapply regs_mono_trans; eassumption|].
    constructor; [|exact F3]. exists p, uc. split; [reflexivity|]. now apply M3.
Qed.

(* ------------------------------------------------------------------ *)
(** ** Counter operations *)

Lemma load_kinfo_Ok_inv k s ki s' :
  load_kinfo k s = Ok ki s' -> s' = s /\ nth_error (kinfos s) k = Some ki.
Proof.
  unfold load_kinfo, bind, get, from_option, ret, fault.
  destruct (nth_error (kinfos s) k); intros H; now inversion H.
Qed.

Lemma fetch_sub_Ok_inv k s v s' :
  fetch_sub k s = Ok v s' ->
  exists ki, nth_error (kinfos s) k = Some ki /\ v = arguments_not_ready ki
    /\ kinfos s' = set_nth k (mkKI (offset ki) (arguments_not_ready ki - 1)) (kinfos s).
Proof.
  intros H. unfold fetch_sub in H. binv H as ki s1 E1. apply load_kinfo_Ok_inv in E1 as [-> Hk].
  binv H as u2 s2 E2. unfold store_not_ready, modify in E2. injection E2 as <- <-.
  binv H as u3 s3 E3. apply emit_Ok_inv in E3 as ->. apply ret_Ok_inv in H as [<- ->].
  exists ki. auto.
Qed.

Lemma SetKernelWithErrorInputReady_Ok_inv k s u s' :
  SetKernelWithErrorInputReady k s = Ok u s' ->
  exists ki, nth_error (kinfos s) k = Some ki
    /\ kinfos s' = if (1 <? arguments_not_ready ki)%Z
                   then set_nth k (mkKI (offset ki) 1) (kinfos s) else kinfos s.
Proof.
  intros H. unfold SetKernelWithErrorInputReady in H. binv H as ki s1 E1.
  apply load_kinfo_Ok_inv in E1 as [-> Hk]. exists ki. split; [exact Hk|].
  destruct (1 <? arguments_not_ready ki)%Z.
  - unfold store_not_ready, modify in H. now injection H as _ <-.
  - now apply ret_Ok_inv in H as [_ ->].
Qed.

(** The counter of [k] over a history: once at most 0 it never observes 1
    again; from a positive value it reaches zero at most once, and exactly
    once when [k] receives at least as many [fetch_sub]s as its value. *)
Lemma run_counter_ops_reached_zero k ops :
  forall s priors s' ki,
    nth_error (kinfos s) k = Some ki ->
    run_counter_ops ops s = Ok priors s' ->
    ((arguments_not_ready ki <= 0)%Z -> num_reached_zero k priors = 0)
    /\ ((1 <= arguments_not_ready ki)%Z ->
        num_reached_zero k priors <= 1
        /\ ((arguments_not_ready ki <= Z.of_nat (num_fetch_subs k ops))%Z ->
            num_reached_zero k priors = 1)).
Proof.
  induction ops as [|op ops IH]; intros s priors s' ki Hk H; cbn [run_counter_ops] in H.
  - apply ret_Ok_inv in H as [<- ->]. cbn. split; [reflexivity|]. intros; split; lia.
  - destruct op as [k'|k'].
    + binv H as prior s1 E1. apply fetch_sub_Ok_inv in E1 as (ki' & Hk' & -> & Hs1).
      binv H as priors' s2 E2. apply ret_Ok_inv in H as [<- ->].
      unfold num_reached_zero, num_fetch_subs in *. cbn [filter].
      destruct (Nat.eqb_spec k' k) as [->|Hne].
      * rewrite Hk in Hk'. injection Hk' as <-.
        assert (Hk1 : nth_error (kinfos s1) k
                      = Some (mkKI (offset ki) (arguments_not_ready ki - 1))).
        { rewrite Hs1. apply nth_error_set_nth_eq. eapply nth_error_Some_lt; eauto. }
        destruct (IH _ _ _ _ Hk1 E2) as [IH0 IH1]. cbn [arguments_not_ready] in IH0, IH1.
        cbn [andb]. destruct (Z.eqb_spec (arguments_not_ready ki) 1) as [E|E]; cbn [length].
        -- rewrite IH0 by lia. split; [lia|]. intros; split; lia.
        -- split; [intros; apply IH0; lia|]. intros Hpos.
           destruct (IH1 ltac:(lia)) as [B1 B2]. split; [exact B1|].
           intros Hn. apply B2. rewrite Nat2Z.inj_succ in Hn. lia.
      * assert (Hk1 : nth_error (kinfos s1) k = Some ki)
          by (rewrite Hs1, nth_error_set_nth_neq by congruence; exact Hk).
        destruct (IH _ _ _ _ Hk1 E2) as [IH0 IH1].
        cbn [andb]. split; auto.
    + binv H as u1 s1 E1. apply SetKernelWithErrorInputReady_Ok_inv in E1 as (ki' & Hk' & Hs1).
      unfold num_reached_zero, num_fetch_subs in *. cbn [filter].
      destruct (Nat.eq_dec k' k) as [->|Hne].
      * rewrite Hk in Hk'. injection Hk' as <-.
        destruct (Z.ltb_spec 1 (arguments_not_ready ki)) as [Hgt|Hle].
        -- assert (Hk1 : nth_error (kinfos s1) k = Some (mkKI (offset ki) 1)).
           { rewrite Hs1. apply nth_error_set_nth_eq. eapply nth_error_Some_lt; eauto. }
           destruct (IH _ _ _ _ Hk1 H) as [_ IH1]. cbn [arguments_not_ready] in IH1.
           destruct (IH1 ltac:(lia)) as [B1 B2].
           split; [lia|]. intros _. split; [exact B1|]. intros Hn. apply B2. lia.
        -- assert (Hk1 : nth_error (kinfos s1) k = Some ki) by (rewrite Hs1; exact Hk).
           exact (IH _ _ _ _ Hk1 H).
      * assert (Hk1 : nth_error (kinfos s1) k = Some ki).
        { rewrite Hs1. destruct (1 <? arguments_not_ready ki')%Z; [|exact Hk].
          rewrite nth_error_set_nth_neq by congruence; exact Hk. }
        exact (IH _ _ _ _ Hk1 H).
Qed.

(** ** Steps of the accelerating thread and of the others *)

Lemma other_step_counters op s u s' :
  other_step op s = Ok u s' ->
  forall k ki', nth_error (kinfos s') k = Some ki' ->
  exists ki, nth_error (kinfos s) k = Some ki
             /\ (arguments_not_ready ki' <= arguments_not_ready ki)%Z.
Proof.
  intros H k ki' Hk'. destruct op as [j|j]; cbn [other_step] in H.
  - binv H as v s1 E1. apply ret_Ok_inv in H as [_ ->].
    apply fetch_sub_Ok_inv in E1 as (kj & Hj & _ & Hs1). rewrite Hs1 in Hk'.
    destruct (Nat.eq_dec k j) as [->|Hne].
    + rewrite nth_error_set_nth_eq in Hk' by (eapply nth_error_Some_lt; eauto).
      injection Hk' as <-. exists kj. cbn. split; [exact Hj|lia].
    + rewrite nth_error_set_nth_neq in Hk' by exact Hne. exists ki'. split; [exact Hk'|lia].
  - apply SetKernelWithErrorInputReady_Ok_inv in H as (kj & Hj & Hs1). rewrite Hs1 in Hk'.
    destruct (Z.ltb_spec 1 (arguments_not_ready kj)) as [Hgt|Hle];
      [|exists ki'; split; [exact Hk'|lia]].
    destruct (Nat.eq_dec k j) as [->|Hne].
    + rewrite nth_error_set_nth_eq in Hk' by (eapply nth_error_Some_lt; eauto).
      injection Hk' as <-. exists kj. cbn. split; [exact Hj|lia].
    + rewrite nth_error_set_nth_neq in Hk' by exact Hne. exists ki'. split; [exact Hk'|lia].
Qed.

(** A step of the accelerating thread writes a counter only by replacing a
    value above 1 with exactly 1. *)
Lemma accel_step_writes spurious pc s pc' s' :
  accel_step spurious pc s = Ok pc' s' ->
  kinfos s' = kinfos s
  \/ exists k ki, nth_error (kinfos s) k = Some ki /\ (1 < arguments_not_ready ki)%Z
                  /\ kinfos s' = set_nth k (mkKI (offset ki) 1) (kinfos s).
Proof.
  intros H. destruct pc as [[|k rest]|k c rest]; cbn [accel_step] in H.
  - apply ret_Ok_inv in H as [_ ->]. now left.
  - binv H as ki s1 E1. apply load_kinfo_Ok_inv in E1 as [-> _].
    apply ret_Ok_inv in H as [_ ->]. now left.
  - destruct (Z.ltb_spec 1 c) as [Hc|Hc]; [|apply ret_Ok_inv in H as [_ ->]; now left].
    binv H as ki s1 E1. apply load_kinfo_Ok_inv in E1 as [-> Hk].
    destruct (Z.eqb_spec (arguments_not_ready ki) c) as [Ec|Ec]; destruct spurious;
      cbn [andb negb] in H; try (apply ret_Ok_inv in H as [_ ->]; now left).
    binv H as u2 s2 E2. unfold store_not_ready, modify in E2. injection E2 as <- <-.
    apply ret_Ok_inv in H as [_ ->]. right. exists k, ki. repeat split; [exact Hk|lia].
Qed.

Lemma accel_invariant_other ids kis kis' pc :
  accel_invariant ids kis pc ->
  (forall k ki', nth_error kis' k = Some ki' ->
     exists ki, nth_error kis k = Some ki
                /\ (arguments_not_ready ki' <= arguments_not_ready ki)%Z) ->
  accel_invariant ids kis' pc.
Proof.
  intros Hinv Hmono. destruct pc as [rest|k c rest]; cbn in *.
  - destruct Hinv as (done & Hids & Hdone). exists done. split; [exact Hids|].
    intros k' ki' Hin Hk'. destruct (Hmono _ _ Hk') as (ki & Hk & Hle).
    specialize (Hdone _ _ Hin Hk). lia.
  - destruct Hinv as (done & Hids & Hdone & Hcur). exists done. split; [exact Hids|].
    split.
    + intros k' ki' Hin Hk'. destruct (Hmono _ _ Hk') as (ki & Hk & Hle).
      specialize (Hdone _ _ Hin Hk). lia.
    + intros ki' Hk'. destruct (Hmono _ _ Hk') as (ki & Hk & Hle).
      specialize (Hcur _ Hk). lia.
Qed.

Lemma accel_invariant_step ids spurious pc s pc' s' :
  accel_invariant ids (kinfos s) pc ->
  accel_step spurious pc s = Ok pc' s' ->
  accel_invariant ids (kinfos s') pc'.
Proof.
  intros Hinv H. destruct pc as [[|k rest]|k c rest]; cbn [accel_step] in H.
  - apply ret_Ok_inv in H as [<- ->]. exact Hinv.
  - binv H as ki s1 E1. apply load_kinfo_Ok_inv in E1 as [-> Hk].
    apply ret_Ok_inv in H as [<- ->].
    destruct Hinv as (done & Hids & Hdone). exists done.
    split; [exact Hids|]. split; [exact Hdone|].
    intros ki' Hk'. rewrite Hk in Hk'. injection Hk' as <-. lia.
  - destruct Hinv as (done & Hids & Hdone & Hcur).
    destruct (Z.ltb_spec 1 c) as [Hc|Hc].
    + binv H as ki s1 E1. apply load_kinfo_Ok_inv in E1 as [-> Hk].
      destruct ((arguments_not_ready ki =? c)%Z && negb spurious)%bool.
      * binv H as u2 s2 E2. unfold store_not_ready, modify in E2. injection E2 as <- <-.
        apply ret_Ok_inv in H as [<- ->]. cbn [kinfos].
        exists (done ++ [k]). split; [now rewrite <- app_assoc|].
        intros k' ki' Hin Hk'. apply in_app_or in Hin.
        unfold with_kinfos in Hk'; cbn [kinfos] in Hk'.
        destruct (Nat.eq_dec k' k) as [->|Hne].
        -- rewrite nth_error_set_nth_eq in Hk' by (eapply nth_error_Some_lt; eauto).
           injection Hk' as <-. cbn. lia.
        -- rewrite nth_error_set_nth_neq in Hk' by exact Hne.
           destruct Hin as [Hin|[<-|[]]]; [exact (Hdone _ _ Hin Hk')|congruence].
      * apply ret_Ok_inv in H as [<- ->]. exists done.
        split; [exact Hids|]. split; [exact Hdone|].
        intros ki' Hk'. rewrite Hk in Hk'. injection Hk' as <-. lia.
    + apply ret_Ok_inv in H as [<- ->]. exists (done ++ [k]).
      split; [now rewrite <- app_assoc|].
      intros k' ki' Hin Hk'. apply in_app_or in Hin.
      destruct Hin as [Hin|[<-|[]]]; [exact (Hdone _ _ Hin Hk')|].
      specialize (Hcur _ Hk'). lia.
Qed.

Lemma run_interleaving_invariant ids sched :
  forall pc s pc' s',
    accel_invariant ids (kinfos s) pc ->
    run_interleaving sched pc s = Ok pc' s' ->
    accel_invariant ids (kinfos s') pc'.
Proof.
  induction sched as [|[spurious|op] sched IH]; intros pc s pc' s' Hinv H;
    cbn [run_interleaving] in H.
  - apply ret_Ok_inv in H as [<- ->]. exact Hinv.
  - binv H as pc1 s1 E1. eapply IH; [|exact H]. eapply accel_invariant_step; eassumption.
  - binv H as u1 s1 E1. eapply IH; [|exact H].
    eapply accel_invariant_other; [exact Hinv|]. eapply other_step_counters; eassumption.
Qed.

(* ------------------------------------------------------------------ *)
(** ** Readiness gates *)

Lemma Gated_app l1 l2 : Gated l1 -> Gated l2 -> Gated (l1 ++ l2).
Proof.
  intros H1 H2. induction H1; cbn; [exact H2|..].
  - apply Gated_pass; assumption.
  - apply Gated_invoke; assumption.
  - apply Gated_error; assumption.
Qed.

Lemma num_fired_app k d1 d2 : num_fired k (d1 ++ d2) = num_fired k d1 + num_fired k d2.
Proof. unfold num_fired. now rewrite filter_app, length_app. Qed.

Lemma filter_gate_silent k d :
  forallb gate_silent d = true -> filter (gate_event k) d = [] /\ num_fired k d = 0.
Proof.
  unfold num_fired. induction d as [|e d IH]; cbn; [auto|].
  intros H. apply andb_prop in H as [He Hd]. destruct (IH Hd) as [-> L].
  destruct e; cbn in He |- *; try discriminate; auto.
Qed.

Lemma gate_pos_kinfos s s' k : kinfos s' = kinfos s -> gate_pos s' k = gate_pos s k.
Proof. intros E. unfold gate_pos. now rewrite E. Qed.

Lemma silent_gates {A} (m : M A) : silent m -> gates m.
Proof.
  intros Hm s a s' H k. destruct (Hm s a s' H) as (K & d & T & F).
  destruct (filter_gate_silent k d F) as [Fe N]. exists d.
  split; [exact T|]. split; [rewrite Fe; constructor|]. rewrite N, (gate_pos_kinfos _ _ _ K). lia.
Qed.

Lemma gates_bind {A B} (m : M A) (f : A -> M B) :
  gates m -> (forall a, gates (f a)) -> gates (bind m f).
Proof.
  intros Hm Hf s b s'' H k. binv H as a s1 E1.
  destruct (Hm s a s1 E1 k) as (d1 & T1 & G1 & N1).
  destruct (Hf a s1 b s'' H k) as (d2 & T2 & G2 & N2).
  exists (d1 ++ d2). split; [rewrite T2, T1; symmetry; apply app_assoc|].
  split; [rewrite filter_app; now apply Gated_app|].
  rewrite num_fired_app. lia.
Qed.

Lemma silent_ret {A} (a : A) : silent (ret a).
Proof.
  intros s b s' H. apply ret_Ok_inv in H as [_ ->]. split; [reflexivity|].
  exists []. now rewrite app_nil_r.
Qed.

Lemma silent_bind {A B} (m : M A) (f : A -> M B) :
  silent m -> (forall a, silent (f a)) -> silent (bind m f).
Proof.
  intros Hm Hf s b s'' H. binv H as a s1 E1.
  destruct (Hm s a s1 E1) as (K1 & d1 & T1 & F1).
  destruct (Hf a s1 b s'' H) as (K2 & d2 & T2 & F2).
  split; [congruence|]. exists (d1 ++ d2). split; [rewrite T2, T1; symmetry; apply app_assoc|].
  rewrite forallb_app, F1, F2. reflexivity.
Qed.

Lemma silent_frame {A} (m : M A) :
  (forall s a s', m s = Ok a s' -> kinfos s' = kinfos s /\ trace s' = trace s) -> silent m.
Proof.
  intros Hm s a s' H. destruct (Hm s a s' H) as [K T]. split; [exact K|].
  exists []. now rewrite app_nil_r.
Qed.

Lemma silent_get : silent get.
Proof. apply silent_frame. intros s a s' H. now injection H as _ <-. Qed.
Lemma silent_fault {A} f : silent (@fault A f).
Proof. intros s a s' H. discriminate. Qed.
Lemma silent_assert a b : silent (assert a b).
Proof. apply silent_frame. intros s u s' H. now apply assert_Ok_inv in H as [-> _]. Qed.
Lemma silent_from_option {A} a (o : option A) : silent (from_option a o).
Proof. apply silent_frame. intros s x s' H. now apply from_option_Ok_inv in H as [-> _]. Qed.
Lemma silent_emit e : gate_silent e = true -> silent (emit e).
Proof.
  intros He s u s' H. apply emit_Ok_inv in H as ->. split; [reflexivity|].
  exists [e]. cbn. now rewrite He.
Qed.
Lemma silent_store_av p v : silent (store_av p v).
Proof. apply silent_frame. intros s u s' H. unfold store_av, modify in H. now injection H as _ <-. Qed.
Lemma silent_refs_ops :
  silent ExecutorAddRef /\ silent ExecutorDropRef /\ silent HandlerAddRef /\ silent HandlerDropRef.
Proof.
  unfold ExecutorAddRef, ExecutorDropRef, HandlerAddRef, HandlerDropRef, modify.
  refine (conj _ (conj _ (conj _ _))); apply silent_frame; intros s u s' H;
    now injection H as _ <-.
Qed.
Lemma silent_MakeIndirectAsyncValue : silent MakeIndirectAsyncValue.
Proof.
  apply silent_frame. intros s p s' H. unfold MakeIndirectAsyncValue, bind, get, modify, ret in H.
  now injection H as _ <-.
Qed.
Lemma silent_set_regs r x : silent (modify (fun s => with_regs (set_nth r x (regs s)) s)).
Proof. apply silent_frame. intros s u s' H. unfold modify in H. now injection H as _ <-. Qed.

Create HintDb silent_db.
#[export] Hint Resolve silent_ret silent_get silent_fault silent_assert silent_from_option
  silent_store_av silent_MakeIndirectAsyncValue silent_set_regs : silent_db.
#[export] Hint Extern 1 (silent (emit _)) => apply silent_emit; reflexivity : silent_db.
#[export] Hint Extern 1 (silent ExecutorAddRef) => apply silent_refs_ops : silent_db.
#[export] Hint Extern 1 (silent ExecutorDropRef) => apply silent_refs_ops : silent_db.
#[export] Hint Extern 1 (silent HandlerAddRef) => apply silent_refs_ops : silent_db.
#[export] Hint Extern 1 (silent HandlerDropRef) => apply silent_refs_ops : silent_db.

Ltac silent_tac :=
  repeat match goal with
  | |- silent (bind _ _) => apply silent_bind; [|intros ?]
  | |- silent (match ?x with _ => _ end) => destruct x
  | |- silent (if ?b then _ else _) => destruct b
  | |- silent _ => solve [eauto with silent_db]
  end.

Lemma silent_load_av p : silent (load_av p).
Proof. unfold load_av; silent_tac. Qed.
Lemma silent_load_reg r : silent (load_reg r).
Proof. unfold load_reg; silent_tac. Qed.
Lemma silent_load_kinfo k : silent (load_kinfo k).
Proof. unfold load_kinfo; silent_tac. Qed.
#[export] Hint Resolve silent_load_av silent_load_reg silent_load_kinfo : silent_db.
Lemma silent_AddRef p n : silent (AddRef p n).
Proof. unfold AddRef; silent_tac. Qed.
Lemma silent_DropRef p n : silent (DropRef p n).
Proof. unfold DropRef; silent_tac. Qed.
#[export] Hint Resolve silent_AddRef silent_DropRef : silent_db.
Lemma silent_compare_exchange_strong_reg r d : silent (compare_exchange_strong_reg r d).
Proof. unfold compare_exchange_strong_reg; silent_tac. Qed.
#[export] Hint Resolve silent_compare_exchange_strong_reg : silent_db.
Lemma silent_GetOrCreateRegisterValue r : silent (GetOrCreateRegisterValue r).
Proof. unfold GetOrCreateRegisterValue, GetOrCreateRegisterValue_race, interleave; silent_tac. Qed.
#[export] Hint Resolve silent_GetOrCreateRegisterValue : silent_db.

Lemma silent_bind_arguments args any : silent (bind_arguments args any).
Proof.
  revert any; induction args as [|a args IH]; intros any; cbn [bind_arguments]; [silent_tac|].
  unfold IsError, av_state. silent_tac.
Qed.
Lemma silent_propagate_error e n : silent (propagate_error e n).
Proof. induction n; cbn [propagate_error]; silent_tac. Qed.
Lemma silent_drop_arguments args : silent (drop_arguments args).
Proof. induction args; cbn [drop_arguments]; silent_tac. Qed.
#[export] Hint Resolve silent_bind_arguments silent_propagate_error silent_drop_arguments
  : silent_db.

Lemma gate_pos_clamped s s' k :
  counters_clamped (kinfos s) (kinfos s') -> gate_pos s' k = gate_pos s k.
Proof.
  intros Hc. unfold gate_pos. destruct (Hc k) as [->|(ki & E & E')]; [reflexivity|].
  rewrite E, E'. unfold clamp; cbn.
  destruct (Z.ltb_spec 1 (arguments_not_ready ki)).
  - destruct (Z.ltb_spec 0 (arguments_not_ready ki)); [reflexivity|lia].
  - reflexivity.
Qed.

Lemma gates_SetKernelsWithErrorInputReady ids : gates (SetKernelsWithErrorInputReady ids).
Proof.
  intros s u s' H k. unfold SetKernelsWithErrorInputReady in H. binv H as u1 s1 E1.
  apply SetKernelsWithErrorInputReady_loop_Ok_inv in E1 as (_ & _ & T1 & _ & _ & Hc).
  apply emit_Ok_inv in H as ->. exists [EvSetKernelsWithErrorInputReady ids].
  split; [cbn; now rewrite T1|]. split; [constructor|].
  cbn [num_fired filter fired_event length].
  pose proof (gate_pos_clamped s s1 k Hc) as P. unfold gate_pos in P |- *. cbn [kinfos with_trace].
  lia.
Qed.

Create HintDb gates_db.
#[export] Hint Resolve gates_SetKernelsWithErrorInputReady : gates_db.
#[export] Hint Extern 2 (gates _) => apply silent_gates; solve [eauto with silent_db] : gates_db.

Ltac gates_tac :=
  repeat match goal with
  | |- gates (bind _ _) => apply gates_bind; [|intros ?]
  | |- gates (match ?x with _ => _ end) => destruct x
  | |- gates (if ?b then _ else _) => destruct b
  | |- gates _ => solve [eauto with gates_db]
  end.

Section Gating.
Variable kernels_ : list (option BEFKernel).
Variable kernel_impls : list KernelImplementation.
Variable cancel_async_value : option ptr.
Variable go : Task -> M unit.
Hypothesis go_gates : forall t, gates (go t).
#[local] Hint Resolve go_gates : gates_db.

Lemma gates_AndThen p cb : gates (AndThen go p cb).
Proof. unfold AndThen, run_callback; gates_tac. Qed.

Lemma gates_run_callbacks cbs : gates (run_callbacks go cbs).
Proof.
  induction cbs as [|cb cbs IH]; cbn [run_callbacks]; [gates_tac|].
  apply gates_bind; [unfold run_callback; gates_tac|intros; exact IH].
Qed.
#[local] Hint Resolve gates_AndThen gates_run_callbacks : gates_db.

Lemma gates_SetRegisterValue r v : gates (SetRegisterValue go r v).
Proof. unfold SetRegisterValue, ForwardTo; gates_tac. Qed.

Lemma gates_resolve_indirect i : gates (resolve_indirect go i).
Proof. unfold resolve_indirect; gates_tac. Qed.

Lemma gates_ProcessUsedBys kernel rn v off ids : gates (ProcessUsedBys go kernel rn v off ids).
Proof. unfold ProcessUsedBys, MaybeAddRefForResult, IsAvailable, av_state; gates_tac. Qed.
#[local] Hint Resolve gates_SetRegisterValue gates_resolve_indirect gates_ProcessUsedBys
  : gates_db.

Lemma gates_publish_results kernel results rn frs off ids :
  gates (publish_results go kernel results rn frs off ids).
Proof.
  revert rn off ids; induction results as [|r rest IH]; intros rn off ids;
    cbn [publish_results]; [gates_tac|].
  apply gates_bind; [|intros [off' ids']; apply IH].
  unfold publish_result, IsUnresolvedIndirect, MaybeAddRefForResult, IsAvailable, av_state.
  gates_tac.
Qed.

End Gating.

Lemma fetch_sub_Ok_state k s v s' :
  fetch_sub k s = Ok v s' ->
  exists ki, nth_error (kinfos s) k = Some ki /\ v = arguments_not_ready ki
    /\ s' = with_trace (trace s ++ [EvFetchSub k v])
              (with_kinfos (set_nth k (mkKI (offset ki) (arguments_not_ready ki - 1))
                              (kinfos s)) s).
Proof.
  intros H. unfold fetch_sub in H. binv H as ki s1 E1. apply load_kinfo_Ok_inv in E1 as [-> Hk].
  binv H as u2 s2 E2. unfold store_not_ready, modify in E2. injection E2 as <- <-.
  binv H as u3 s3 E3. apply emit_Ok_inv in E3 as ->. apply ret_Ok_inv in H as [<- ->].
  exists ki. auto.
Qed.

Lemma cf_silent_bind {A B} k (m : M A) (f : A -> M B) :
  silent m -> (forall a, completes_fire k (f a)) -> completes_fire k (bind m f).
Proof.
  intros Hm Hf s b s'' H Hz k'. binv H as a s1 E1.
  destruct (Hm s a s1 E1) as (K1 & d1 & T1 & F1).
  destruct (filter_gate_silent k' d1 F1) as [Fe1 N1].
  assert (P1 : forall j, gate_pos s1 j = gate_pos s j) by (intros; now apply gate_pos_kinfos).
  destruct (Hf a s1 b s'' H ltac:(now rewrite P1) k') as (d2 & T2 & G2 & N2).
  exists (d1 ++ d2). split; [rewrite T2, T1; symmetry; apply app_assoc|].
  rewrite filter_app, Fe1, num_fired_app, N1, <- P1. split; [exact G2|exact N2].
Qed.

Lemma cf_bind_from_option {A B} k a (o : option A) (f : A -> M B) :
  (forall x, o = Some x -> completes_fire k (f x)) -> completes_fire k (bind (from_option a o) f).
Proof.
  intros Hf s b s' H. binv H as x s1 E1. apply from_option_Ok_inv in E1 as [-> Ho].
  exact (Hf x Ho s b s' H).
Qed.

Lemma cf_bind_gates {A B} k (m : M A) (f : A -> M B) :
  completes_fire k m -> (forall a, gates (f a)) -> completes_fire k (bind m f).
Proof.
  intros Hm Hf s b s'' H Hz k'. binv H as a s1 E1.
  destruct (Hm s a s1 E1 Hz k') as (d1 & T1 & G1 & N1).
  destruct (Hf a s1 b s'' H k') as (d2 & T2 & G2 & N2).
  exists (d1 ++ d2). split; [rewrite T2, T1; symmetry; apply app_assoc|].
  rewrite filter_app, num_fired_app. split; [|lia].
  destruct (Nat.eqb k' k).
  - exact (Gated_app (EvFetchSub k 1 :: filter (gate_event k') d1) _ G1 G2).
  - exact (Gated_app _ _ G1 G2).
Qed.

Lemma cf_body {B} k b (q : M B) :
  (b = EvInvoke k \/ exists e, b = EvPropagateError k e) ->
  gates q -> completes_fire k (emit b ;; q).
Proof.
  intros Hb Hq s x s' H Hz k'. binv H as u s1 E1. apply emit_Ok_inv in E1 as ->.
  destruct (Hq _ x s' H k') as (d2 & T2 & G2 & N2).
  exists (b :: d2). split; [rewrite T2; cbn; now rewrite <- app_assoc|].
  rewrite (gate_pos_kinfos s (with_trace _ s) k' eq_refl) in N2.
  destruct (Nat.eqb_spec k' k) as [->|Hne].
  - assert (Hg : gate_event k b = true /\ fired_event k b = true)
      by (destruct Hb as [->|(e & ->)]; cbn; now rewrite Nat.eqb_refl).
    unfold num_fired in *. cbn [filter]. rewrite (proj1 Hg), (proj2 Hg). cbn [length].
    rewrite Hz in N2. split; [|lia].
    destruct Hb as [->|(e & ->)]; [apply Gated_invoke|apply Gated_error]; exact G2.
  - assert (Hg : gate_event k' b = false /\ fired_event k' b = false).
    { destruct Hb as [->|(e & ->)]; cbn; destruct (Nat.eqb_spec k k'); auto; congruence. }
    unfold num_fired in *. cbn [filter]. rewrite (proj1 Hg), (proj2 Hg). split; [exact G2|lia].
Qed.

Section GatingRun.
Variable kernels_ : list (option BEFKernel).
Variable kernel_impls : list KernelImplementation.
Variable cancel_async_value : option ptr.
Variable go : Task -> M unit.
Hypothesis go_gates : forall t, gates (go t).
Hypothesis impls_gates : forall fn, In fn kernel_impls -> forall frame, gates (fn frame).

Lemma completes_fire_kernel k ki ids :
  completes_fire k (fire_kernel kernels_ kernel_impls cancel_async_value go k ki ids).
Proof.
  unfold fire_kernel, decode_kernel.
  apply cf_silent_bind; [silent_tac|intros _].
  apply cf_bind_from_option; intros kernel _.
  apply cf_bind_from_option; intros fn Hfn. apply nth_error_In in Hfn.
  apply cf_silent_bind; [silent_tac|intros [args any]].
  apply cf_bind_gates.
  2: { intros frs. apply gates_bind; [apply silent_gates; silent_tac|intros _].
       apply gates_publish_results; exact go_gates. }
  destruct any as [err|]; [destruct (negb _)|].
  - apply cf_body; [now left|exact (impls_gates fn Hfn _)].
  - apply cf_body; [right; now eexists|apply silent_gates; silent_tac].
  - apply cf_body; [now left|exact (impls_gates fn Hfn _)].
Qed.

Lemma gates_process_kernel k ids :
  gates (process_kernel kernels_ kernel_impls cancel_async_value go k ids).
Proof.
  intros s r s' H k'. unfold process_kernel in H. binv H as prior s1 E1.
  apply fetch_sub_Ok_state in E1 as (ki & Hk & -> & ->).
  pose proof (nth_error_Some_lt _ _ _ Hk) as Hlt.
  set (s1 := with_trace _ _) in H.
  assert (P1 : forall j, j <> k -> gate_pos s1 j = gate_pos s j).
  { intros j Hj. unfold gate_pos; subst s1; cbn. now rewrite nth_error_set_nth_neq. }
  assert (P1k : gate_pos s1 k
                = if (0 <? arguments_not_ready ki - 1)%Z then 1 else 0).
  { unfold gate_pos; subst s1; cbn. now rewrite nth_error_set_nth_eq. }
  assert (Pk : gate_pos s k = if (0 <? arguments_not_ready ki)%Z then 1 else 0).
  { unfold gate_pos. now rewrite Hk. }
  destruct (Z.eqb_spec (arguments_not_ready ki) 1) as [H1|H1]; cbn [negb] in H.
  - binv H as ki' s2 E2. apply load_kinfo_Ok_inv in E2 as [-> _].
    assert (Hz : gate_pos s1 k = 0) by (rewrite P1k, H1; reflexivity).
    destruct (completes_fire_kernel k ki' ids s1 r s' H Hz k') as (d & T & G & N).
    exists (EvFetchSub k 1 :: d). split; [rewrite T; subst s1; cbn; rewrite H1;
                                           now rewrite <- app_assoc|].
    unfold num_fired in *. cbn [filter gate_event fired_event].
    destruct (Nat.eqb_spec k k') as [->|Hne].
    + rewrite Nat.eqb_refl in G, N. split; [exact G|]. rewrite Pk, H1. cbn. lia.
    + rewrite (proj2 (Nat.eqb_neq k' k) (not_eq_sym Hne)) in G, N.
      rewrite (P1 k' (not_eq_sym Hne)) in N. split; [exact G|lia].
  - apply ret_Ok_inv in H as [_ ->].
    exists [EvFetchSub k (arguments_not_ready ki)]. split; [subst s1; reflexivity|].
    unfold num_fired. cbn [filter gate_event fired_event length].
    destruct (Nat.eqb_spec k k') as [->|Hne].
    + split; [apply Gated_pass; [exact H1|constructor]|].
      rewrite P1k, Pk. destruct (Z.ltb_spec 0 (arguments_not_ready ki - 1));
        destruct (Z.ltb_spec 0 (arguments_not_ready ki)); lia.
    + split; [constructor|]. rewrite (P1 k' (not_eq_sym Hne)). lia.
Qed.

End GatingRun.

Lemma gates_run kernels_ kernel_impls cancel :
  (forall fn, In fn kernel_impls -> forall frame, gates (fn frame)) ->
  forall fuel t, gates (run kernels_ kernel_impls cancel fuel t).
Proof.
  intros Himpls fuel. induction fuel as [|fuel IH]; intros t; cbn [run]; [gates_tac|].
  destruct t as [ids|i].
  - destruct (pop_back ids) as [[rest k]|]; [|gates_tac].
    apply gates_bind; [apply gates_process_kernel; auto|intros; apply IH].
  - apply gates_resolve_indirect; exact IH.
Qed.

(* ================================================================== *)
(** * Reference accounting *)

(** The shape of a kernel info the accounting depends on: the offset of its
    record and whether its counter is positive. *)
Definition kshape (ki : KernelInfo) : nat * bool :=
  (offset ki, (0 <? arguments_not_ready ki)%Z).

Definition kshape_eq (kis kis' : list KernelInfo) : Prop :=
  forall k, option_map kshape (nth_error kis' k) = option_map kshape (nth_error kis k).

Lemma kshape_eq_refl kis : kshape_eq kis kis.
Proof. intros k; reflexivity. Qed.

Lemma kshape_eq_length kis kis' : kshape_eq kis kis' -> length kis' = length kis.
Proof.
  intros H.
  assert (E : forall k, nth_error kis' k = None <-> nth_error kis k = None).
  { intros k. specialize (H k). destruct (nth_error kis' k), (nth_error kis k);
      cbn in H; split; congruence. }
  destruct (Nat.lt_trichotomy (length kis') (length kis)) as [Hl|[Hl|Hl]]; [|exact Hl|].
  - assert (N : nth_error kis' (length kis') = None) by (apply nth_error_None; lia).
    apply E, nth_error_None in N. lia.
  - assert (N : nth_error kis (length kis) = None) by (apply nth_error_None; lia).
    apply E, nth_error_None in N. lia.
Qed.

Lemma counters_clamped_kshape kis kis' : counters_clamped kis kis' -> kshape_eq kis kis'.
Proof.
  intros H k. destruct (H k) as [->|(ki & E & E')]; [reflexivity|].
  rewrite E, E'. cbn. unfold kshape, clamp; cbn. f_equal. f_equal.
  destruct (Z.ltb_spec 1 (arguments_not_ready ki)); [|reflexivity].
  destruct (Z.ltb_spec 0 (arguments_not_ready ki)); [reflexivity|lia].
Qed.

Lemma av_owes_range av : (0 <= av_owes av <= 1)%Z.
Proof. unfold av_owes. destruct (_ && _); lia. Qed.

Lemma owes_forward_nonneg s p : (0 <= owes_forward s p)%Z.
Proof. unfold owes_forward. destruct (nth_error (heap s) p); [apply av_owes_range|lia]. Qed.

(** *** Register obligations *)

Lemma reg_oblig_ext f g rs i p :
  (forall r, f r = g r) -> reg_oblig f rs i p = reg_oblig g rs i p.
Proof.
  intros E. revert i; induction rs as [|reg rs IH]; intros i; cbn; [reflexivity|].
  rewrite IH, E. reflexivity.
Qed.

Lemma reg_oblig_add f g rs i p :
  reg_oblig (fun r => f r + g r) rs i p = reg_oblig f rs i p + reg_oblig g rs i p.
Proof.
  revert i; induction rs as [|reg rs IH]; intros i; cbn; [reflexivity|].
  rewrite IH. destruct (value reg) as [q|]; [destruct (q =? p)|]; lia.
Qed.

Lemma reg_oblig_mono f g rs i p :
  (forall r, f r <= g r) -> reg_oblig f rs i p <= reg_oblig g rs i p.
Proof.
  intros E. revert i; induction rs as [|reg rs IH]; intros i; cbn; [lia|].
  specialize (IH (S i)). destruct (value reg) as [q|]; [destruct (q =? p)|]; try lia.
  specialize (E i). lia.
Qed.

(** Writing a value into an unset register adds that register's
    obligation to the value. *)
Lemma reg_oblig_set pend rs r reg v uc i p :
  nth_error rs r = Some reg -> value reg = None ->
  reg_oblig pend (set_nth r (mkReg (Some v) uc) rs) i p
  = reg_oblig pend rs i p + (if v =? p then pend (i + r) else 0).
Proof.
  revert r i; induction rs as [|reg' rs IH]; intros [|r] i Hr Hv; cbn in Hr; try discriminate.
  - injection Hr as ->. cbn. rewrite Hv, Nat.add_0_r. destruct (v =? p); lia.
  - cbn [set_nth reg_oblig]. rewrite (IH r (S i) Hr Hv).
    replace (S i + r) with (i + S r) by lia. lia.
Qed.

Lemma reg_oblig_single a rs i p :
  reg_oblig (fun r => if Nat.eq_dec a r then 1 else 0) rs i p
  = if i <=? a then match nth_error rs (a - i) with
                    | Some reg => match value reg with
                                  | Some q => if q =? p then 1 else 0
                                  | None => 0
                                  end
                    | None => 0
                    end
    else 0.
Proof.
  revert i; induction rs as [|reg rs IH]; intros i; cbn [reg_oblig].
  - destruct (i <=? a); [now destruct (a - i)|reflexivity].
  - rewrite IH. destruct (Nat.eq_dec a i) as [->|Hne].
    + rewrite Nat.leb_refl, Nat.sub_diag. cbn [nth_error].
      replace (S i <=? i) with false by (symmetry; apply Nat.leb_gt; lia).
      destruct (value reg) as [q|]; [destruct (q =? p)|]; lia.
    + destruct (Nat.leb_spec (S i) a) as [Hle|Hgt].
      * replace (i <=? a) with true by (symmetry; apply Nat.leb_le; lia).
        replace (a - i) with (S (a - S i)) by lia. cbn.
        destruct (value reg) as [q|]; [destruct (q =? p)|]; lia.
      * replace (i <=? a) with false by (symmetry; apply Nat.leb_gt; lia).
        destruct (value reg) as [q|]; [destruct (q =? p)|]; lia.
Qed.

(** The obligations of [rr]'s uses towards [p] are the slots of [os] that
    hold [p], when register [rr[j]] holds [os[j]]. *)
Lemma reg_oblig_count rs rr os p :
  Forall2 (fun r o => exists v uc, o = Some v /\ nth_error rs r = Some (mkReg (Some v) uc)) rr os ->
  reg_oblig (fun r => count_occ Nat.eq_dec rr r) rs 0 p = count_some os p.
Proof.
  intros H. induction H as [|r o rr os (v & uc & -> & Hr) _ IH].
  - cbn. clear. assert (Z0 : forall i, reg_oblig (fun _ => 0) rs i p = 0); [|apply Z0].
    induction rs as [|reg rs IH]; intros i; cbn; [reflexivity|].
    rewrite IH. destruct (value reg) as [q|]; [destruct (q =? p)|]; reflexivity.
  - rewrite (reg_oblig_ext _ (fun x => (if Nat.eq_dec r x then 1 else 0) + count_occ Nat.eq_dec rr x)).
    2: { intros x. cbn. destruct (Nat.eq_dec r x); lia. }
    pose proof (reg_oblig_add (fun x => if Nat.eq_dec r x then 1 else 0)
                  (fun x => count_occ Nat.eq_dec rr x) rs 0 p) as A. cbv beta in A.
    rewrite A, IH, reg_oblig_single, Nat.sub_0_r, Hr. cbn.
    unfold count_some. cbn. destruct (v =? p); reflexivity.
Qed.

Lemma count_some_map vs p : count_some (map Some vs) p = count_occ Nat.eq_dec vs p.
Proof.
  induction vs as [|v vs IH]; [reflexivity|]. unfold count_some in *; cbn.
  destruct (Nat.eqb_spec v p), (Nat.eq_dec v p); cbn; congruence.
Qed.

Lemma count_some_skipn frs rn p :
  count_some (skipn rn frs) p = count_some [nth rn frs None] p + count_some (skipn (S rn) frs) p.
Proof.
  revert rn; induction frs as [|o frs IH]; intros [|rn]; cbn; try reflexivity.
  - unfold count_some. cbn. destruct o as [q|]; [destruct (q =? p)|]; reflexivity.
  - apply IH.
Qed.

(** *** Pending uses *)

Section AccountingLemmas.
Variable kernels_ : list (option BEFKernel).
Variable result_regs : list nat.


Lemma kernel_args_in_kshape kis kis' k :
  kshape_eq kis kis' -> kernel_args_in kernels_ kis' k = kernel_args_in kernels_ kis k.
Proof.
  intros H. specialize (H k). unfold kernel_args_in.
  destruct (nth_error kis' k) as [ki'|], (nth_error kis k) as [ki|]; cbn in H; try discriminate.
  - injection H as Ho _. now rewrite Ho.
  - reflexivity.
Qed.

Lemma gate_pos_kshape s s' k :
  kshape_eq (kinfos s) (kinfos s') -> gate_pos s' k = gate_pos s k.
Proof.
  intros H. specialize (H k). unfold gate_pos.
  destruct (nth_error (kinfos s') k) as [ki'|], (nth_error (kinfos s) k) as [ki|];
    cbn in H; try discriminate.
  - injection H as _ Hp. now rewrite Hp.
  - reflexivity.
Qed.

Lemma pending_kshape s s' r :
  kshape_eq (kinfos s) (kinfos s') -> pending_uses kernels_ result_regs s' r = pending_uses kernels_ result_regs s r.
Proof.
  intros H. unfold pending_uses. rewrite (kshape_eq_length _ _ H). f_equal. f_equal.
  apply map_ext. intros k. now rewrite (gate_pos_kshape s s' k H), (kernel_args_in_kshape _ _ k H).
Qed.

(** The obligations only depend on the registers and the counter shapes. *)
Lemma slack_same_oblig X s s' p :
  regs s' = regs s -> kshape_eq (kinfos s) (kinfos s') ->
  slack kernels_ result_regs X s' p = (slack kernels_ result_regs X s p + (refcount_of s' p - refcount_of s p)
                - (owes_forward s' p - owes_forward s p))%Z.
Proof.
  intros R K. unfold slack. rewrite R.
  rewrite (reg_oblig_ext (fun r => pending_uses kernels_ result_regs s' r + _) (fun r => pending_uses kernels_ result_regs s r + count_occ Nat.eq_dec X r)).
  - lia.
  - intros r. now rewrite (pending_kshape s s' r K).
Qed.

Lemma bounded_same X s s' :
  regs s' = regs s -> kshape_eq (kinfos s) (kinfos s') -> uses_bounded kernels_ result_regs X s -> uses_bounded kernels_ result_regs X s'.
Proof.
  intros R K H r reg Hr. rewrite R in Hr. rewrite (pending_kshape s s' r K). exact (H r reg Hr).
Qed.

Lemma bounded_set_reg X s r reg v :
  nth_error (regs s) r = Some reg -> uses_bounded kernels_ result_regs X s ->
  uses_bounded kernels_ result_regs X (with_regs (set_nth r (mkReg v (user_count reg)) (regs s)) s).
Proof.
  intros Hr H r' reg' Hr'. cbn in Hr'. unfold pending_uses, gate_pos in *; cbn [kinfos with_regs] in *.
  destruct (Nat.eq_dec r' r) as [->|Hne].
  - rewrite nth_error_set_nth_eq in Hr' by (eapply nth_error_Some_lt; eassumption).
    injection Hr' as <-. cbn. exact (H r reg Hr).
  - rewrite nth_error_set_nth_neq in Hr' by exact Hne. exact (H r' reg' Hr').
Qed.

(** Writing [v] into the unset register [r]. *)
Lemma slack_set_reg X s r reg v p :
  nth_error (regs s) r = Some reg -> value reg = None ->
  slack kernels_ result_regs X (with_regs (set_nth r (mkReg (Some v) (user_count reg)) (regs s)) s) p
  = (slack kernels_ result_regs X s p - if Nat.eqb v p then Z.of_nat (pending_uses kernels_ result_regs s r + count_occ Nat.eq_dec X r) else 0)%Z.
Proof.
  intros Hr Hv. unfold slack at 1. cbn [regs with_regs].
  rewrite (reg_oblig_set _ _ r reg v (user_count reg) 0 p Hr Hv). cbn [Nat.add].
  unfold slack, refcount_of, owes_forward, pending_uses, gate_pos; cbn [heap kinfos with_regs].
  destruct (v =? p); lia.
Qed.

Definition keeps {A} := @keeps_slack kernels_ result_regs A.

Lemma keeps_bind {A B} X (m : M A) (f : A -> M B) :
  keeps X m -> (forall a, keeps X (f a)) -> keeps X (bind m f).
Proof.
  intros Hm Hf s b s'' H HB. binv H as a s1 E1.
  destruct (Hm s a s1 E1 HB) as [B1 S1]. destruct (Hf a s1 b s'' H B1) as [B2 S2].
  split; [exact B2|]. intros p. specialize (S1 p). specialize (S2 p). lia.
Qed.

(** A step that changes neither the references nor the obligations. *)
Lemma keeps_same {A} X (m : M A) :
  (forall s a s', m s = Ok a s' ->
     (forall p, refcount_of s' p = refcount_of s p) /\ (forall p, owes_forward s' p = owes_forward s p)
     /\ regs s' = regs s /\ kshape_eq (kinfos s) (kinfos s')) ->
  keeps X m.
Proof.
  intros Hm s a s' H HB. destruct (Hm s a s' H) as (Rc & Ow & R & K).
  split; [exact (bounded_same X s s' R K HB)|]. intros p.
  rewrite (slack_same_oblig X s s' p R K), Rc, Ow. lia.
Qed.

Lemma keeps_frame {A} X (m : M A) :
  (forall s a s', m s = Ok a s' -> heap s' = heap s /\ regs s' = regs s /\ kinfos s' = kinfos s) ->
  keeps X m.
Proof.
  intros Hm. apply keeps_same. intros s a s' H. destruct (Hm s a s' H) as (Hh & R & K).
  unfold refcount_of, owes_forward. rewrite Hh, K.
  split; [reflexivity|split; [reflexivity|split; [exact R|apply kshape_eq_refl]]].
Qed.

Lemma keeps_ret {A} X (a : A) : keeps X (ret a).
Proof. apply keeps_frame. intros s b s' H. now apply ret_Ok_inv in H as [_ ->]. Qed.
Lemma keeps_get X : keeps X get.
Proof. apply keeps_frame. intros s b s' H. now injection H as _ <-. Qed.
Lemma keeps_fault {A} X f : keeps X (@fault A f).
Proof. intros s a s' H. discriminate. Qed.
Lemma keeps_assert X a b : keeps X (assert a b).
Proof. apply keeps_frame. intros s u s' H. now apply assert_Ok_inv in H as [-> _]. Qed.
Lemma keeps_from_option {A} X a (o : option A) : keeps X (from_option a o).
Proof. apply keeps_frame. intros s x s' H. now apply from_option_Ok_inv in H as [-> _]. Qed.
Lemma keeps_emit X e : keeps X (emit e).
Proof. apply keeps_frame. intros s u s' H. now apply emit_Ok_inv in H as ->. Qed.
Lemma keeps_refs_ops X :
  keeps X ExecutorAddRef /\ keeps X ExecutorDropRef /\ keeps X HandlerAddRef
  /\ keeps X HandlerDropRef.
Proof.
  unfold ExecutorAddRef, ExecutorDropRef, HandlerAddRef, HandlerDropRef, modify.
  refine (conj _ (conj _ (conj _ _))); apply keeps_frame; intros s u s' H;
    now injection H as _ <-.
Qed.
Lemma keeps_load_av X p : keeps X (load_av p).
Proof. apply keeps_frame. intros s v s' H. now apply load_av_Ok_inv in H as [-> _]. Qed.
Lemma keeps_load_reg X r : keeps X (load_reg r).
Proof. apply keeps_frame. intros s v s' H. now apply load_reg_Ok in H as [-> _]. Qed.
Lemma keeps_load_kinfo X k : keeps X (load_kinfo k).
Proof. apply keeps_frame. intros s v s' H. now apply load_kinfo_Ok_inv in H as [-> _]. Qed.

End AccountingLemmas.

(** *** Heap steps *)

Lemma store_acct s p v w q :
  nth_error (heap s) p = Some v ->
  refcount_of (with_heap (set_nth p w (heap s)) s) q
  = (if Nat.eqb q p then refcount w else refcount_of s q)
  /\ owes_forward (with_heap (set_nth p w (heap s)) s) q
     = (if Nat.eqb q p then av_owes w else owes_forward s q).
Proof.
  intros Hv. unfold refcount_of, owes_forward; cbn [heap with_heap].
  destruct (Nat.eqb_spec q p) as [->|Hne].
  - rewrite nth_error_set_nth_eq by (eapply nth_error_Some_lt; eassumption). auto.
  - rewrite nth_error_set_nth_neq by exact Hne. auto.
Qed.

Lemma AddRef_acct p n s u s' :
  AddRef p n s = Ok u s' ->
  regs s' = regs s /\ kinfos s' = kinfos s
  /\ forall q, refcount_of s' q = (refcount_of s q + if Nat.eqb q p then n else 0)%Z
               /\ owes_forward s' q = owes_forward s q.
Proof.
  intros H. unfold AddRef in H. binv H as v s1 E1. apply load_av_Ok_inv in E1 as [-> Hv].
  binv H as u2 s2 E2. unfold store_av, modify in E2. injection E2 as <- <-.
  apply emit_Ok_inv in H as ->. split; [reflexivity|]. split; [reflexivity|]. intros q.
  destruct (store_acct s p v (set_refcount (refcount v + n) v) q Hv) as [Rc Ow].
  change (refcount_of (with_heap (set_nth p (set_refcount (refcount v + n) v) (heap s)) s) q
          = (refcount_of s q + if Nat.eqb q p then n else 0)%Z
          /\ owes_forward (with_heap (set_nth p (set_refcount (refcount v + n) v) (heap s)) s) q
             = owes_forward s q).
  rewrite Rc, Ow. destruct (Nat.eqb_spec q p) as [Hq|_]; [|split; [lia|reflexivity]].
  rewrite Hq. unfold refcount_of, owes_forward. rewrite Hv. cbn. split; [lia|reflexivity].
Qed.

Lemma DropRef_acct p n s u s' :
  DropRef p n s = Ok u s' ->
  regs s' = regs s /\ kinfos s' = kinfos s
  /\ forall q, refcount_of s' q = (refcount_of s q - if Nat.eqb q p then n else 0)%Z
               /\ owes_forward s' q = owes_forward s q.
Proof.
  intros H. unfold DropRef in H. binv H as v s1 E1. apply load_av_Ok_inv in E1 as [-> Hv].
  binv H as u2 s2 E2. unfold store_av, modify in E2. injection E2 as <- <-.
  apply emit_Ok_inv in H as ->. split; [reflexivity|]. split; [reflexivity|]. intros q.
  destruct (store_acct s p v (set_refcount (refcount v - n) v) q Hv) as [Rc Ow].
  change (refcount_of (with_heap (set_nth p (set_refcount (refcount v - n) v) (heap s)) s) q
          = (refcount_of s q - if Nat.eqb q p then n else 0)%Z
          /\ owes_forward (with_heap (set_nth p (set_refcount (refcount v - n) v) (heap s)) s) q
             = owes_forward s q).
  rewrite Rc, Ow. destruct (Nat.eqb_spec q p) as [Hq|_]; [|split; [lia|reflexivity]].
  rewrite Hq. unfold refcount_of, owes_forward. rewrite Hv. cbn. split; [lia|reflexivity].
Qed.

(** A fresh placeholder holds exactly the reference its forwarding owes. *)
Lemma MakeIndirect_acct s q :
  let s' := with_heap (heap s ++ [mkAV 1 Unavailable true None []]) s in
  (refcount_of s' q - owes_forward s' q = refcount_of s q - owes_forward s q)%Z.
Proof.
  cbn. unfold refcount_of, owes_forward; cbn [heap with_heap].
  destruct (Nat.lt_trichotomy q (length (heap s))) as [Hl|[->|Hl]].
  - now rewrite nth_error_app1 by exact Hl.
  - rewrite nth_error_app_length. replace (nth_error (heap s) (length (heap s))) with (@None AsyncValue)
      by (symmetry; apply nth_error_None; lia). reflexivity.
  - rewrite nth_error_app2 by lia.
    replace (nth_error (heap s) q) with (@None AsyncValue) by (symmetry; apply nth_error_None; lia).
    replace (q - length (heap s)) with (S (q - length (heap s) - 1)) by lia.
    cbn. now destruct (q - length (heap s) - 1).
Qed.

Lemma propagate_error_acct err n s frs s' :
  propagate_error err n s = Ok frs s' ->
  regs s' = regs s /\ kinfos s' = kinfos s
  /\ forall p, (refcount_of s p - owes_forward s p + Z.of_nat (count_some frs p)
                <= refcount_of s' p - owes_forward s' p)%Z.
Proof.
  revert s frs s'; induction n as [|n IH]; intros s frs s' H; cbn [propagate_error] in H.
  - apply ret_Ok_inv in H as [<- ->]. split; [reflexivity|]. split; [reflexivity|].
    intros p. cbn. lia.
  - binv H as u1 s1 E1. apply AddRef_acct in E1 as (R1 & K1 & A1).
    binv H as rest s2 E2. apply IH in E2 as (R2 & K2 & A2).
    apply ret_Ok_inv in H as [<- ->]. split; [congruence|]. split; [congruence|].
    intros p. specialize (A2 p). destruct (A1 p) as [Rc Ow]. rewrite Rc, Ow in A2.
    unfold count_some in *. cbn [filter length].
    destruct (Nat.eqb_spec err p) as [Hp|Hne].
    + subst p. rewrite Nat.eqb_refl in A2. cbn [length]. lia.
    + replace (Nat.eqb p err) with false in A2 by (symmetry; apply Nat.eqb_neq; congruence). lia.
Qed.

Lemma drop_arguments_acct args s u s' :
  drop_arguments args s = Ok u s' ->
  regs s' = regs s /\ kinfos s' = kinfos s
  /\ forall q, refcount_of s' q = (refcount_of s q - Z.of_nat (count_occ Nat.eq_dec args q))%Z
               /\ owes_forward s' q = owes_forward s q.
Proof.
  revert s s'; induction args as [|a args IH]; intros s s' H; cbn [drop_arguments] in H.
  - apply ret_Ok_inv in H as [_ ->]. split; [reflexivity|]. split; [reflexivity|].
    intros q. cbn. split; [lia|reflexivity].
  - binv H as u1 s1 E1. apply DropRef_acct in E1 as (R1 & K1 & A1).
    apply IH in H as (R2 & K2 & A2). split; [congruence|]. split; [congruence|].
    intros q. destruct (A1 q) as [Rc1 Ow1]. destruct (A2 q) as [Rc2 Ow2].
    rewrite Rc2, Ow2, Rc1, Ow1. split; [|reflexivity]. cbn [count_occ].
    destruct (Nat.eq_dec a q) as [Ha|Ha].
    + rewrite <- Ha, Nat.eqb_refl. lia.
    + replace (Nat.eqb q a) with false by (symmetry; apply Nat.eqb_neq; congruence). lia.
Qed.

Section AccountingSteps.
Variable kernels_ : list (option BEFKernel).
Variable result_regs : list nat.

(** A step after which the references, less what forwarding owes, only grew. *)
Lemma grow_step X s s' :
  regs s' = regs s -> kshape_eq (kinfos s) (kinfos s') ->
  (forall q, refcount_of s q - owes_forward s q <= refcount_of s' q - owes_forward s' q)%Z ->
  uses_bounded kernels_ result_regs X s ->
  uses_bounded kernels_ result_regs X s'
  /\ forall p, (slack kernels_ result_regs X s p <= slack kernels_ result_regs X s' p)%Z.
Proof.
  intros R K G B. split; [exact (bounded_same _ _ X s s' R K B)|]. intros p.
  rewrite (slack_same_oblig _ _ X s s' p R K). specialize (G p). lia.
Qed.

Lemma keeps_grow {A} X (m : M A) :
  (forall s a s', m s = Ok a s' ->
     regs s' = regs s /\ kshape_eq (kinfos s) (kinfos s')
     /\ forall q, (refcount_of s q - owes_forward s q <= refcount_of s' q - owes_forward s' q)%Z) ->
  keeps kernels_ result_regs X m.
Proof. intros Hm s a s' H. destruct (Hm s a s' H) as (R & K & G). now apply grow_step. Qed.

Lemma keeps_AddRef X p n : (0 <= n)%Z -> keeps kernels_ result_regs X (AddRef p n).
Proof.
  intros Hn. apply keeps_grow. intros s u s' H. apply AddRef_acct in H as (R & K & A).
  split; [exact R|]. split; [rewrite K; apply kshape_eq_refl|]. intros q.
  destruct (A q) as [-> ->]. destruct (q =? p); lia.
Qed.

Lemma keeps_MakeIndirectAsyncValue X : keeps kernels_ result_regs X MakeIndirectAsyncValue.
Proof.
  apply keeps_grow. intros s p s' H. unfold MakeIndirectAsyncValue, bind, get, modify, ret in H.
  injection H as _ <-. split; [reflexivity|]. split; [apply kshape_eq_refl|].
  intros q. rewrite (MakeIndirect_acct s q). lia.
Qed.

Lemma keeps_SetKernelsWithErrorInputReady X ids :
  keeps kernels_ result_regs X (SetKernelsWithErrorInputReady ids).
Proof.
  apply keeps_grow. intros s u s' H. unfold SetKernelsWithErrorInputReady in H.
  binv H as u1 s1 E1. apply SetKernelsWithErrorInputReady_loop_Ok_inv in E1 as (Hh & R & _ & _ & _ & C).
  apply emit_Ok_inv in H as ->. cbn [regs kinfos with_trace].
  split; [exact R|]. split; [now apply counters_clamped_kshape|].
  intros q. unfold refcount_of, owes_forward. cbn [heap with_trace]. rewrite Hh. lia.
Qed.

(** [GetOrCreateRegisterValue]: a placeholder comes with [user_count]
    references, which cover the register's pending uses. *)
Lemma keeps_GetOrCreateRegisterValue X r :
  keeps kernels_ result_regs X (GetOrCreateRegisterValue r).
Proof.
  intros s x s' H B. unfold GetOrCreateRegisterValue, GetOrCreateRegisterValue_race in H.
  binv H as reg s1 E1. apply load_reg_Ok in E1 as [-> Hr].
  destruct reg as [[v|] uc] eqn:Ereg; cbn [value user_count] in H.
  - apply ret_Ok_inv in H as [_ ->]. split; [exact B|]. intros; lia.
  - binv H as q s2 E2. unfold MakeIndirectAsyncValue, bind, get, modify, ret in E2.
    injection E2 as <- <-.
    binv H as u3 s3 E3. apply AddRef_acct in E3 as (R3 & K3 & A3).
    binv H as u4 s4 E4. unfold interleave in E4. apply ret_Ok_inv in E4 as [_ ->].
    binv H as ex s5 E5. unfold compare_exchange_strong_reg in E5.
    binv E5 as reg' s6 E6. apply load_reg_Ok in E6 as [-> Hr'].
    rewrite R3 in Hr'. cbn [regs with_heap] in Hr'. rewrite Hr in Hr'. injection Hr' as <-.
    cbn [value user_count] in E5.
    binv E5 as u7 s7 E7. unfold modify in E7. injection E7 as <- <-.
    binv E5 as u8 s8 E8. apply emit_Ok_inv in E8 as ->.
    apply ret_Ok_inv in E5 as [<- ->]. apply ret_Ok_inv in H as [_ ->].
    assert (Hr3 : nth_error (regs s3) r = Some (mkReg None uc)) by (rewrite R3; exact Hr).
    assert (K : kshape_eq (kinfos s) (kinfos s3)) by (rewrite K3; apply kshape_eq_refl).
    assert (B3 : uses_bounded kernels_ result_regs X s3)
      by (apply (bounded_same _ _ X s s3); auto; rewrite R3; reflexivity).
    split.
    + exact (bounded_set_reg _ _ X s3 r (mkReg None uc) (Some (length (heap s))) Hr3 B3).
    + intros p. change (slack kernels_ result_regs X s p <= slack kernels_ result_regs X
        (with_regs (set_nth r (mkReg (Some (length (heap s))) (user_count (mkReg None uc)))
                      (regs s3)) s3) p)%Z.
      rewrite (slack_set_reg _ _ X s3 r (mkReg None uc) (length (heap s)) p Hr3 eq_refl).
      rewrite (slack_same_oblig _ _ X s s3 p ltac:(rewrite R3; reflexivity) K).
      destruct (A3 p) as [Rc Ow]. rewrite Rc, Ow.
      pose proof (MakeIndirect_acct s p) as Mk. cbn in Mk.
      specialize (B r _ Hr). cbn [user_count] in B.
      rewrite (pending_kshape _ _ s s3 r K).
      unfold refcount_of, owes_forward in Mk |- *. cbn [heap with_heap] in Mk |- *.
      destruct (Nat.eqb_spec (length (heap s)) p) as [<-|Hne].
      * rewrite Nat.eqb_refl. lia.
      * replace (Nat.eqb p (length (heap s))) with false by (symmetry; apply Nat.eqb_neq; congruence).
        lia.
Qed.

Lemma IsError_Ok_inv p s b s' : IsError p s = Ok b s' -> s' = s.
Proof.
  intros H. unfold IsError, av_state in H. binv H as st s1 E1. binv E1 as v s2 E2.
  apply load_av_Ok_inv in E2 as [-> _]. apply ret_Ok_inv in E1 as [_ ->].
  now apply ret_Ok_inv in H as [_ ->].
Qed.

(** Argument binding: every argument register ends up holding the value
    bound to it. *)
Lemma bind_arguments_slack X args any s vs any' s' :
  bind_arguments args any s = Ok (vs, any') s' ->
  uses_bounded kernels_ result_regs X s ->
  uses_bounded kernels_ result_regs X s'
  /\ (forall p, slack kernels_ result_regs X s p <= slack kernels_ result_regs X s' p)%Z
  /\ regs_mono (regs s) (regs s')
  /\ Forall2 (fun r v => exists uc, nth_error (regs s') r = Some (mkReg (Some v) uc)) args vs.
Proof.
  revert any s vs any' s'; induction args as [|r args IH]; intros any s vs any' s' H B;
    cbn [bind_arguments] in H.
  - apply ret_Ok_inv in H as [[= <- _] ->]. split; [exact B|].
    split; [intros; lia|]. split; [apply regs_mono_refl|constructor].
  - binv H as v s1 E1.
    destruct (keeps_GetOrCreateRegisterValue X r s v s1 E1 B) as [B1 S1].
    apply GetOrCreateRegisterValue_Ok_inv in E1 as (M1 & uc & Hv).
    binv H as err s2 E2. apply IsError_Ok_inv in E2 as ->.
    binv H as res s3 E3. destruct res as [vs' any''].
    destruct (IH _ _ _ _ _ E3 B1) as (B3 & S3 & M3 & F3).
    apply ret_Ok_inv in H as [[= <- _] ->].
    split; [exact B3|]. split; [intros p; specialize (S1 p); specialize (S3 p); lia|].
    split; [eapply regs_mono_trans; eassumption|].
    constructor; [exists uc; now apply M3|exact F3].
Qed.

End AccountingSteps.

Create HintDb keeps_db.
#[export] Hint Resolve keeps_ret keeps_get keeps_fault keeps_assert keeps_from_option keeps_emit
  keeps_load_av keeps_load_reg keeps_load_kinfo keeps_MakeIndirectAsyncValue
  keeps_SetKernelsWithErrorInputReady keeps_GetOrCreateRegisterValue : keeps_db.
#[export] Hint Extern 1 (keeps _ _ _ ExecutorAddRef) => apply keeps_refs_ops : keeps_db.
#[export] Hint Extern 1 (keeps _ _ _ ExecutorDropRef) => apply keeps_refs_ops : keeps_db.
#[export] Hint Extern 1 (keeps _ _ _ HandlerAddRef) => apply keeps_refs_ops : keeps_db.
#[export] Hint Extern 1 (keeps _ _ _ HandlerDropRef) => apply keeps_refs_ops : keeps_db.
#[export] Hint Extern 1 (keeps _ _ _ (AddRef _ _)) => apply keeps_AddRef; lia : keeps_db.

Ltac keeps_tac :=
  repeat match goal with
  | |- keeps _ _ _ (bind _ _) => apply keeps_bind; [|intros ?]
  | |- keeps _ _ _ (match ?x with _ => _ end) => destruct x
  | |- keeps _ _ _ (if ?b then _ else _) => destruct b
  | |- keeps _ _ _ _ => solve [eauto with keeps_db]
  end.

Lemma list_sum_cons a l : list_sum (a :: l) = a + list_sum l.
Proof. reflexivity. Qed.

Lemma list_sum_map_seq_update (f g : nat -> nat) k start n :
  start <= k < start + n -> (forall j, j <> k -> f j = g j) ->
  list_sum (map f (seq start n)) + g k = list_sum (map g (seq start n)) + f k.
Proof.
  revert start; induction n as [|n IH]; intros start Hk E; [lia|].
  cbn [seq map]. rewrite !list_sum_cons. destruct (Nat.eq_dec k start) as [->|Hne].
  - assert (Hr : list_sum (map f (seq (S start) n)) = list_sum (map g (seq (S start) n))).
    { f_equal. apply map_ext_in. intros j Hj. apply in_seq in Hj. apply E. lia. }
    rewrite Hr. lia.
  - rewrite (E start) by congruence. specialize (IH (S start) ltac:(lia) E). lia.
Qed.

Lemma list_sum_map_le (f g : nat -> nat) l :
  (forall j, f j <= g j) -> list_sum (map f l) <= list_sum (map g l).
Proof.
  intros E. induction l as [|j l IH]; cbn [map]; [cbn; lia|]. rewrite !list_sum_cons. specialize (E j). lia.
Qed.

Ltac eqb_case x y :=
  let Hne := fresh "Hne" in
  destruct (Nat.eq_dec x y) as [<-|Hne];
  [rewrite ?Nat.eqb_refl in *
  |rewrite ?(proj2 (Nat.eqb_neq x y) Hne), ?(proj2 (Nat.eqb_neq y x) (not_eq_sym Hne)) in *].

Section AccountingExec.
Variable kernels_ : list (option BEFKernel).
Variable kernel_impls : list KernelImplementation.
Variable cancel_async_value : option ptr.
Variable result_regs : list nat.
Variable go : Task -> M unit.
Hypothesis go_keeps : forall t, keeps kernels_ result_regs [] (go t).
#[local] Hint Resolve go_keeps : keeps_db.

Lemma slack_with_trace X t s p :
  slack kernels_ result_regs X (with_trace t s) p = slack kernels_ result_regs X s p.
Proof. reflexivity. Qed.

Lemma bounded_with_trace X t s :
  uses_bounded kernels_ result_regs X s -> uses_bounded kernels_ result_regs X (with_trace t s).
Proof. intros B. exact B. Qed.

Lemma keeps_run_callback cb : keeps kernels_ result_regs [] (run_callback go cb).
Proof. unfold run_callback; keeps_tac. Qed.
#[local] Hint Resolve keeps_run_callback : keeps_db.

Lemma keeps_run_callbacks cbs : keeps kernels_ result_regs [] (run_callbacks go cbs).
Proof. induction cbs as [|cb cbs IH]; cbn [run_callbacks]; keeps_tac. Qed.

(** Registering a continuation changes no reference. *)
Lemma keeps_AndThen p cb : keeps kernels_ result_regs [] (AndThen go p cb).
Proof.
  intros s a s' H B. unfold AndThen in H. binv H as v s1 E1. apply load_av_Ok_inv in E1 as [-> Hv].
  destruct (is_available (state v)).
  - exact (keeps_run_callback cb s a s' H B).
  - binv H as u2 s2 E2. unfold store_av, modify in E2. injection E2 as <- <-.
    apply emit_Ok_inv in H as ->.
    apply (grow_step _ _ [] s); [reflexivity|apply kshape_eq_refl| |exact B].
    intros q. change (refcount_of s q - owes_forward s q
      <= refcount_of (with_heap (set_nth p (set_waiters (waiters v ++ [cb]) v) (heap s)) s) q
         - owes_forward (with_heap (set_nth p (set_waiters (waiters v ++ [cb]) v) (heap s)) s) q)%Z.
    destruct (store_acct s p v (set_waiters (waiters v ++ [cb]) v) q Hv) as [-> ->].
    destruct (Nat.eqb_spec q p) as [Hq|_]; [|lia].
    subst q. unfold refcount_of, owes_forward. rewrite Hv. destruct v; unfold av_owes; cbn; lia.
Qed.
#[local] Hint Resolve keeps_run_callbacks keeps_AndThen : keeps_db.

Lemma keeps_resolve_indirect i : keeps kernels_ result_regs [] (resolve_indirect go i).
Proof.
  intros s a s' H B. unfold resolve_indirect in H.
  binv H as iv s1 E1. apply load_av_Ok_inv in E1 as [-> Hiv].
  binv H as target s2 E2. apply from_option_Ok_inv in E2 as [-> _].
  binv H as tv s3 E3. apply load_av_Ok_inv in E3 as [-> _].
  binv H as u4 s4 E4. unfold store_av, modify in E4. injection E4 as <- <-.
  set (w := set_waiters [] (set_state (state tv) iv)) in H.
  assert (G : uses_bounded kernels_ result_regs [] (with_heap (set_nth i w (heap s)) s)
              /\ forall p, (slack kernels_ result_regs [] s p
                            <= slack kernels_ result_regs [] (with_heap (set_nth i w (heap s)) s) p)%Z).
  { apply (grow_step _ _ [] s); [reflexivity|apply kshape_eq_refl| |exact B].
    intros q. destruct (store_acct s i iv w q Hiv) as [-> ->].
    destruct (Nat.eqb_spec q i) as [Hq|_]; [|lia].
    subst q. unfold refcount_of, owes_forward. rewrite Hiv. subst w. destruct iv; unfold av_owes; cbn; lia. }
  destruct G as [B4 S4]. destruct (keeps_run_callbacks _ _ _ _ H B4) as [B5 S5].
  split; [exact B5|]. intros p. specialize (S4 p). specialize (S5 p). lia.
Qed.

Lemma keeps_MaybeAddRefForResult p : keeps kernels_ result_regs [] (MaybeAddRefForResult go p).
Proof. unfold MaybeAddRefForResult, IsAvailable, av_state; keeps_tac. Qed.

Lemma keeps_ProcessUsedBys kernel rn v off ids :
  keeps kernels_ result_regs [] (ProcessUsedBys go kernel rn v off ids).
Proof. unfold ProcessUsedBys, av_state. keeps_tac. apply keeps_MaybeAddRefForResult. Qed.

(** [SetRegisterValue]: the new value gives up at most the reference it
    came with; when the register held a placeholder, the placeholder's
    forwarding reference is released (to be dropped by the caller). *)
Lemma SetRegisterValue_slack r v s e b s' :
  SetRegisterValue go r v s = Ok (e, b) s' ->
  (forall reg, nth_error (regs s) r = Some reg -> unset_or_unresolved s (value reg)) ->
  uses_bounded kernels_ result_regs [] s ->
  uses_bounded kernels_ result_regs [] s'
  /\ forall p, (slack kernels_ result_regs [] s p - (if Nat.eqb p v then 1 else 0)
                + (if b then if Nat.eqb p e then 1 else 0 else 0)
                <= slack kernels_ result_regs [] s' p)%Z.
Proof.
  intros H U B. unfold SetRegisterValue in H.
  binv H as reg s1 E1. apply load_reg_Ok in E1 as [-> Hr].
  binv H as u2 s2 E2. apply assert_Ok_inv in E2 as [-> Huc]. apply Nat.ltb_lt in Huc.
  binv H as u3 s3 E3. apply AddRef_acct in E3 as (R3 & K3 & A3).
  assert (K : kshape_eq (kinfos s) (kinfos s3)) by (rewrite K3; apply kshape_eq_refl).
  binv H as ex s4 E4. unfold compare_exchange_strong_reg in E4.
  binv E4 as reg' s5 E5. apply load_reg_Ok in E5 as [-> Hr'].
  rewrite R3, Hr in Hr'. injection Hr' as <-.
  pose proof (U reg Hr) as Ureg.
  destruct reg as [[e0|] uc]; cbn [value user_count] in *.
  - binv E4 as u6 s6 E6. apply emit_Ok_inv in E6 as ->. apply ret_Ok_inv in E4 as [<- ->].
    binv H as ev s7 E7. apply load_av_Ok_inv in E7 as [-> _].
    binv H as u8 s8 E8. apply assert_Ok_inv in E8 as [-> _].
    binv H as u9 s9 E9. apply DropRef_acct in E9 as (R9 & K9 & A9).
    binv H as u10 s10 E10. unfold ForwardTo in E10.
    binv E10 as iv s11 E11. apply load_av_Ok_inv in E11 as [-> Hiv].
    binv E10 as u12 s12 E12. unfold store_av, modify in E12. injection E12 as <- <-.
    binv E10 as u13 s13 E13. apply emit_Ok_inv in E13 as ->.
    apply ret_Ok_inv in H as [[= <- <-] ->].
    set (s12 := with_heap (set_nth e0 (set_forwarded v iv) (heap s9)) s9) in *.
    assert (R12 : regs s12 = regs s) by (subst s12; cbn; rewrite R9; cbn; exact R3).
    assert (K12 : kshape_eq (kinfos s) (kinfos s12)) by (subst s12; cbn; rewrite K9; exact K).
    destruct Ureg as (ev0 & Hev0 & Hind & Hfw).
    assert (O1 : owes_forward s e0 = 1%Z).
    { unfold owes_forward, av_owes. rewrite Hev0, Hind, Hfw. reflexivity. }
    assert (Rc : forall q, refcount_of s12 q = refcount_of s q).
    { intros q. subst s12. destruct (store_acct s9 e0 iv (set_forwarded v iv) q Hiv) as [-> _].
      destruct (A9 q) as [Rc9 _]. destruct (A3 q) as [Rc3 _].
      destruct (Nat.eqb_spec q e0) as [->|_].
      - assert (Ri : refcount_of s9 e0 = refcount (set_forwarded v iv))
          by (unfold refcount_of; rewrite Hiv; now destruct iv).
        rewrite <- Ri, Rc9.
        change (refcount_of (with_trace (trace s3 ++ [EvRegisterCAS r v false]) s3) e0)
          with (refcount_of s3 e0). rewrite Rc3. destruct (e0 =? v); lia.
      - rewrite Rc9. change (refcount_of (with_trace (trace s3 ++ [EvRegisterCAS r v false]) s3) q)
          with (refcount_of s3 q). rewrite Rc3. destruct (q =? v); lia. }
    assert (Ow : forall q, owes_forward s12 q = if Nat.eqb q e0 then 0%Z else owes_forward s q).
    { intros q. subst s12. destruct (store_acct s9 e0 iv (set_forwarded v iv) q Hiv) as [_ ->].
      destruct (Nat.eqb q e0); [unfold av_owes; destruct iv as [? ? [] ? ?]; reflexivity|].
      destruct (A9 q) as [_ ->]. destruct (A3 q) as [_ Ow3]. exact Ow3. }
    assert (B12 : uses_bounded kernels_ result_regs [] s12) by exact (bounded_same _ _ [] s s12 R12 K12 B).
    destruct (keeps_AndThen v (CbForward e0) _ u10 s10 E10 (bounded_with_trace [] _ _ B12))
      as [B10 S10].
    split; [exact B10|]. intros p. specialize (S10 p). rewrite slack_with_trace in S10.
    rewrite (slack_same_oblig _ _ [] s s12 p R12 K12), Rc, Ow in S10.
    destruct (Nat.eqb_spec p e0) as [Hpe|_]; [subst p|]; destruct (_ =? v); rewrite ?O1 in S10; lia.
  - binv E4 as u6 s6 E6. unfold modify in E6. injection E6 as <- <-.
    binv E4 as u7 s7 E7. apply emit_Ok_inv in E7 as ->. apply ret_Ok_inv in E4 as [<- ->].
    apply ret_Ok_inv in H as [[= <- <-] ->].
    assert (Hr3 : nth_error (regs s3) r = Some (mkReg None uc)) by (rewrite R3; exact Hr).
    assert (B3 : uses_bounded kernels_ result_regs [] s3) by (apply (bounded_same _ _ [] s s3); auto).
    split.
    + apply bounded_with_trace.
      exact (bounded_set_reg _ _ [] s3 r (mkReg None uc) (Some v) Hr3 B3).
    + intros p. rewrite slack_with_trace.
      change (slack kernels_ result_regs [] s p - (if Nat.eqb p v then 1 else 0) + 0
        <= slack kernels_ result_regs []
             (with_regs (set_nth r (mkReg (Some v) (user_count (mkReg None uc))) (regs s3)) s3) p)%Z.
      rewrite (slack_set_reg _ _ [] s3 r (mkReg None uc) v p Hr3 eq_refl).
      rewrite (slack_same_oblig _ _ [] s s3 p R3 K). destruct (A3 p) as [-> ->].
      rewrite (pending_kshape _ _ s s3 r K). specialize (B r _ Hr). cbn [user_count count_occ] in B.
      cbn [count_occ].
      destruct (Nat.eqb_spec p v) as [Hpv|Hne]; [subst p; rewrite Nat.eqb_refl; lia|].
      replace (Nat.eqb v p) with false by (symmetry; apply Nat.eqb_neq; congruence). lia.
Qed.

(** One result: the reference the kernel gave to its result slot is
    consumed, and nothing else is lost. *)
Lemma publish_result_slack kernel r rn frs off ids s off' ids' s' :
  publish_result go kernel r rn frs off ids s = Ok (off', ids') s' ->
  uses_bounded kernels_ result_regs [] s ->
  uses_bounded kernels_ result_regs [] s'
  /\ forall p, (slack kernels_ result_regs [] s p - Z.of_nat (count_some [nth rn frs None] p)
                <= slack kernels_ result_regs [] s' p)%Z.
Proof.
  intros H B. unfold publish_result in H.
  binv H as reg s1 E1. apply load_reg_Ok in E1 as [-> Hr].
  binv H as unset s2 E2.
  assert (U : unset = true -> unset_or_unresolved s (value reg) /\ s2 = s).
  { destruct (value reg) as [p0|].
    - unfold IsUnresolvedIndirect in E2. binv E2 as iv s3 E3. apply load_av_Ok_inv in E3 as [-> Hiv].
      apply ret_Ok_inv in E2 as [<- ->]. intros Hu. split; [|reflexivity].
      apply andb_prop in Hu as [Hi Hf]. exists iv. split; [exact Hiv|]. split; [exact Hi|].
      destruct (forwarded iv); [discriminate|reflexivity].
    - apply ret_Ok_inv in E2 as [<- ->]. intros _. split; [exact I|reflexivity]. }
  binv H as u3 s3 E3. apply assert_Ok_inv in E3 as [-> Hu]. destruct (U Hu) as [Ureg ->].
  binv H as result s4 E4. apply from_option_Ok_inv in E4 as [-> Hres].
  assert (C : forall p, Z.of_nat (count_some [nth rn frs None] p) = if Nat.eqb p result then 1%Z else 0%Z).
  { intros p. rewrite Hres. unfold count_some. cbn.
    destruct (Nat.eqb_spec result p), (Nat.eqb_spec p result); cbn; congruence. }
  destruct (user_count reg =? 0).
  - binv H as u5 s5 E5. destruct (keeps_MaybeAddRefForResult result s u5 s5 E5 B) as [B5 S5].
    binv H as u6 s6 E6. apply DropRef_acct in E6 as (R6 & K6 & A6).
    apply ret_Ok_inv in H as [_ ->].
    assert (K : kshape_eq (kinfos s5) (kinfos s6)) by (rewrite K6; apply kshape_eq_refl).
    split; [exact (bounded_same _ _ [] s5 s6 R6 K B5)|].
    intros p. rewrite (slack_same_oblig _ _ [] s5 s6 p R6 K), C. destruct (A6 p) as [-> ->].
    specialize (S5 p). destruct (p =? result); lia.
  - binv H as eb s5 E5. destruct eb as [e b].
    assert (U' : forall reg', nth_error (regs s) r = Some reg' -> unset_or_unresolved s (value reg'))
      by (intros reg' Hr'; rewrite Hr in Hr'; now injection Hr' as <-).
    destruct (SetRegisterValue_slack r result s e b s5 E5 U' B) as [B5 S5].
    binv H as oi s6 E6. destruct oi as [off2 ids2].
    destruct (keeps_ProcessUsedBys kernel rn e off ids s5 _ s6 E6 B5) as [B6 S6].
    binv H as u7 s7 E7. apply ret_Ok_inv in H as [_ ->].
    destruct b.
    + apply DropRef_acct in E7 as (R7 & K7 & A7).
      assert (K : kshape_eq (kinfos s6) (kinfos s7)) by (rewrite K7; apply kshape_eq_refl).
      split; [exact (bounded_same _ _ [] s6 s7 R7 K B6)|].
      intros p. rewrite (slack_same_oblig _ _ [] s6 s7 p R7 K), C. destruct (A7 p) as [-> ->].
      specialize (S5 p). specialize (S6 p). destruct (p =? result), (p =? e); lia.
    + apply ret_Ok_inv in E7 as [_ ->]. split; [exact B6|].
      intros p. rewrite C. specialize (S5 p). specialize (S6 p). destruct (p =? result); lia.
Qed.

Lemma publish_results_slack kernel results rn frs off ids s ids' s' :
  publish_results go kernel results rn frs off ids s = Ok ids' s' ->
  uses_bounded kernels_ result_regs [] s ->
  uses_bounded kernels_ result_regs [] s'
  /\ forall p, (slack kernels_ result_regs [] s p - Z.of_nat (count_some (skipn rn frs) p)
                <= slack kernels_ result_regs [] s' p)%Z.
Proof.
  revert rn off ids s; induction results as [|r rest IH]; intros rn off ids s H B;
    cbn [publish_results] in H.
  - apply ret_Ok_inv in H as [_ ->]. split; [exact B|]. intros p. lia.
  - binv H as oi s1 E1. destruct oi as [off1 ids1].
    destruct (publish_result_slack kernel r rn frs off ids s off1 ids1 s1 E1 B) as [B1 S1].
    destruct (IH _ _ _ _ H B1) as [B2 S2]. split; [exact B2|].
    intros p. specialize (S1 p). specialize (S2 p). rewrite count_some_skipn. lia.
Qed.

Hypothesis impls_own : forall fn, In fn kernel_impls -> owns_results fn.

(** Firing kernel [k]: its arguments' obligations are met by the
    references the arguments give up, its results' by those the kernel
    gives. *)
Lemma fire_kernel_slack k ki ids s ids' s' :
  fire_kernel kernels_ kernel_impls cancel_async_value go k ki ids s = Ok ids' s' ->
  nth_error (kinfos s) k = Some ki ->
  uses_bounded kernels_ result_regs (kernel_args_in kernels_ (kinfos s) k) s ->
  uses_bounded kernels_ result_regs [] s'
  /\ forall p, (slack kernels_ result_regs (kernel_args_in kernels_ (kinfos s) k) s p
                <= slack kernels_ result_regs [] s' p)%Z.
Proof.
  intros H Hk B. unfold fire_kernel in H.
  binv H as u1 s1 E1. apply assert_Ok_inv in E1 as [-> _].
  binv H as kernel s2 E2. unfold decode_kernel in E2. apply from_option_Ok_inv in E2 as [-> Hdec].
  assert (Hkern : nth_error kernels_ (offset ki / kKernelEntryAlignment) = Some (Some kernel)).
  { destruct (nth_error kernels_ (offset ki / kKernelEntryAlignment)) as [[kk|]|]; congruence. }
  assert (HX : kernel_args_in kernels_ (kinfos s) k = GetKernelEntries kernel 0 (num_arguments kernel)).
  { unfold kernel_args_in. now rewrite Hk, Hkern. }
  rewrite HX in B |- *.
  set (args := GetKernelEntries kernel 0 (num_arguments kernel)) in *.
  binv H as fn s3 E3. apply from_option_Ok_inv in E3 as [-> Hfn]. apply nth_error_In in Hfn.
  binv H as va s4 E4. destruct va as [vs any].
  destruct (bind_arguments_slack _ _ args args cancel_async_value s vs any s4 E4 B)
    as (B4 & S4 & _ & F4).
  binv H as frs s5 E5.
  assert (P5 : regs s5 = regs s4 /\ kinfos s5 = kinfos s4
               /\ forall p, (refcount_of s4 p - owes_forward s4 p + Z.of_nat (count_some frs p)
                             <= refcount_of s5 p - owes_forward s5 p)%Z).
  { destruct any as [err|]; [destruct (negb _)|].
    - binv E5 as u6 s6 E6. apply emit_Ok_inv in E6 as ->. exact (impls_own fn Hfn _ _ _ _ E5).
    - binv E5 as u6 s6 E6. apply emit_Ok_inv in E6 as ->. exact (propagate_error_acct _ _ _ _ _ E5).
    - binv E5 as u6 s6 E6. apply emit_Ok_inv in E6 as ->. exact (impls_own fn Hfn _ _ _ _ E5). }
  destruct P5 as (R5 & K5 & G5).
  binv H as u7 s7 E7. apply drop_arguments_acct in E7 as (R7 & K7 & A7).
  assert (K57 : kshape_eq (kinfos s4) (kinfos s7)) by (rewrite K7, K5; apply kshape_eq_refl).
  assert (R47 : regs s7 = regs s4) by congruence.
  (* releasing the arguments meets exactly the obligations of their uses *)
  assert (S7 : forall p, (slack kernels_ result_regs [] s7 p
                          = slack kernels_ result_regs args s4 p
                            + (refcount_of s5 p - owes_forward s5 p)
                            - (refcount_of s4 p - owes_forward s4 p))%Z).
  { intros p. unfold slack. rewrite R47.
    rewrite (reg_oblig_ext (fun r => pending_uses kernels_ result_regs s7 r + count_occ Nat.eq_dec [] r)
                           (fun r => pending_uses kernels_ result_regs s4 r))
      by (intros r; cbn; rewrite (pending_kshape _ _ s4 s7 r K57); lia).
    pose proof (reg_oblig_add (fun r => pending_uses kernels_ result_regs s4 r)
                  (fun r => count_occ Nat.eq_dec args r) (regs s4) 0 p) as Add. cbv beta in Add.
    rewrite Add.
    assert (F : Forall2 (fun r o => exists v uc, o = Some v
                          /\ nth_error (regs s4) r = Some (mkReg (Some v) uc)) args (map Some vs)).
    { clear -F4. induction F4 as [|r v args vs (uc & Hv) _ IH]; constructor; [|exact IH].
      exists v, uc. auto. }
    rewrite (reg_oblig_count _ _ _ p F), count_some_map.
    destruct (A7 p) as [-> ->]. lia. }
  assert (B7 : uses_bounded kernels_ result_regs [] s7).
  { intros r reg Hr. rewrite R47 in Hr. rewrite (pending_kshape _ _ s4 s7 r K57).
    specialize (B4 r reg Hr). cbn. lia. }
  destruct (publish_results_slack _ _ 0 frs _ _ s7 ids' s' H B7) as [B8 S8].
  split; [exact B8|]. intros p. specialize (S4 p). specialize (S7 p). specialize (S8 p).
  specialize (G5 p). rewrite skipn_O in S8. lia.
Qed.

(** The gate of kernel [k]: a [fetch_sub] that takes the counter from 1 to
    0 turns the pending uses of [k]'s arguments into the uses of the
    firing. *)
Lemma pending_fire s k ki r :
  nth_error (kinfos s) k = Some ki -> arguments_not_ready ki = 1%Z ->
  pending_uses kernels_ result_regs s r
  = pending_uses kernels_ result_regs (with_kinfos (set_nth k (mkKI (offset ki) 0) (kinfos s)) s) r
    + count_occ Nat.eq_dec (kernel_args_in kernels_ (set_nth k (mkKI (offset ki) 0) (kinfos s)) k) r.
Proof.
  intros Hk H1. pose proof (nth_error_Some_lt _ _ _ Hk) as Hlt.
  set (kis' := set_nth k (mkKI (offset ki) 0) (kinfos s)).
  assert (A : forall j, kernel_args_in kernels_ kis' j = kernel_args_in kernels_ (kinfos s) j).
  { intros j. unfold kernel_args_in, kis'. destruct (Nat.eq_dec j k) as [->|Hne].
    - rewrite nth_error_set_nth_eq by exact Hlt. now rewrite Hk.
    - now rewrite nth_error_set_nth_neq by exact Hne. }
  assert (Lk : length kis' = length (kinfos s)) by apply length_set_nth.
  assert (G : forall j, j <> k -> gate_pos (with_kinfos kis' s) j = gate_pos s j).
  { intros j Hj. unfold gate_pos, kis'. cbn. now rewrite nth_error_set_nth_neq by exact Hj. }
  assert (G0 : gate_pos (with_kinfos kis' s) k = 0).
  { unfold gate_pos, kis'. cbn. rewrite nth_error_set_nth_eq by exact Hlt. reflexivity. }
  assert (G1 : gate_pos s k = 1) by (unfold gate_pos; rewrite Hk, H1; reflexivity).
  pose proof (list_sum_map_seq_update
    (fun j => gate_pos s j * count_occ Nat.eq_dec (kernel_args_in kernels_ (kinfos s) j) r)
    (fun j => gate_pos (with_kinfos kis' s) j * count_occ Nat.eq_dec (kernel_args_in kernels_ kis' j) r)
    k 0 (length (kinfos s)) ltac:(lia)) as L.
  cbv beta in L. rewrite G0, G1 in L.
  unfold pending_uses. change (kinfos (with_kinfos kis' s)) with kis'. rewrite Lk, (A k).
  rewrite (A k) in L. assert (L' := L (fun j Hj => ltac:(rewrite (G j Hj), (A j); reflexivity))).
  lia.
Qed.

Lemma keeps_process_kernel k ids :
  keeps kernels_ result_regs [] (process_kernel kernels_ kernel_impls cancel_async_value go k ids).
Proof.
  intros s ids' s' H B. unfold process_kernel in H. binv H as prior s1 E1.
  apply fetch_sub_Ok_state in E1 as (ki & Hk & -> & ->).
  pose proof (nth_error_Some_lt _ _ _ Hk) as Hlt.
  destruct (Z.eqb_spec (arguments_not_ready ki) 1) as [H1|H1]; cbn [negb] in H.
  - replace (arguments_not_ready ki - 1)%Z with 0%Z in H by lia.
    binv H as ki' s2 E2. apply load_kinfo_Ok_inv in E2 as [-> Hk'].
    set (s1 := with_trace _ (with_kinfos (set_nth k (mkKI (offset ki) 0) (kinfos s)) s)) in *.
    set (X := kernel_args_in kernels_ (kinfos s1) k).
    assert (P : forall r, pending_uses kernels_ result_regs s r
                          = pending_uses kernels_ result_regs s1 r + count_occ Nat.eq_dec X r)
      by (intros r; exact (pending_fire s k ki r Hk H1)).
    assert (B1 : uses_bounded kernels_ result_regs X s1).
    { intros r reg Hr. specialize (B r reg Hr). cbn [count_occ] in B. rewrite P in B. lia. }
    destruct (fire_kernel_slack k ki' ids s1 ids' s' H Hk' B1) as [B2 S2].
    split; [exact B2|]. intros p. specialize (S2 p). fold X in S2. enough (E : slack kernels_ result_regs [] s p
      = slack kernels_ result_regs X s1 p) by lia.
    unfold slack. f_equal. f_equal. f_equal. apply reg_oblig_ext. intros r. rewrite P. cbn. lia.
  - apply ret_Ok_inv in H as [_ ->].
    apply (grow_step _ _ [] s); [reflexivity| | |exact B].
    + intros j. cbn. destruct (Nat.eq_dec j k) as [->|Hne].
      * rewrite nth_error_set_nth_eq by exact Hlt. rewrite Hk. cbn. unfold kshape; cbn.
        f_equal. f_equal. destruct (Z.ltb_spec 0 (arguments_not_ready ki - 1));
          destruct (Z.ltb_spec 0 (arguments_not_ready ki)); lia.
      * now rewrite nth_error_set_nth_neq by exact Hne.
    + intros q. unfold refcount_of, owes_forward. cbn. lia.
Qed.

End AccountingExec.

Lemma keeps_run kernels_ kernel_impls cancel result_regs :
  (forall fn, In fn kernel_impls -> owns_results fn) ->
  forall fuel t, keeps kernels_ result_regs [] (run kernels_ kernel_impls cancel fuel t).
Proof.
  intros Himpls fuel. induction fuel as [|fuel IH]; intros t; cbn [run]; [keeps_tac|].
  destruct t as [ids|i].
  - destruct (pop_back ids) as [[rest k]|]; [|keeps_tac].
    apply keeps_bind; [apply keeps_process_kernel; auto|intros; apply IH].
  - apply keeps_resolve_indirect; exact IH.
Qed.

Section AccountingInit.
Variable kernels_ : list (option BEFKernel).
Variable kernel_impls : list KernelImplementation.
Variable cancel_async_value : option ptr.
Variable result_regs : list nat.
Hypothesis impls_own : forall fn, In fn kernel_impls -> owns_results fn.
#[local] Hint Resolve keeps_ProcessUsedBys keeps_run : keeps_db.

Lemma keeps_pseudo_results go :
  (forall t, keeps kernels_ result_regs [] (go t)) ->
  forall kernel results rn off ids,
    keeps kernels_ result_regs [] (pseudo_results go kernel results rn off ids).
Proof.
  intros Hgo kernel results. induction results as [|r rest IH]; intros rn off ids;
    cbn [pseudo_results]; unfold GetRegisterValue; keeps_tac.
Qed.

Lemma keeps_ProcessArgumentsPseudoKernel go :
  (forall t, keeps kernels_ result_regs [] (go t)) ->
  forall ids, keeps kernels_ result_regs [] (ProcessArgumentsPseudoKernel kernels_ go ids).
Proof.
  intros Hgo ids. unfold ProcessArgumentsPseudoKernel, decode_kernel. keeps_tac.
  apply keeps_pseudo_results. exact Hgo.
Qed.

Lemma keeps_BEFExecutor_init fuel b :
  keeps kernels_ result_regs [] (BEFExecutor_init kernels_ kernel_impls cancel_async_value fuel b).
Proof.
  unfold BEFExecutor_init, DecrementArgumentsNotReadyCounts. apply keeps_bind.
  - apply keeps_frame. intros s u s' H. unfold modify in H. now injection H as _ <-.
  - intros _. keeps_tac. apply keeps_ProcessArgumentsPseudoKernel. eauto with keeps_db.
Qed.

Lemma keeps_populate_results rr results :
  keeps kernels_ result_regs [] (populate_results rr results).
Proof.
  revert results; induction rr as [|r rr IH]; intros [|res rest]; cbn [populate_results]; keeps_tac.
Qed.

(** [InitializeArgumentRegisters]: an argument brings one reference per
    user of its register, which is what the register's pending uses ask. *)
Lemma InitializeArgumentRegisters_loop_slack args i n s u s' :
  InitializeArgumentRegisters_loop args i n s = Ok u s' ->
  (forall j reg, i <= j -> nth_error (regs s) j = Some reg -> value reg = None) ->
  uses_bounded kernels_ result_regs [] s ->
  uses_bounded kernels_ result_regs [] s'
  /\ forall p, (slack kernels_ result_regs [] s p <= slack kernels_ result_regs [] s' p)%Z.
Proof.
  revert i s; induction n as [|n IH]; intros i s H N B; cbn [InitializeArgumentRegisters_loop] in H.
  - apply ret_Ok_inv in H as [_ ->]. split; [exact B|lia].
  - binv H as u1 s1 E1. destruct (nth_error args i) as [v|] eqn:Ea.
    + binv E1 as reg s2 E2. apply load_reg_Ok in E2 as [-> Hr].
      binv E1 as u3 s3 E3. apply AddRef_acct in E3 as (R3 & K3 & A3).
      unfold modify in E1. injection E1 as _ <-. cbv beta in H.
      assert (K : kshape_eq (kinfos s) (kinfos s3)) by (rewrite K3; apply kshape_eq_refl).
      assert (Hr3 : nth_error (regs s3) i = Some reg) by (rewrite R3; exact Hr).
      assert (Hv : value reg = None) by exact (N i reg (le_n i) Hr).
      pose proof (bounded_same _ _ [] s s3 R3 K B) as B3.
      destruct (IH (S i) _ H) as [B' S'].
      * intros j reg' Hj Hr'. cbn [regs with_regs] in Hr'.
        rewrite nth_error_set_nth_neq in Hr' by lia. rewrite R3 in Hr'.
        exact (N j reg' ltac:(lia) Hr').
      * exact (bounded_set_reg _ _ [] s3 i reg (Some v) Hr3 B3).
      * split; [exact B'|]. intros p. specialize (S' p).
        rewrite (slack_set_reg _ _ [] s3 i reg v p Hr3 Hv) in S'.
        rewrite (slack_same_oblig _ _ [] s s3 p R3 K) in S'. destruct (A3 p) as [Ra Oa].
        rewrite Ra, Oa in S'. rewrite (pending_kshape _ _ s s3 i K) in S'.
        specialize (B i reg Hr). cbn [count_occ] in B, S'.
        destruct (Nat.eqb_spec p v) as [Hpv|Hpv]; [subst p; rewrite Nat.eqb_refl in S'; lia|].
        replace (Nat.eqb v p) with false in S' by (symmetry; apply Nat.eqb_neq; congruence). lia.
    + apply ret_Ok_inv in E1 as [_ ->].
      exact (IH (S i) s H (fun j reg Hj => N j reg ltac:(lia)) B).
Qed.

End AccountingInit.

Lemma reg_oblig_none f rs i p :
  Forall (fun reg => value reg = None) rs -> reg_oblig f rs i p = 0.
Proof.
  intros H. revert i; induction H as [|reg rs Hv _ IH]; intros i; cbn; [reflexivity|].
  rewrite Hv, IH. reflexivity.
Qed.

Lemma pending_le_total kernels_ result_regs s r :
  pending_uses kernels_ result_regs s r <= total_uses kernels_ result_regs (kinfos s) r.
Proof.
  unfold pending_uses, total_uses. apply Nat.add_le_mono_r. apply list_sum_map_le.
  intros j. assert (gate_pos s j <= 1)
    by (unfold gate_pos; destruct (nth_error (kinfos s) j); [destruct (_ <? _)%Z|]; lia).
  nia.
Qed.

(** [Execute]: the result slots own references.  When the registers start
    unset, their user counts cover their uses and the caller's pending
    placeholders hold their forwarding reference, then on return each value
    has at least as many references as there are result slots holding it. *)
Lemma Execute_refs kernels_ kernel_impls cancel_async_value fuel register_infos kernel_infos
    result_regs arguments results results' s s' :
  kernels_ <> [] ->
  Forall (fun reg => value reg = None) register_infos ->
  uses_within kernels_ result_regs register_infos kernel_infos ->
  placeholders_held s ->
  (forall fn, In fn kernel_impls -> owns_results fn) ->
  Execute kernels_ kernel_impls cancel_async_value fuel register_infos kernel_infos result_regs
    arguments results s = Ok results' s' ->
  forall p, (Z.of_nat (count_some results' p) <= refcount_of s' p)%Z.
Proof.
  intros Hne Hnone Hw Hheld Himpls H p. unfold Execute in H.
  destruct kernels_ as [|k ks]; [congruence|]. clear Hne.
  binv H as u1 s1 E1. apply assert_Ok_inv in E1 as [-> Hlen]. apply Nat.eqb_eq in Hlen.
  binv H as u2 s2 E2. unfold modify in E2. injection E2 as _ <-.
  set (s2 := with_kinfos kernel_infos (with_regs register_infos s)) in H.
  assert (B2 : uses_bounded (k :: ks) result_regs [] s2).
  { intros r reg Hr. cbn [count_occ]. specialize (Hw r reg Hr).
    pose proof (pending_le_total (k :: ks) result_regs s2 r). change (kinfos s2) with kernel_infos in H0. lia. }
  assert (Z2 : (0 <= slack (k :: ks) result_regs [] s2 p)%Z).
  { unfold slack. rewrite reg_oblig_none by exact Hnone. specialize (Hheld p).
    unfold refcount_of, owes_forward in *. change (heap s2) with (heap s). lia. }
  binv H as u3 s3 E3. unfold InitializeArgumentRegisters in E3. binv E3 as s2' s2'' G.
  unfold get in G. injection G as <- <-.
  destruct (InitializeArgumentRegisters_loop_slack _ _ _ _ _ _ _ _ E3
              (fun j reg _ Hr => proj1 (Forall_forall _ _) Hnone reg (nth_error_In _ _ Hr)) B2)
    as [B3 S3].
  binv H as u4 s4 E4.
  destruct (keeps_BEFExecutor_init _ _ _ _ Himpls _ _ _ _ _ E4 B3) as [B4 S4].
  binv H as res s5 E5.
  destruct (keeps_populate_results _ _ _ _ _ _ _ E5 B4) as [_ S5].
  apply populate_results_Ok_inv in E5 as (_ & F); [|exact Hlen].
  binv H as u6 s6 E6. unfold ExecutorDropRef, modify in E6. injection E6 as _ <-.
  apply ret_Ok_inv in H as [<- ->].
  specialize (S3 p). specialize (S4 p). specialize (S5 p).
  assert (Z5 : (0 <= slack (k :: ks) result_regs [] s5 p)%Z) by lia.
  change (refcount_of (with_exec_refs (exec_refs s5 - 1) s5) p) with (refcount_of s5 p).
  unfold slack in Z5.
  assert (Mo : reg_oblig (fun r => count_occ Nat.eq_dec result_regs r) (regs s5) 0 p
               <= reg_oblig (fun r => pending_uses (k :: ks) result_regs s5 r + count_occ Nat.eq_dec [] r)
                    (regs s5) 0 p).
  { apply reg_oblig_mono. intros r. unfold pending_uses. cbn [count_occ]. lia. }
  rewrite (reg_oblig_count (regs s5) result_regs res p F) in Mo.
  pose proof (owes_forward_nonneg s5 p). lia.
Qed.

(** The kernels of the sample own the results they return. *)
Lemma Sample_payload_Ok_inv p s z s' : Sample.payload p s = Ok z s' -> s' = s.
Proof.
  unfold Sample.payload, av_state, load_av, bind, get, from_option, ret, fault.
  destruct (nth_error (heap s) p); intros H; now inversion H.
Qed.

Lemma Sample_fresh_acct st s r s' :
  Sample.MakeAvailableAsyncValue st s = Ok r s' ->
  regs s' = regs s /\ kinfos s' = kinfos s
  /\ forall p, (refcount_of s p - owes_forward s p + Z.of_nat (count_some [Some r] p)
                <= refcount_of s' p - owes_forward s' p)%Z.
Proof.
  unfold Sample.MakeAvailableAsyncValue, bind, get, modify, ret. intros H.
  injection H as <- <-. split; [reflexivity|]. split; [reflexivity|]. intros q.
  unfold refcount_of, owes_forward, count_some; cbn [heap with_heap filter length].
  destruct (Nat.lt_trichotomy q (length (heap s))) as [Hl|[->|Hl]].
  - rewrite nth_error_app1 by exact Hl.
    replace (length (heap s) =? q) with false by (symmetry; apply Nat.eqb_neq; lia). cbn. lia.
  - rewrite nth_error_app_length, Nat.eqb_refl.
    replace (nth_error (heap s) (length (heap s))) with (@None AsyncValue)
      by (symmetry; apply nth_error_None; lia). cbn. lia.
  - rewrite nth_error_app2 by lia.
    replace (nth_error (heap s) q) with (@None AsyncValue) by (symmetry; apply nth_error_None; lia).
    replace (length (heap s) =? q) with false by (symmetry; apply Nat.eqb_neq; lia).
    replace (q - length (heap s)) with (S (q - length (heap s) - 1)) by lia.
    cbn. destruct (q - length (heap s) - 1); cbn; lia.
Qed.

Lemma Sample_impls_own : forall fn, In fn Sample.impls -> owns_results fn.
Proof.
  assert (Nil : forall s, regs s = regs s /\ kinfos s = kinfos s
                /\ forall p, (refcount_of s p - owes_forward s p + Z.of_nat (count_some [] p)
                              <= refcount_of s p - owes_forward s p)%Z)
    by (intros s; split; [reflexivity|split; [reflexivity|intros p; cbn; lia]]).
  intros fn Hin frame s frs s' H. destruct Hin as [<-|[<-|[<-|[]]]].
  - unfold Sample.add_kernel in H.
    destruct (frame_args frame) as [|a [|b [|c l]]];
      try (apply ret_Ok_inv in H as [<- ->]; apply Nil).
    binv H as x s1 E1. apply Sample_payload_Ok_inv in E1 as ->.
    binv H as y s2 E2. apply Sample_payload_Ok_inv in E2 as ->.
    binv H as r s3 E3. apply ret_Ok_inv in H as [<- ->]. exact (Sample_fresh_acct _ _ _ _ E3).
  - unfold Sample.neg_kernel in H.
    destruct (frame_args frame) as [|a [|b l]];
      try (apply ret_Ok_inv in H as [<- ->]; apply Nil).
    binv H as x s1 E1. apply Sample_payload_Ok_inv in E1 as ->.
    binv H as r s3 E3. apply ret_Ok_inv in H as [<- ->]. exact (Sample_fresh_acct _ _ _ _ E3).
  - unfold Sample.fail_kernel in H.
    binv H as r s3 E3. apply ret_Ok_inv in H as [<- ->]. exact (Sample_fresh_acct _ _ _ _ E3).
Qed.

(* ================================================================== *)
(** * Claims *)

(** ** C1: [GetOrCreateRegisterValue] *)

(** C1. For a register with user count [u]: when the register is non-null
    its value is returned and nothing changes.  Otherwise a fresh
    IndirectAsyncValue [p] is allocated (one reference) and [u] references
    are added to it; if the CAS from null succeeds the register holds [p],
    whose refcount is [u+1], and [p] is returned; if another thread
    installed [q] before the CAS, [u+1] references are dropped from [p]
    (its refcount is back to 0) and [q] is returned. *)
Theorem GetOrCreateRegisterValue_spec (race : option ptr) (r : nat) (s : St)
    (v : option ptr) (u : nat)
    (Hreg : nth_error (regs s) r = Some (mkReg v u)) :
  match v with
  | Some q => GetOrCreateRegisterValue_race race r s = Ok q s
  | None =>
      let p := length (heap s) in
      match race with
      | None =>
          exists s', GetOrCreateRegisterValue_race race r s = Ok p s'
            /\ nth_error (heap s') p = Some (mkAV (Z.of_nat u + 1) Unavailable true None [])
            /\ nth_error (regs s') r = Some (mkReg (Some p) u)
            /\ trace s' = trace s ++ [EvAddRef p (Z.of_nat u); EvRegisterCAS r p true]
      | Some q =>
          exists s', GetOrCreateRegisterValue_race race r s = Ok q s'
            /\ (exists a, nth_error (heap s') p = Some a /\ refcount a = 0%Z)
            /\ nth_error (regs s') r = Some (mkReg (Some q) u)
            /\ trace s' = trace s ++ [EvAddRef p (Z.of_nat u); EvRegisterCAS r q true;
                                      EvRegisterCAS r p false;
                                      EvDropRef p (Z.of_nat u + 1)]
      end
  end.
Proof.
  pose proof (nth_error_Some_lt _ _ _ Hreg) as Hlt.
  destruct v as [q|]; unfold GetOrCreateRegisterValue_race, load_reg;
    unfold_monad; rewrite Hreg; cbn; [reflexivity|].
  unfold MakeIndirectAsyncValue, AddRef, DropRef, load_av, store_av, interleave,
    compare_exchange_strong_reg, load_reg; unfold_monad.
  destruct race as [q|]; unfold_monad; simpl_lists; csimpl; rewrite Hreg; csimpl.
  - rewrite nth_error_set_nth_eq by (simpl_lists; lia).
    csimpl; simpl_lists; csimpl.
    eexists; split; [reflexivity|]; csimpl; simpl_lists; csimpl.
    split; [eexists; split; [reflexivity|csimpl; lia]|].
    split; [rewrite nth_error_set_nth_eq by lia; reflexivity|].
    now rewrite <- !app_assoc.
  - eexists; split; [reflexivity|]; csimpl; simpl_lists; csimpl.
    split; [unfold set_refcount; csimpl; do 2 f_equal; lia|].
    split; [rewrite nth_error_set_nth_eq by lia; reflexivity|].
    now rewrite <- !app_assoc.
Qed.

(** ** C2: [SetRegisterValue] and the caller's extra [DropRef] *)

(** C2. For a register with user count [u > 0] holding null or an
    unresolved IndirectAsyncValue [e], and a produced value [v]:
    - if the register is null, [SetRegisterValue] adds [u-1] references to
      [v] (so a value carrying its +1 now carries [u]), installs [v] by a
      successful CAS and returns [(v, register_already_set = false)];
    - otherwise the CAS fails, the [u-1] references are dropped again (the
      refcount of [v] is back to its value on entry), [e] is forwarded to
      [v] (donating the +1), and after the forwarding's notification
      [(e, true)] is returned; the caller then runs the used-by dispatch on
      [e] and afterwards drops one reference on [e]. *)
Theorem SetRegisterValue_spec (go : Task -> M unit) (r : nat) (v : ptr) (s : St)
    (w : option ptr) (u : nat) (av : AsyncValue)
    (Hreg : nth_error (regs s) r = Some (mkReg w u)) (Hu : 0 < u)
    (Hv : nth_error (heap s) v = Some av)
    (Hw : unset_or_unresolved s w) (Hne : w <> Some v) :
  match w with
  | None =>
      exists s', SetRegisterValue go r v s = Ok (v, false) s'
        /\ nth_error (regs s') r = Some (mkReg (Some v) u)
        /\ (exists av', nth_error (heap s') v = Some av'
                        /\ refcount av' = (refcount av + Z.of_nat u - 1)%Z)
        /\ trace s' = trace s ++ [EvAddRef v (Z.of_nat u - 1); EvRegisterCAS r v true]
  | Some e =>
      (exists s1, SetRegisterValue go r v s = (AndThen go v (CbForward e) ;; ret (e, true)) s1
        /\ nth_error (regs s1) r = Some (mkReg (Some e) u)
        /\ (exists av', nth_error (heap s1) v = Some av' /\ refcount av' = refcount av)
        /\ (exists ev', nth_error (heap s1) e = Some ev' /\ indirect ev' = true
                        /\ forwarded ev' = Some v)
        /\ trace s1 = trace s ++ [EvAddRef v (Z.of_nat u - 1); EvRegisterCAS r v false;
                                  EvDropRef v (Z.of_nat u - 1); EvForwardTo e v])
      /\ (forall kernel result_number frame_results entry_offset kernel_ids,
            nth result_number frame_results None = Some v ->
            publish_result go kernel r result_number frame_results entry_offset kernel_ids s
            = ('(register_value, _) <- SetRegisterValue go r v ;;
               '(entry_offset', kernel_ids') <-
                  ProcessUsedBys go kernel result_number register_value entry_offset kernel_ids ;;
               DropRef register_value 1 ;;
               ret (entry_offset', kernel_ids')) s)
  end.
Proof.
  pose proof (nth_error_Some_lt _ _ _ Hreg) as Hlt.
  pose proof (nth_error_Some_lt _ _ _ Hv) as Hvlt.
  destruct u as [|u]; [lia|].
  destruct w as [e|].
  - destruct Hw as (ev & He & Hind & Hfwd).
    assert (Hev : e <> v) by congruence.
    split.
    + unfold_ops; unfold_monad.
      rewrite Hreg; csimpl. rewrite Hv; csimpl. rewrite Hreg; csimpl.
      rewrite nth_error_set_nth_neq by congruence. rewrite He; csimpl; rewrite Hind; csimpl.
      rewrite nth_error_set_nth_eq by lia; csimpl.
      simpl_lists. rewrite nth_error_set_nth_neq by congruence. rewrite He; csimpl.
      eexists; split; [reflexivity|]; csimpl.
      split; [assumption|].
      pose proof (nth_error_Some_lt _ _ _ He) as Helt.
      split; [rewrite nth_error_set_nth_neq by congruence;
              rewrite nth_error_set_nth_eq by lia;
              eexists; split; [reflexivity|csimpl; lia]|].
      split; [rewrite nth_error_set_nth_eq by (rewrite length_set_nth; lia);
              eexists; split; [reflexivity|]; csimpl; now rewrite Hind|].
      now rewrite <- !app_assoc.
    + intros kernel result_number frame_results entry_offset kernel_ids Hres.
      unfold publish_result, load_reg, IsUnresolvedIndirect, load_av; unfold_monad.
      rewrite Hreg; csimpl. rewrite He; csimpl; rewrite Hind, Hfwd; csimpl. rewrite Hres; csimpl.
      destruct (SetRegisterValue go r v s) as [[rv b] s'|f] eqn:Hset; [|reflexivity].
      (* SetRegisterValue on a register holding [e] only ever answers [(e, true)] *)
      assert (Hb : b = true /\ rv = e).
      { revert Hset. unfold_ops; unfold_monad.
        rewrite Hreg; csimpl. rewrite Hv; csimpl. rewrite Hreg; csimpl.
        rewrite nth_error_set_nth_neq by congruence. rewrite He; csimpl; rewrite Hind; csimpl.
        rewrite nth_error_set_nth_eq by lia; csimpl.
        simpl_lists. rewrite nth_error_set_nth_neq by congruence. rewrite He; csimpl.
        destruct (AndThen go v (CbForward e) _); intro H; inversion H; auto. }
      destruct Hb; subst. reflexivity.
  - unfold_ops; unfold_monad.
    rewrite Hreg; csimpl. rewrite Hv; csimpl. rewrite Hreg; csimpl.
    eexists; split; [reflexivity|]; csimpl.
    split; [rewrite nth_error_set_nth_eq by lia; reflexivity|].
    split; [rewrite nth_error_set_nth_eq by lia; eexists; split; [reflexivity|csimpl; lia]|].
    now rewrite <- !app_assoc.
Qed.

(** ** C8: a result without static users *)

(** C8. When the destination register of a produced result [v] has no
    static users ([user_count = 0]), publishing [v]: attaches the
    lifetime-extension continuation [CbKeepHandler] on [v], taking one
    reference on the location handler, exactly when [v] is still pending;
    then drops exactly one reference on [v]; and dispatches nothing: the
    worklist and entry offset are returned unchanged, no readiness counter
    and no executor reference changes, and the trace records only the
    optional [AndThen] and the one [DropRef]. *)
Theorem publish_result_no_users_spec (go : Task -> M unit) (kernel : BEFKernel) (r : nat)
    (result_number : nat) (frame_results : list (option ptr)) (entry_offset : nat)
    (kernel_ids : list nat) (s : St) (w : option ptr) (v : ptr) (av : AsyncValue)
    (Hreg : nth_error (regs s) r = Some (mkReg w 0))
    (Hw : unset_or_unresolved s w)
    (Hres : nth result_number frame_results None = Some v)
    (Hv : nth_error (heap s) v = Some av) :
  let pending := negb (is_available (state av)) in
  exists s' av',
    publish_result go kernel r result_number frame_results entry_offset kernel_ids s
      = Ok (entry_offset, kernel_ids) s'
    /\ nth_error (heap s') v = Some av'
    /\ refcount av' = (refcount av - 1)%Z
    /\ waiters av' = waiters av ++ (if pending then [CbKeepHandler] else [])
    /\ handler_refs s' = (handler_refs s + if pending then 1 else 0)%Z
    /\ exec_refs s' = exec_refs s
    /\ kinfos s' = kinfos s
    /\ trace s' = trace s ++ (if pending then [EvAndThen v CbKeepHandler] else [])
                          ++ [EvDropRef v 1].
Proof.
  destruct (publish_result_unused go kernel r result_number frame_results entry_offset
              kernel_ids s w v av Hreg Hw Hres Hv)
    as (s' & Hrun & _ & Hk & He & Hh & Hv' & _ & Ht).
  exists s', (mkAV (refcount av - 1) (state av) (indirect av) (forwarded av)
                   (waiters av ++ if negb (is_available (state av)) then [CbKeepHandler] else [])).
  repeat split; assumption.
Qed.

(** ** C10: registers without users are never written *)

(** C10. When the destination register [r] of a produced result [v] has
    user count 0, publishing [v] leaves every register unchanged (so [r]
    keeps its null or unresolved value), performs no register CAS (the
    value is not installed through [SetRegisterValue]) and ends with the
    drop of the producer's reference on [v].  Consequently the assertion
    [user_count > 0] of [SetRegisterValue] never fails: no run of the
    firing loop and no [Execute], for any function and fuel, ends in that
    assertion failure, provided the kernel implementations themselves never
    do. *)
Theorem unused_result_register_untouched (go : Task -> M unit) (kernel : BEFKernel)
    (r : nat) (result_number : nat) (frame_results : list (option ptr))
    (entry_offset : nat) (kernel_ids : list nat) (s : St) (w : option ptr) (v : ptr)
    (av : AsyncValue)
    (Hreg : nth_error (regs s) r = Some (mkReg w 0))
    (Hw : unset_or_unresolved s w)
    (Hres : nth result_number frame_results None = Some v)
    (Hv : nth_error (heap s) v = Some av) :
  (exists s' delta,
      publish_result go kernel r result_number frame_results entry_offset kernel_ids s
        = Ok (entry_offset, kernel_ids) s'
      /\ regs s' = regs s
      /\ nth_error (regs s') r = Some (mkReg w 0)
      /\ trace s' = trace s ++ delta ++ [EvDropRef v 1]
      /\ (forall r' p b, ~ In (EvRegisterCAS r' p b) delta))
  /\ (forall kernels_ kernel_impls cancel,
        (forall fn, In fn kernel_impls -> forall frame,
           forall st, fn frame st <> Fail (AssertFailed A_user_count_positive)) ->
        (forall fuel t st,
           run kernels_ kernel_impls cancel fuel t st
             <> Fail (AssertFailed A_user_count_positive))
        /\ (forall fuel register_infos kernel_infos result_regs arguments results st,
              Execute kernels_ kernel_impls cancel fuel register_infos kernel_infos
                result_regs arguments results st
                <> Fail (AssertFailed A_user_count_positive))).
Proof.
  split.
  - destruct (publish_result_unused go kernel r result_number frame_results entry_offset
                kernel_ids s w v av Hreg Hw Hres Hv)
      as (s' & Hrun & Hregs & _ & _ & _ & _ & _ & Ht).
    exists s', (if negb (is_available (state av)) then [EvAndThen v CbKeepHandler] else []).
    split; [exact Hrun|]. split; [exact Hregs|]. split; [now rewrite Hregs|].
    split; [exact Ht|].
    intros r' p b; destruct (negb _); simpl; intuition congruence.
  - intros kernels_ kernel_impls cancel Himpls. split.
    + intros fuel t. apply safe_run. exact Himpls.
    + intros. apply safe_Execute. exact Himpls.
Qed.

(** ** C7: error acceleration precedes the worklist append *)

(** C7. When used-by dispatch runs on a result [v] that has users and is in
    the Error state, it first force-reduces the counter of every kernel of
    the used-by list to at most 1 (a counter above 1 becomes 1, the others
    are unchanged) and only then appends the list to the worklist: the
    trace of the dispatch is exactly [Dispatch; SetKernelsWithErrorInputReady
    used_bys; Append used_bys], no counter is decremented in between, and in
    the state at the append every kernel of the list has a counter of at
    most 1. *)
Theorem ProcessUsedBys_error_accelerates_first (go : Task -> M unit) (kernel : BEFKernel)
    (result_number : nat) (v : ptr) (entry_offset : nat) (kernel_ids : list nat) (s : St)
    (av : AsyncValue) (diag : nat) (used_bys : list nat)
    (Hv : nth_error (heap s) v = Some av) (Herr : state av = ErrorState diag)
    (Hn : num_used_bys kernel result_number <> 0)
    (Hub : GetKernelEntries kernel entry_offset (num_used_bys kernel result_number) = used_bys)
    (Hne : used_bys <> [])
    (Hk : Forall (fun k => k < length (kinfos s)) used_bys) :
  exists s',
    ProcessUsedBys go kernel result_number v entry_offset kernel_ids s
      = Ok (entry_offset + num_used_bys kernel result_number, kernel_ids ++ used_bys) s'
    /\ trace s' = trace s ++ [EvDispatch result_number v;
                              EvSetKernelsWithErrorInputReady used_bys; EvAppend used_bys]
    /\ (forall k, In k used_bys ->
          exists ki, nth_error (kinfos s') k = Some ki /\ (arguments_not_ready ki <= 1)%Z)
    /\ (forall k, nth_error (kinfos s') k
                  = option_map (fun ki => if existsb (Nat.eqb k) used_bys then clamp ki else ki)
                               (nth_error (kinfos s) k))
    /\ heap s' = heap s /\ regs s' = regs s.
Proof.
  set (s1 := with_trace (trace s ++ [EvDispatch result_number v]) s).
  assert (Hk1 : Forall (fun k => k < length (kinfos s1)) used_bys) by exact Hk.
  destruct (SetKernelsWithErrorInputReady_loop_spec used_bys s1 Hk1)
    as (kis & Hloop & Hlen & Hnth).
  unfold ProcessUsedBys.
  rewrite (bind_Ok _ _ s tt s1) by reflexivity.
  rewrite (proj2 (Nat.eqb_neq _ _) Hn), Hub.
  rewrite (bind_Ok _ _ s1 tt s1)
    by (unfold assert; destruct used_bys; [congruence|reflexivity]).
  rewrite (bind_Ok _ _ s1 (state av) s1)
    by (unfold av_state, load_av, bind, get, from_option, ret; cbn; now rewrite Hv).
  rewrite Herr; cbn [is_error is_available].
  rewrite (bind_Ok _ _ s1 tt
             (with_trace (trace s1 ++ [EvSetKernelsWithErrorInputReady used_bys])
                         (with_kinfos kis s1)))
    by (unfold SetKernelsWithErrorInputReady; now rewrite (bind_Ok _ _ _ _ _ Hloop)).
  eexists; split; [reflexivity|]. cbn.
  split; [now rewrite <- !app_assoc|].
  split; [|split; [exact Hnth|split; reflexivity]].
  intros k Hin. rewrite Hnth.
  destruct (nth_error (kinfos s) k) as [ki|] eqn:Hki.
  - exists (clamp ki). cbn.
    assert (Hex : existsb (Nat.eqb k) used_bys = true)
      by (apply existsb_exists; exists k; split; [exact Hin|apply Nat.eqb_refl]).
    rewrite Hex. split; [|apply clamp_le_1]. subst s1; cbn in *. now rewrite Hki.
  - apply nth_error_None in Hki. rewrite Forall_forall in Hk. specialize (Hk k Hin). lia.
Qed.

(** ** C4: a strict kernel with an error argument is short-circuited *)

(** C4. When a fired kernel is strict (its non-strict bit is clear) and
    argument binding ends with a non-null [any_error_argument] [err] (the
    last Error-state argument, or the cancel value the binding started
    from), the kernel implementation is not invoked: after the binding the
    executor only records the propagation, adds one reference to [err] per
    result slot, fills every result slot with [err], drops exactly one
    reference on every bound argument, and goes on publishing these results;
    no other heap cell, register or counter changes on the way. *)
Theorem fire_kernel_strict_error (kernels_ : list (option BEFKernel))
    (kernel_impls : list KernelImplementation) (cancel_async_value : option ptr)
    (go : Task -> M unit) (kernel_id : nat) (ki : KernelInfo) (kernel_ids : list nat)
    (s : St) (kernel : BEFKernel) (fn : KernelImplementation)
    (args : list ptr) (err : ptr) (s1 : St)
    (Halign : offset ki mod kKernelEntryAlignment = 0)
    (Hdec : nth_error kernels_ (offset ki / kKernelEntryAlignment) = Some (Some kernel))
    (Hfn : nth_error kernel_impls (kernel_code kernel) = Some fn)
    (Hstrict : Nat.land (special_metadata kernel) kNonStrict = 0)
    (Hbind : bind_arguments (GetKernelEntries kernel 0 (num_arguments kernel))
               cancel_async_value s = Ok (args, Some err) s1)
    (Hvalid : Forall (fun p => p < length (heap s1)) (err :: args)) :
  let arguments := GetKernelEntries kernel 0 (num_arguments kernel) in
  let attributes := GetKernelEntries kernel (length arguments) (num_attributes kernel) in
  let functions := GetKernelEntries kernel (length arguments + length attributes)
                     (num_functions kernel) in
  let off := length arguments + length attributes + length functions in
  let results := GetKernelEntries kernel off (num_results kernel) in
  let n := num_results kernel in
  exists s2,
    fire_kernel kernels_ kernel_impls cancel_async_value go kernel_id ki kernel_ids s
      = publish_results go kernel results 0 (repeat (Some err) n)
          (off + length results) kernel_ids s2
    /\ trace s2 = trace s1 ++ [EvPropagateError kernel_id err]
                           ++ repeat (EvAddRef err 1) n
                           ++ map (fun a => EvDropRef a 1) args
    /\ heap_delta s1 s2 (fun p => (if Nat.eqb p err then Z.of_nat n else 0)
                                  - Z.of_nat (count_occ Nat.eq_dec args p))%Z
    /\ regs s2 = regs s1 /\ kinfos s2 = kinfos s1.
Proof.
  intros arguments attributes functions off results n.
  inversion Hvalid as [|? ? Herr Hargs]; subst.
  set (s1' := with_trace (trace s1 ++ [EvPropagateError kernel_id err]) s1).
  destruct (propagate_error_Ok err (num_results kernel) s1' Herr)
    as (s2 & H2 & D2 & L2 & T2 & R2 & K2).
  assert (Hargs2 : Forall (fun p => p < length (heap s2)) args) by now rewrite L2.
  destruct (drop_arguments_Ok args s2 Hargs2) as (s3 & H3 & D3 & L3 & T3 & R3 & K3).
  exists s3. split; [|split; [|split; [|split]]].
  - unfold fire_kernel, decode_kernel.
    rewrite (bind_Ok _ _ s tt s) by (unfold assert; now rewrite Halign).
    rewrite (bind_Ok _ _ s kernel s) by (unfold from_option; now rewrite Hdec).
    rewrite (bind_Ok _ _ s fn s) by (unfold from_option; now rewrite Hfn).
    rewrite (bind_Ok _ _ s (args, Some err) s1) by exact Hbind.
    rewrite Hstrict. cbn [negb Nat.eqb].
    rewrite (bind_Ok _ _ s1 (repeat (Some err) (num_results kernel)) s2)
      by (rewrite (bind_Ok _ _ s1 tt s1') by reflexivity; exact H2).
    rewrite (bind_Ok _ _ s2 tt s3) by exact H3.
    reflexivity.
  - rewrite T3, T2. subst s1'; cbn. now rewrite <- !app_assoc.
  - eapply heap_delta_ext; [|eapply heap_delta_trans; [exact D2|exact D3]].
    intros p; reflexivity.
  - rewrite R3, R2; reflexivity.
  - rewrite K3, K2; reflexivity.
Qed.

(** ** C9: the argument pseudo-kernel *)

(** C9. The initial worklist holds every kernel id in reverse order, so
    that id 0 is at its back.  When the argument pseudo-kernel runs on it
    successfully, kernel 0 is taken from the back of the worklist (the
    remaining ids [e-1 .. 1] stay in order) without any [fetch_sub]: the
    only events are used-by dispatches and the quiet events they cause (no
    counter decrement, no kernel invocation or error propagation), the
    counters are at most clamped by error acceleration, registers are not
    written, and the dispatches are exactly one per result register of
    kernel 0 with a non-zero user count, in result order, on the value the
    caller installed in that register. *)
Theorem ProcessArgumentsPseudoKernel_spec (kernels_ : list (option BEFKernel))
    (go : Task -> M unit) (s : St) (ids' : list nat) (s' : St)
    (H : ProcessArgumentsPseudoKernel kernels_ go (initial_worklist (length (kinfos s))) s
         = Ok ids' s') :
  let e := length (kinfos s) in
  initial_worklist e = rev (seq 0 e)
  /\ 0 < e
  /\ exists kernel delta extra,
       nth_error kernels_ 0 = Some (Some kernel)
       /\ ids' = rev (seq 1 (e - 1)) ++ extra
       /\ trace s' = trace s ++ delta
       /\ Forall (fun ev => quiet ev || is_dispatch ev = true) delta
       /\ filter is_dispatch delta
          = pseudo_dispatches (regs s) (GetKernelEntries kernel 0 (num_results kernel)) 0
       /\ regs s' = regs s
       /\ counters_clamped (kinfos s) (kinfos s').
Proof.
  cbv zeta.
  assert (He : 0 < length (kinfos s)).
  { destruct (length (kinfos s)) as [|e']; [|lia].
    unfold ProcessArgumentsPseudoKernel, fault in H. discriminate. }
  split; [apply initial_worklist_rev|]. split; [exact He|].
  unfold ProcessArgumentsPseudoKernel in H.
  rewrite (pop_back_initial_worklist _ He) in H.
  binv H as u1 s1 E1. apply assert_Ok_inv in E1 as [-> _].
  binv H as kernel s2 E2. unfold decode_kernel in E2. apply from_option_Ok_inv in E2 as [-> Hk].
  binv H as u3 s3 E3. apply assert_Ok_inv in E3 as [-> _].
  apply pseudo_results_Ok_inv in H as (delta & Ht & Hq & Hf & Hr & Hc & (extra & ->)).
  exists kernel, delta, extra. repeat split; auto.
  destruct (nth_error kernels_ 0) as [[k|]|]; congruence.
Qed.

(** ** C5: the results of [Execute] *)

(** C5 (counterexample). [Execute] returns at once when the kernel stream
    read for the function is empty ([if (kernels.empty()) return;]): the
    caller's empty result slots stay empty. *)
Lemma Execute_empty_stream_counterexample :
  Execute [] Sample.impls None 100 Sample.register_infos Sample.kernel_infos [3] [0; 1]
    [None] Sample.s0
  = Ok [None] Sample.s0.
Proof. reflexivity. Qed.

(** C5 (amended). When the kernel stream of the function is empty,
    [Execute] returns at once and leaves the results untouched.  When it is
    non-empty and [Execute] returns, every result slot is filled:
    [results'] has one entry per result register, and entry [i] is [Some p]
    where [p] is the value held by result register [i] when [Execute]
    returns (the value installed by the time the result loop reached it, or
    else the IndirectAsyncValue that loop installed).  And each slot holds a
    strong reference: when the registers start unset, the user count of
    each register covers its uses (as kernel arguments and as function
    results), the caller's IndirectAsyncValues still waiting for a forward
    hold their forwarding reference and every kernel implementation returns
    results that own one reference each, then on return every AsyncValue
    has at least as many references as there are result slots holding
    it. *)
Theorem Execute_results_filled (kernels_ : list (option BEFKernel))
    (kernel_impls : list KernelImplementation) (cancel_async_value : option ptr)
    (fuel : nat) (register_infos : list RegisterInfo) (kernel_infos : list KernelInfo)
    (result_regs : list nat) (arguments : list ptr) (results : list (option ptr)) :
  (kernels_ = [] -> forall s,
     Execute kernels_ kernel_impls cancel_async_value fuel register_infos kernel_infos
       result_regs arguments results s = Ok results s)
  /\ (kernels_ <> [] -> forall results' s s',
        Execute kernels_ kernel_impls cancel_async_value fuel register_infos kernel_infos
          result_regs arguments results s = Ok results' s' ->
        length results' = length results
        /\ Forall2 (fun r res => exists p uc, res = Some p
                                   /\ nth_error (regs s') r = Some (mkReg (Some p) uc))
                   result_regs results'
        /\ (Forall (fun reg => value reg = None) register_infos ->
            uses_within kernels_ result_regs register_infos kernel_infos ->
            placeholders_held s ->
            (forall fn, In fn kernel_impls -> owns_results fn) ->
            forall p, (Z.of_nat (count_some results' p) <= refcount_of s' p)%Z)).
Proof.
  split.
  - intros -> s. reflexivity.
  - intros Hne results' s s' H.
    split; [|split]; [| |intros Hn Hw Hh Hi; exact (Execute_refs _ _ _ _ _ _ _ _ _ _ _ _ Hne Hn Hw Hh Hi H)];
    unfold Execute in H; destruct kernels_ as [|k ks]; try congruence;
    binv H as u1 s1 E1; apply assert_Ok_inv in E1 as [-> Hlen]; apply Nat.eqb_eq in Hlen;
    binv H as u2 s2 E2; binv H as u3 s3 E3; binv H as u4 s4 E4;
    binv H as res s5 E5; apply populate_results_Ok_inv in E5 as (_ & F); try exact Hlen;
    binv H as u6 s6 E6; unfold ExecutorDropRef, modify in E6; injection E6 as <- <-;
    apply ret_Ok_inv in H as [<- ->].
    + rewrite <- Hlen. symmetry. exact (Forall2_length F).
    + exact F.
Qed.

(** ** C3: each readiness counter reaches zero at most once *)



(** ** C6: the error acceleration under concurrent decrements *)

(** C6. Run the accelerating thread ([SetKernelsWithErrorInputReady] on
    [ids]: a load, then [compare_exchange_weak] attempts while the value
    read is above 1, failures and spurious failures included) interleaved
    in any order with atomic [fetch_sub]s and accelerations of other
    threads.  Every step of the accelerating thread either leaves all
    counters unchanged or replaces a counter whose current value is above 1
    by exactly 1, so it never brings a counter below 1; and every kernel of
    [ids] it is done with has, from then on, a counter of at most 1 (when
    the routine finishes, all of them do). *)
Theorem SetKernelsWithErrorInputReady_interleaved (sched : list Sched) (ids : list nat)
    (s : St) (pc : AccelPC) (s' : St)
    (H : run_interleaving sched (AccelNext ids) s = Ok pc s') :
  accel_invariant ids (kinfos s') pc
  /\ (pc = AccelNext [] ->
      forall k ki, In k ids -> nth_error (kinfos s') k = Some ki ->
                   (arguments_not_ready ki <= 1)%Z)
  /\ (forall spurious pc' s'', accel_step spurious pc s' = Ok pc' s'' ->
        kinfos s'' = kinfos s'
        \/ exists k ki, nth_error (kinfos s') k = Some ki
                        /\ (1 < arguments_not_ready ki)%Z
                        /\ kinfos s'' = set_nth k (mkKI (offset ki) 1) (kinfos s')).
Proof.
  assert (Hinv : accel_invariant ids (kinfos s') pc).
  { eapply run_interleaving_invariant; [|exact H].
    exists []. split; [reflexivity|]. intros k ki [] _. }
  split; [exact Hinv|]. split.
  - intros -> k ki Hin Hk. destruct Hinv as (done & Hids & Hdone).
    rewrite app_nil_r in Hids. subst done. exact (Hdone _ _ Hin Hk).
  - intros spurious pc' s'' Hs. exact (accel_step_writes _ _ _ _ _ Hs).
Qed.

Lemma silent_MakeAvailableAsyncValue st : silent (Sample.MakeAvailableAsyncValue st).
Proof.
  apply silent_frame. intros s p s' H.
  unfold Sample.MakeAvailableAsyncValue, bind, get, modify, ret in H. now injection H as _ <-.
Qed.

Lemma Sample_impls_silent :
  forall fn, In fn Sample.impls -> forall frame, silent (fn frame).
Proof.
  intros fn Hin frame.
  destruct Hin as [<-|[<-|[<-|[]]]];
    unfold Sample.add_kernel, Sample.neg_kernel, Sample.fail_kernel, Sample.payload, av_state;
    silent_tac; auto using silent_load_av, silent_MakeAvailableAsyncValue.
Qed.

(* ================================================================== *)
(** * Witnesses: the claims' theorems at concrete inputs *)

Import Scenarios.

Lemma GetOrCreateRegisterValue_spec_witness :
  nth_error (regs s_regs) 0 = Some (mkReg None 1)
  /\ exists s', GetOrCreateRegisterValue_race None 0 s_regs = Ok 2 s'
                /\ nth_error (regs s') 0 = Some (mkReg (Some 2) 1).
Proof.
  split; [reflexivity|].
  destruct (GetOrCreateRegisterValue_spec None 0 s_regs None 1 ltac:(reflexivity))
    as (s' & E & _ & R & _).
  exists s'. split; assumption.
Defined.

Lemma SetRegisterValue_spec_witness :
  exists s', SetRegisterValue idle_go 0 0 s_regs = Ok (0, false) s'
             /\ nth_error (regs s') 0 = Some (mkReg (Some 0) 1).
Proof.
  destruct (SetRegisterValue_spec idle_go 0 0 s_regs None 1 (mkAV 1 (Concrete 3) false None [])
              ltac:(reflexivity) ltac:(lia) ltac:(reflexivity) I ltac:(discriminate))
    as (s' & E & R & _).
  exists s'. split; assumption.
Defined.

Lemma publish_result_no_users_spec_witness :
  exists s' av', publish_result idle_go Sample.k2 0 0 [Some 0] 0 [] s_unused = Ok (0, []) s'
                 /\ nth_error (heap s') 0 = Some av' /\ refcount av' = 0%Z.
Proof.
  destruct (publish_result_no_users_spec idle_go Sample.k2 0 0 [Some 0] 0 [] s_unused None 0
              (mkAV 1 (Concrete 3) false None [])
              ltac:(reflexivity) I ltac:(reflexivity) ltac:(reflexivity))
    as (s' & av' & E & A & Rc & _).
  exists s', av'. split; [exact E|]. split; [exact A|]. rewrite Rc. reflexivity.
Defined.

Lemma unused_result_register_untouched_witness :
  exists s', publish_result idle_go Sample.k2 0 0 [Some 0] 0 [] s_unused = Ok (0, []) s'
             /\ regs s' = [mkReg None 0].
Proof.
  destruct (unused_result_register_untouched idle_go Sample.k2 0 0 [Some 0] 0 [] s_unused None 0
              (mkAV 1 (Concrete 3) false None [])
              ltac:(reflexivity) I ltac:(reflexivity) ltac:(reflexivity))
    as [(s' & delta & E & R & _) _].
  exists s'. split; assumption.
Defined.

Lemma ProcessUsedBys_error_accelerates_first_witness :
  exists s', ProcessUsedBys idle_go Sample.k0 0 0 2 [] s_error = Ok (3, [1]) s'
             /\ nth_error (kinfos s') 1 = Some (mkKI 4 1).
Proof.
  destruct (ProcessUsedBys_error_accelerates_first idle_go Sample.k0 0 0 2 [] s_error
              (mkAV 1 (ErrorState 7) false None []) 7 [1]
              ltac:(reflexivity) ltac:(reflexivity) ltac:(discriminate) ltac:(reflexivity)
              ltac:(discriminate) ltac:(repeat constructor; simpl; lia))
    as (s' & E & _ & _ & K & _).
  exists s'. split; [exact E|]. rewrite K. reflexivity.
Defined.

Lemma fire_kernel_strict_error_witness :
  exists s2,
    fire_kernel Sample.stream Sample.impls None idle_go 1 (mkKI 4 0) [] s_strict
    = publish_results idle_go Sample.k1 [2] 0 [Some 1] 3 [] s2
    /\ trace s2 = [EvPropagateError 1 1; EvAddRef 1 1; EvDropRef 0 1; EvDropRef 1 1].
Proof.
  destruct (fire_kernel_strict_error Sample.stream Sample.impls None idle_go 1 (mkKI 4 0) []
              s_strict Sample.k1 Sample.add_kernel [0; 1] 1 s_strict
              ltac:(reflexivity) ltac:(reflexivity) ltac:(reflexivity) ltac:(reflexivity)
              ltac:(vm_compute; reflexivity) ltac:(repeat constructor; simpl; lia))
    as (s2 & E & T & _).
  exists s2. split; [rewrite E; f_equal; vm_compute; reflexivity|]. rewrite T. reflexivity.
Defined.

Lemma ProcessArgumentsPseudoKernel_spec_witness :
  exists ids' s',
    ProcessArgumentsPseudoKernel Sample.stream idle_go (initial_worklist 3) s_args = Ok ids' s'
    /\ (exists extra, ids' = [2; 1] ++ extra)
    /\ regs s' = regs s_args.
Proof.
  destruct (ProcessArgumentsPseudoKernel Sample.stream idle_go (initial_worklist 3) s_args)
    as [ids' s'|f] eqn:E; [|vm_compute in E; discriminate].
  exists ids', s'. split; [reflexivity|].
  destruct (ProcessArgumentsPseudoKernel_spec Sample.stream idle_go s_args ids' s' E)
    as (_ & _ & kernel & delta & extra & _ & Hids & _ & _ & _ & R & _).
  split; [exists extra; exact Hids|exact R].
Defined.

Lemma Execute_results_filled_witness :
  Execute [] Sample.impls None 100 Sample.register_infos Sample.kernel_infos [3] [0; 1]
    [None] Sample.s0 = Ok [None] Sample.s0
  /\ exists results' s' p uc,
    Execute Sample.stream Sample.impls None 100 Sample.register_infos Sample.kernel_infos
      [3] [0; 1] [None] Sample.s0 = Ok results' s'
    /\ results' = [Some p] /\ nth_error (regs s') 3 = Some (mkReg (Some p) uc)
    /\ (1 <= refcount_of s' p)%Z.
Proof.
  split.
  - destruct (Execute_results_filled [] Sample.impls None 100 Sample.register_infos
                Sample.kernel_infos [3] [0; 1] [None]) as [Hempty _].
    exact (Hempty eq_refl Sample.s0).
  - destruct (Execute Sample.stream Sample.impls None 100 Sample.register_infos
                Sample.kernel_infos [3] [0; 1] [None] Sample.s0) as [results' s'|f] eqn:E;
      [|vm_compute in E; discriminate].
    destruct (Execute_results_filled Sample.stream Sample.impls None 100 Sample.register_infos
                Sample.kernel_infos [3] [0; 1] [None]) as [_ Hrun].
    destruct (Hrun ltac:(discriminate) results' Sample.s0 s' E) as (L & F & Refs).
    clear E.
    inversion F as [|r res ? ? (p & uc & -> & R) F']; subst.
    inversion F'; subst.
    exists [Some p], s', p, uc. split; [reflexivity|]. split; [reflexivity|]. split; [exact R|].
    assert (Hw : uses_within Sample.stream [3] Sample.register_infos Sample.kernel_infos).
    { intros r reg Hr. destruct r as [|[|[|[|r]]]]; cbn in Hr;
        try (destruct r; discriminate); injection Hr as <-; apply Nat.leb_le; vm_compute;
        reflexivity. }
    assert (Hh : placeholders_held Sample.s0).
    { intros q. destruct q as [|[|q]]; [vm_compute; discriminate|vm_compute; discriminate|].
      destruct q; vm_compute; discriminate. }
    pose proof (Refs ltac:(repeat constructor) Hw Hh Sample_impls_own p) as Hp.
    unfold count_some in Hp. cbn [filter] in Hp. rewrite Nat.eqb_refl in Hp. exact Hp.
Defined.


Lemma SetKernelsWithErrorInputReady_interleaved_witness :
  exists pc s',
    run_interleaving accel_schedule (AccelNext [0; 1]) s_accel = Ok pc s'
    /\ pc = AccelNext []
    /\ forall k ki, In k [0; 1] -> nth_error (kinfos s') k = Some ki ->
                    (arguments_not_ready ki <= 1)%Z.
Proof.
  destruct (run_interleaving accel_schedule (AccelNext [0; 1]) s_accel) as [pc s'|f] eqn:E;
    [|vm_compute in E; discriminate].
  assert (Hpc : pc = AccelNext []) by (vm_compute in E; congruence).
  exists pc, s'. split; [reflexivity|]. split; [exact Hpc|].
  destruct (SetKernelsWithErrorInputReady_interleaved accel_schedule [0; 1] s_accel pc s' E)
    as (_ & Hdone & _).
  exact (Hdone Hpc).
Defined.

(* ================================================================== *)
(** * Further properties of the executor *)

(* ------------------------------------------------------------------ *)
(** ** What a run may change *)

Lemma regs_evolve_refl rs : regs_evolve rs rs.
Proof. intros i reg H. exists reg. auto. Qed.

Lemma regs_evolve_trans r1 r2 r3 : regs_evolve r1 r2 -> regs_evolve r2 r3 -> regs_evolve r1 r3.
Proof.
  intros H1 H2 i reg H. destruct (H1 i reg H) as (reg2 & E2 & U2 & V2).
  destruct (H2 i reg2 E2) as (reg3 & E3 & U3 & V3).
  exists reg3. split; [exact E3|]. split; [congruence|].
  destruct V2 as [V2|V2]; [now left|]. destruct V3 as [V3|V3]; [left; congruence|right; congruence].
Qed.

Lemma kinfos_evolve_refl kis : kinfos_evolve kis kis.
Proof. intros k ki H. exists ki. split; [exact H|]. split; [reflexivity|lia]. Qed.

Lemma kinfos_evolve_trans k1 k2 k3 :
  kinfos_evolve k1 k2 -> kinfos_evolve k2 k3 -> kinfos_evolve k1 k3.
Proof.
  intros H1 H2 k ki H. destruct (H1 k ki H) as (ki2 & E2 & O2 & L2).
  destruct (H2 k ki2 E2) as (ki3 & E3 & O3 & L3).
  exists ki3. split; [exact E3|]. split; [congruence|lia].
Qed.

Lemma evolves_refl s : evolves s s.
Proof. split; [lia|split; [apply regs_evolve_refl|apply kinfos_evolve_refl]]. Qed.

Lemma evolves_trans s1 s2 s3 : evolves s1 s2 -> evolves s2 s3 -> evolves s1 s3.
Proof.
  intros (H1 & R1 & K1) (H2 & R2 & K2). split; [lia|].
  split; [eapply regs_evolve_trans|eapply kinfos_evolve_trans]; eassumption.
Qed.

(** A step that touches neither registers nor kernel infos. *)
Lemma evolves_frame s s' :
  length (heap s) <= length (heap s') -> regs s' = regs s -> kinfos s' = kinfos s ->
  evolves s s'.
Proof.
  intros Hh Hr Hk. split; [exact Hh|]. rewrite Hr, Hk.
  split; [apply regs_evolve_refl|apply kinfos_evolve_refl].
Qed.

Lemma kinfos_evolve_set kis k ki n :
  nth_error kis k = Some ki -> (n <= arguments_not_ready ki)%Z ->
  kinfos_evolve kis (set_nth k (mkKI (offset ki) n) kis).
Proof.
  intros Hk Hn k' ki' H'. destruct (Nat.eq_dec k' k) as [->|Hne].
  - rewrite Hk in H'. injection H' as <-. eexists. split.
    + apply nth_error_set_nth_eq. eapply nth_error_Some_lt; eassumption.
    + cbn. split; [reflexivity|lia].
  - exists ki'. rewrite nth_error_set_nth_neq by exact Hne. split; [exact H'|]. split; [reflexivity|lia].
Qed.

Lemma kinfos_evolve_clamped kis kis' : counters_clamped kis kis' -> kinfos_evolve kis kis'.
Proof.
  intros H k ki Hk. destruct (H k) as [E|(ki0 & E0 & E1)].
  - exists ki. rewrite E. split; [exact Hk|]. split; [reflexivity|lia].
  - rewrite Hk in E0. injection E0 as <-. exists (clamp ki). split; [exact E1|].
    unfold clamp; cbn. split; [reflexivity|]. destruct (Z.ltb_spec 1 (arguments_not_ready ki)); lia.
Qed.

Lemma preserves_ret {A} (a : A) : preserves (ret a).
Proof. intros s b s' H. apply ret_Ok_inv in H as [_ ->]. apply evolves_refl. Qed.

Lemma preserves_bind {A B} (m : M A) (f : A -> M B) :
  preserves m -> (forall a, preserves (f a)) -> preserves (bind m f).
Proof.
  intros Hm Hf s b s'' H. binv H as a s1 E1. eapply evolves_trans; [eapply Hm, E1|eapply Hf, H].
Qed.

Lemma preserves_bind_from_option {A B} a (o : option A) (f : A -> M B) :
  (forall x, o = Some x -> preserves (f x)) -> preserves (bind (from_option a o) f).
Proof.
  intros Hf s b s' H. binv H as x s1 E1. apply from_option_Ok_inv in E1 as [-> Ho].
  eapply Hf; eassumption.
Qed.

Lemma preserves_get : preserves get.
Proof. intros s a s' H. injection H as _ <-. apply evolves_refl. Qed.
Lemma preserves_fault {A} f : preserves (@fault A f).
Proof. intros s a s' H. discriminate. Qed.
Lemma preserves_assert a b : preserves (assert a b).
Proof. intros s u s' H. apply assert_Ok_inv in H as [-> _]. apply evolves_refl. Qed.
Lemma preserves_from_option {A} a (o : option A) : preserves (from_option a o).
Proof. intros s x s' H. apply from_option_Ok_inv in H as [-> _]. apply evolves_refl. Qed.
Lemma preserves_emit e : preserves (emit e).
Proof. intros s u s' H. apply emit_Ok_inv in H as ->. now apply evolves_frame. Qed.
Lemma preserves_store_av p v : preserves (store_av p v).
Proof.
  intros s u s' H. unfold store_av, modify in H. injection H as _ <-.
  apply evolves_frame; cbn; [rewrite length_set_nth|..]; auto.
Qed.
Lemma preserves_refs_ops :
  preserves ExecutorAddRef /\ preserves ExecutorDropRef
  /\ preserves HandlerAddRef /\ preserves HandlerDropRef.
Proof.
  unfold ExecutorAddRef, ExecutorDropRef, HandlerAddRef, HandlerDropRef, modify.
  refine (conj _ (conj _ (conj _ _))); intros s u s' H; injection H as _ <-;
    now apply evolves_frame.
Qed.
Lemma preserves_MakeIndirectAsyncValue : preserves MakeIndirectAsyncValue.
Proof.
  intros s p s' H. unfold MakeIndirectAsyncValue, bind, get, modify, ret in H.
  injection H as _ <-. apply evolves_frame; cbn; auto. rewrite length_app; lia.
Qed.

Lemma preserves_compare_exchange_strong_reg r d : preserves (compare_exchange_strong_reg r d).
Proof.
  intros s a s' H. unfold compare_exchange_strong_reg in H.
  binv H as reg s1 E1. apply load_reg_Ok in E1 as [-> Hr].
  destruct (value reg) as [e|] eqn:Hv.
  - binv H as u s2 E2. apply emit_Ok_inv in E2 as ->. apply ret_Ok_inv in H as [_ ->].
    now apply evolves_frame.
  - binv H as u s2 E2. unfold modify in E2. injection E2 as <- <-.
    binv H as u3 s3 E3. apply emit_Ok_inv in E3 as ->. apply ret_Ok_inv in H as [_ ->].
    split; [cbn; lia|]. split; [|cbn; apply kinfos_evolve_refl].
    cbn. intros i reg0 Hi. destruct (Nat.eq_dec i r) as [->|Hne].
    + rewrite Hr in Hi. injection Hi as <-. eexists. split.
      * apply nth_error_set_nth_eq. eapply nth_error_Some_lt; eassumption.
      * cbn. auto.
    + exists reg0. rewrite nth_error_set_nth_neq by exact Hne. auto.
Qed.

Lemma preserves_fetch_sub k : preserves (fetch_sub k).
Proof.
  intros s v s' H. pose proof H as H'. apply fetch_sub_Ok_inv in H' as (ki & Hk & _ & Hks).
  unfold fetch_sub in H. binv H as ki' s1 E1. apply load_kinfo_Ok_inv in E1 as [-> _].
  binv H as u2 s2 E2. unfold store_not_ready, modify in E2. injection E2 as <- <-.
  binv H as u3 s3 E3. apply emit_Ok_inv in E3 as ->. apply ret_Ok_inv in H as [_ ->].
  split; [cbn; lia|]. split; [cbn; apply regs_evolve_refl|]. rewrite Hks.
  apply kinfos_evolve_set; [exact Hk|lia].
Qed.

Lemma preserves_SetKernelsWithErrorInputReady ids : preserves (SetKernelsWithErrorInputReady ids).
Proof.
  intros s u s' H. unfold SetKernelsWithErrorInputReady in H. binv H as u1 s1 E1.
  apply SetKernelsWithErrorInputReady_loop_Ok_inv in E1 as (Hh & Hr & _ & _ & _ & Hc).
  apply emit_Ok_inv in H as ->. split; [cbn; rewrite Hh; lia|].
  split; [cbn; rewrite Hr; apply regs_evolve_refl|apply kinfos_evolve_clamped, Hc].
Qed.

Create HintDb pres_db.
#[export] Hint Resolve preserves_ret preserves_get preserves_emit preserves_store_av
  preserves_MakeIndirectAsyncValue preserves_compare_exchange_strong_reg preserves_fetch_sub
  preserves_SetKernelsWithErrorInputReady preserves_assert preserves_from_option
  preserves_fault : pres_db.
#[export] Hint Extern 1 (preserves ExecutorAddRef) => apply preserves_refs_ops : pres_db.
#[export] Hint Extern 1 (preserves ExecutorDropRef) => apply preserves_refs_ops : pres_db.
#[export] Hint Extern 1 (preserves HandlerAddRef) => apply preserves_refs_ops : pres_db.
#[export] Hint Extern 1 (preserves HandlerDropRef) => apply preserves_refs_ops : pres_db.

Ltac pres_tac :=
  repeat match goal with
  | |- preserves (bind _ _) => apply preserves_bind; [|intros ?]
  | |- preserves (match ?x with _ => _ end) => destruct x
  | |- preserves (if ?b then _ else _) => destruct b
  | |- preserves _ => solve [eauto with pres_db]
  end.

Section Evolution.
Variable kernels_ : list (option BEFKernel).
Variable kernel_impls : list KernelImplementation.
Variable cancel_async_value : option ptr.
Variable go : Task -> M unit.
Hypothesis go_pres : forall t, preserves (go t).
#[local] Hint Resolve go_pres : pres_db.

Lemma preserves_load_av p : preserves (load_av p).
Proof. unfold load_av; pres_tac. Qed.
Lemma preserves_load_reg r : preserves (load_reg r).
Proof. unfold load_reg; pres_tac. Qed.
Lemma preserves_load_kinfo k : preserves (load_kinfo k).
Proof. unfold load_kinfo; pres_tac. Qed.
#[local] Hint Resolve preserves_load_av preserves_load_reg preserves_load_kinfo : pres_db.
Lemma preserves_AddRef p n : preserves (AddRef p n).
Proof. unfold AddRef; pres_tac. Qed.
Lemma preserves_DropRef p n : preserves (DropRef p n).
Proof. unfold DropRef; pres_tac. Qed.
#[local] Hint Resolve preserves_AddRef preserves_DropRef : pres_db.

Lemma preserves_GetOrCreateRegisterValue r : preserves (GetOrCreateRegisterValue r).
Proof. unfold GetOrCreateRegisterValue, GetOrCreateRegisterValue_race, interleave; pres_tac. Qed.

Lemma preserves_AndThen p cb : preserves (AndThen go p cb).
Proof. unfold AndThen, run_callback; pres_tac. Qed.

Lemma preserves_run_callbacks cbs : preserves (run_callbacks go cbs).
Proof.
  induction cbs as [|cb cbs IH]; cbn [run_callbacks]; [pres_tac|].
  apply preserves_bind; [unfold run_callback; pres_tac|intros; exact IH].
Qed.
#[local] Hint Resolve preserves_GetOrCreateRegisterValue preserves_AndThen
  preserves_run_callbacks : pres_db.

Lemma preserves_SetRegisterValue r v : preserves (SetRegisterValue go r v).
Proof. unfold SetRegisterValue, ForwardTo; pres_tac. Qed.

Lemma preserves_resolve_indirect i : preserves (resolve_indirect go i).
Proof. unfold resolve_indirect; pres_tac. Qed.

Lemma preserves_ProcessUsedBys kernel rn v off ids :
  preserves (ProcessUsedBys go kernel rn v off ids).
Proof. unfold ProcessUsedBys, MaybeAddRefForResult, IsAvailable, av_state; pres_tac. Qed.
#[local] Hint Resolve preserves_SetRegisterValue preserves_resolve_indirect
  preserves_ProcessUsedBys : pres_db.

Lemma preserves_bind_arguments args any : preserves (bind_arguments args any).
Proof.
  revert any; induction args as [|a args IH]; intros any; cbn [bind_arguments]; [pres_tac|].
  unfold IsError, av_state. pres_tac.
Qed.

Lemma preserves_propagate_error e n : preserves (propagate_error e n).
Proof. induction n; cbn [propagate_error]; pres_tac. Qed.

Lemma preserves_drop_arguments args : preserves (drop_arguments args).
Proof. induction args; cbn [drop_arguments]; pres_tac. Qed.

Lemma preserves_publish_results kernel results rn frs off ids :
  preserves (publish_results go kernel results rn frs off ids).
Proof.
  revert rn off ids; induction results as [|r rest IH]; intros rn off ids;
    cbn [publish_results]; [pres_tac|].
  apply preserves_bind; [|intros [off' ids']; apply IH].
  unfold publish_result, IsUnresolvedIndirect, MaybeAddRefForResult, IsAvailable, av_state.
  pres_tac.
Qed.
#[local] Hint Resolve preserves_bind_arguments preserves_propagate_error
  preserves_drop_arguments preserves_publish_results : pres_db.

Hypothesis impls_pres : forall fn, In fn kernel_impls -> forall frame, preserves (fn frame).

Lemma preserves_process_kernel k ids :
  preserves (process_kernel kernels_ kernel_impls cancel_async_value go k ids).
Proof.
  unfold process_kernel. apply preserves_bind; [auto with pres_db|intros prior].
  destruct (negb _); [pres_tac|].
  apply preserves_bind; [auto with pres_db|intros ki].
  unfold fire_kernel, decode_kernel.
  apply preserves_bind; [pres_tac|intros _].
  apply preserves_bind; [pres_tac|intros kernel].
  apply preserves_bind_from_option. intros fn Hfn. apply nth_error_In in Hfn.
  pres_tac; apply impls_pres; exact Hfn.
Qed.

End Evolution.

Lemma preserves_run kernels_ kernel_impls cancel :
  (forall fn, In fn kernel_impls -> forall frame, preserves (fn frame)) ->
  forall fuel t, preserves (run kernels_ kernel_impls cancel fuel t).
Proof.
  intros Himpls fuel. induction fuel as [|fuel IH]; intros t; cbn [run]; [pres_tac|].
  destruct t as [ids|i].
  - destruct (pop_back ids) as [[rest k]|]; [|pres_tac].
    apply preserves_bind; [apply preserves_process_kernel; auto|intros; apply IH].
  - apply preserves_resolve_indirect; exact IH.
Qed.

(* ------------------------------------------------------------------ *)
(** ** Used-by dispatch of one result *)

(** X6. [ProcessUsedBys] on an available, non-error result with users:
    the used-by kernels are appended to the worklist at once, the entry
    offset advances past them, and nothing but the trace changes (no
    counter, no reference count, no continuation). *)
Theorem ProcessUsedBys_available (go : Task -> M unit) (kernel : BEFKernel)
    (result_number : nat) (v : ptr) (entry_offset : nat) (kernel_ids : list nat) (s : St)
    (av : AsyncValue)
    (Hv : nth_error (heap s) v = Some av) (Havail : is_available (state av) = true)
    (Hnoerr : is_error (state av) = false)
    (Hn : num_used_bys kernel result_number <> 0)
    (Hne : GetKernelEntries kernel entry_offset (num_used_bys kernel result_number) <> []) :
  ProcessUsedBys go kernel result_number v entry_offset kernel_ids s
  = Ok (entry_offset + num_used_bys kernel result_number,
        kernel_ids ++ GetKernelEntries kernel entry_offset (num_used_bys kernel result_number))
       (with_trace (trace s ++ [EvDispatch result_number v;
          EvAppend (GetKernelEntries kernel entry_offset (num_used_bys kernel result_number))]) s).
Proof.
  set (used_bys := GetKernelEntries kernel entry_offset (num_used_bys kernel result_number)) in *.
  set (s1 := with_trace (trace s ++ [EvDispatch result_number v]) s).
  unfold ProcessUsedBys.
  rewrite (bind_Ok _ _ s tt s1) by reflexivity.
  rewrite (proj2 (Nat.eqb_neq _ _) Hn). fold used_bys.
  rewrite (bind_Ok _ _ s1 tt s1)
    by (unfold assert; destruct used_bys; [congruence|reflexivity]).
  rewrite (bind_Ok _ _ s1 (state av) s1)
    by (unfold av_state, load_av, bind, get, from_option, ret; cbn; now rewrite Hv).
  rewrite Hnoerr, Havail.
  rewrite (bind_Ok _ _ s1 tt s1) by reflexivity.
  unfold emit, modify, bind, ret. subst s1. cbn. now rewrite <- app_assoc.
Qed.

(** X7. [ProcessUsedBys] on an unavailable result with users: the
    worklist is left as it is, the entry offset advances past the used-by
    entries, the executor takes one reference, and one continuation
    [CbDecrement used_bys] is added to the result's waiters; registers and
    counters are untouched. *)
Theorem ProcessUsedBys_pending (go : Task -> M unit) (kernel : BEFKernel)
    (result_number : nat) (v : ptr) (entry_offset : nat) (kernel_ids : list nat) (s : St)
    (av : AsyncValue)
    (Hv : nth_error (heap s) v = Some av) (Hpend : state av = Unavailable)
    (Hn : num_used_bys kernel result_number <> 0)
    (Hne : GetKernelEntries kernel entry_offset (num_used_bys kernel result_number) <> []) :
  let used_bys := GetKernelEntries kernel entry_offset (num_used_bys kernel result_number) in
  exists s',
    ProcessUsedBys go kernel result_number v entry_offset kernel_ids s
      = Ok (entry_offset + num_used_bys kernel result_number, kernel_ids) s'
    /\ exec_refs s' = (exec_refs s + 1)%Z
    /\ nth_error (heap s') v = Some (set_waiters (waiters av ++ [CbDecrement used_bys]) av)
    /\ (forall p, p <> v -> nth_error (heap s') p = nth_error (heap s) p)
    /\ length (heap s') = length (heap s)
    /\ regs s' = regs s /\ kinfos s' = kinfos s /\ handler_refs s' = handler_refs s
    /\ trace s' = trace s ++ [EvDispatch result_number v; EvAndThen v (CbDecrement used_bys)].
Proof.
  intros used_bys.
  assert (Hl : (length used_bys =? 0) = false).
  { apply Nat.eqb_neq. intro H0. apply Hne. apply length_zero_iff_nil. exact H0. }
  set (s1 := with_trace (trace s ++ [EvDispatch result_number v]) s).
  unfold ProcessUsedBys.
  rewrite (bind_Ok _ _ s tt s1) by reflexivity.
  rewrite (proj2 (Nat.eqb_neq _ _) Hn). fold used_bys.
  rewrite (bind_Ok _ _ s1 tt s1) by (unfold assert; now rewrite Hl).
  rewrite (bind_Ok _ _ s1 (state av) s1)
    by (unfold av_state, load_av, bind, get, from_option, ret; cbn; now rewrite Hv).
  rewrite Hpend. cbn [is_error is_available].
  rewrite (bind_Ok _ _ s1 tt s1) by reflexivity.
  unfold ExecutorAddRef, AndThen. unfold_monad. unfold_ops. unfold_monad.
  subst s1. cbn in *. rewrite Hv. cbn. rewrite Hpend. cbn.
  eexists; split; [reflexivity|].
  cbn. simpl_lists. rewrite nth_error_set_nth_eq by (apply nth_error_Some; congruence).
  split; [reflexivity|]. split; [reflexivity|].
  split; [intros p Hp; now rewrite nth_error_set_nth_neq by congruence|].
  split; [now simpl_lists|].
  repeat split. now rewrite <- app_assoc.
Qed.

(* ------------------------------------------------------------------ *)
(** ** Registers *)

Lemma compare_exchange_strong_reg_Ok_inv r d s ex s' :
  compare_exchange_strong_reg r d s = Ok ex s' ->
  exists uc, nth_error (regs s') r
             = Some (mkReg (Some match ex with None => d | Some e => e end) uc).
Proof.
  intros H. unfold compare_exchange_strong_reg in H.
  binv H as reg s1 E1. apply load_reg_Ok in E1 as [-> Hr].
  destruct reg as [[e|] uc]; cbn [value user_count] in H.
  - binv H as u s2 E2. apply emit_Ok_inv in E2 as ->. apply ret_Ok_inv in H as [<- ->].
    exists uc. exact Hr.
  - binv H as u s2 E2. unfold modify in E2. injection E2 as <- <-.
    binv H as u3 s3 E3. apply emit_Ok_inv in E3 as ->. apply ret_Ok_inv in H as [<- ->].
    exists uc. cbn. apply nth_error_set_nth_eq. eapply nth_error_Some_lt; eassumption.
Qed.

(** A set register keeps its value and its user count across any step that
    [evolves]. *)
Lemma evolves_set_register s s' r p uc :
  evolves s s' -> nth_error (regs s) r = Some (mkReg (Some p) uc) ->
  nth_error (regs s') r = Some (mkReg (Some p) uc).
Proof.
  intros (_ & Hr & _) H. destruct (Hr r _ H) as ([v' uc'] & E & U & [V|V]);
    cbn in *; [discriminate|]. now subst.
Qed.

(** A register that holds a value is read back by both lookups. *)
Lemma lookups_of_set_register r s p uc :
  nth_error (regs s) r = Some (mkReg (Some p) uc) ->
  GetRegisterValue r s = Ok (Some p) s /\ GetOrCreateRegisterValue r s = Ok p s.
Proof.
  intros Hr. unfold GetRegisterValue, GetOrCreateRegisterValue, GetOrCreateRegisterValue_race,
    load_reg, bind, get, from_option, ret.
  rewrite Hr. split; reflexivity.
Qed.

Section RegisterRoundTrip.
Variable go : Task -> M unit.
Hypothesis go_pres : forall t, preserves (go t).
#[local] Hint Resolve go_pres preserves_load_av preserves_DropRef : pres_db.
#[local] Hint Extern 1 (preserves (AndThen _ _ _)) =>
  apply preserves_AndThen; exact go_pres : pres_db.

(** X9. After [SetRegisterValue go r v] returns [(p, _)], register [r]
    holds [p]: [GetRegisterValue r] reads [Some p] and
    [GetOrCreateRegisterValue r] returns [p] without changing the state.
    On the lost-race path [p] is the value installed first, which the
    continuations of the forward cannot replace. *)
Theorem SetRegisterValue_then_lookup r v s p already_set s'
    (H : SetRegisterValue go r v s = Ok (p, already_set) s') :
  GetRegisterValue r s' = Ok (Some p) s' /\ GetOrCreateRegisterValue r s' = Ok p s'.
Proof.
  unfold SetRegisterValue in H.
  binv H as reg s1 E1. apply load_reg_Ok in E1 as [-> _].
  binv H as u2 s2 E2. apply assert_Ok_inv in E2 as [-> _].
  binv H as u3 s3 E3.
  binv H as ex s4 E4. apply compare_exchange_strong_reg_Ok_inv in E4 as [uc Hr4].
  destruct ex as [e|].
  - match type of H with ?m s4 = Ok _ _ => assert (Hp : preserves m) end.
    { unfold ForwardTo. pres_tac. }
    pose proof (Hp _ _ _ H) as Hev.
    binv H as ev s5 E5. binv H as u6 s6 E6. binv H as u7 s7 E7. binv H as u8 s8 E8.
    apply ret_Ok_inv in H as [He ->]. injection He as <- _.
    eapply lookups_of_set_register, evolves_set_register; eassumption.
  - apply ret_Ok_inv in H as [He ->]. injection He as <- _.
    eapply lookups_of_set_register; eassumption.
Qed.

End RegisterRoundTrip.

(** X10. [GetOrCreateRegisterValue r] is idempotent: once it has returned
    [p], register [r] holds [p], and a second call returns [p] again and
    changes nothing (no second IndirectAsyncValue is made). *)
Theorem GetOrCreateRegisterValue_idempotent r s p s1
    (H : GetOrCreateRegisterValue r s = Ok p s1) :
  GetOrCreateRegisterValue r s1 = Ok p s1 /\ GetRegisterValue r s1 = Ok (Some p) s1.
Proof.
  apply GetOrCreateRegisterValue_Ok_inv in H as [_ [uc Hr]].
  destruct (lookups_of_set_register r s1 p uc Hr) as [H1 H2]. split; assumption.
Qed.

(* ------------------------------------------------------------------ *)
(** ** The location handler's lifetime *)

(** X8. [MaybeAddRefForResult v]: on an available result it does
    nothing; on an unavailable one it takes one reference on the location
    handler and registers a continuation on [v] (and nothing else), and that
    continuation, when run, releases exactly that reference. *)
Theorem MaybeAddRefForResult_spec (go : Task -> M unit) (v : ptr) (s : St) (av : AsyncValue)
    (Hv : nth_error (heap s) v = Some av) :
  (is_available (state av) = true -> MaybeAddRefForResult go v s = Ok tt s)
  /\ (is_available (state av) = false ->
      exists s', MaybeAddRefForResult go v s = Ok tt s'
        /\ handler_refs s' = (handler_refs s + 1)%Z
        /\ nth_error (heap s') v = Some (set_waiters (waiters av ++ [CbKeepHandler]) av)
        /\ (forall p, p <> v -> nth_error (heap s') p = nth_error (heap s) p)
        /\ length (heap s') = length (heap s)
        /\ regs s' = regs s /\ kinfos s' = kinfos s /\ exec_refs s' = exec_refs s
        /\ trace s' = trace s ++ [EvAndThen v CbKeepHandler]
        /\ run_callback go CbKeepHandler s' = Ok tt (with_handler_refs (handler_refs s) s')).
Proof.
  pose proof (nth_error_Some_lt _ _ _ Hv) as Hlt.
  unfold MaybeAddRefForResult, IsAvailable, AndThen, HandlerAddRef. unfold_ops. unfold_monad.
  rewrite Hv. cbn. split.
  - intros Ha. now rewrite Ha.
  - intros Ha. rewrite Ha. cbn. rewrite Hv. cbn. rewrite Ha.
    eexists; split; [reflexivity|]. cbn.
    split; [reflexivity|].
    split; [apply nth_error_set_nth_eq; exact Hlt|].
    split; [intros p Hp; now apply nth_error_set_nth_neq|].
    split; [apply length_set_nth|].
    split; [reflexivity|]. split; [reflexivity|]. split; [reflexivity|].
    split; [reflexivity|].
    unfold run_callback, HandlerDropRef, modify, with_handler_refs. cbn.
    do 2 f_equal. lia.
Qed.

(* ------------------------------------------------------------------ *)
(** ** Argument registers *)

Lemma skipn_set_nth_after {A} (i : nat) (x : A) (l : list A) :
  skipn (S i) (set_nth i x l) = skipn (S i) l.
Proof.
  revert i; induction l as [|h t IH]; intros [|i]; try reflexivity.
  exact (IH i).
Qed.

Lemma skipn_nth_error_cons {A} (i : nat) (l : list A) x :
  nth_error l i = Some x -> skipn i l = x :: skipn (S i) l.
Proof.
  revert i; induction l as [|h t IH]; intros [|i] H; cbn in *; try discriminate.
  - now injection H as ->.
  - now apply IH.
Qed.

Lemma arg_refs_nil_r arguments p : arg_refs arguments [] p = 0%Z.
Proof. now destruct arguments. Qed.

Lemma InitializeArgumentRegisters_loop_from (arguments : list ptr) (i n : nat) (s : St) :
  i + n = length (regs s) ->
  Forall (fun a => a < length (heap s)) arguments ->
  exists s', InitializeArgumentRegisters_loop arguments i n s = Ok tt s'
    /\ (forall j reg, nth_error (regs s) j = Some reg ->
          nth_error (regs s') j
          = Some (if i <=? j then match nth_error arguments j with
                                  | Some a => mkReg (Some a) (user_count reg)
                                  | None => reg
                                  end
                  else reg))
    /\ length (regs s') = length (regs s)
    /\ length (heap s') = length (heap s)
    /\ heap_delta s s' (arg_refs (skipn i arguments) (skipn i (regs s)))
    /\ kinfos s' = kinfos s.
Proof.
  revert i s; induction n as [|n IH]; intros i s Hlen Hvalid.
  - exists s. split; [reflexivity|]. split.
    + intros j reg Hj. rewrite Hj. destruct (Nat.leb_spec i j); [|reflexivity].
      assert (j < length (regs s)) by (apply nth_error_Some; congruence). lia.
    + split; [reflexivity|]. split; [reflexivity|]. split; [|reflexivity].
      eapply heap_delta_ext; [|apply heap_delta_refl]. intros p.
      rewrite (skipn_all2 (regs s)) by lia. now rewrite arg_refs_nil_r.
  - destruct (nth_error (regs s) i) as [reg|] eqn:Hreg;
      [|apply nth_error_None in Hreg; lia].
    destruct (nth_error arguments i) as [a|] eqn:Ha.
    + assert (Hav0 : a < length (heap s)).
      { rewrite Forall_forall in Hvalid. apply Hvalid. eapply nth_error_In; exact Ha. }
      destruct (nth_error (heap s) a) as [av|] eqn:Hav; [|apply nth_error_None in Hav; lia].
      destruct (AddRef_Ok a (Z.of_nat (user_count reg)) s av Hav)
        as (s1 & E1 & D1 & L1 & _ & R1 & K1).
      set (s2 := with_regs (set_nth i (mkReg (Some a) (user_count reg)) (regs s1)) s1).
      assert (Hlen2 : S i + n = length (regs s2))
        by (subst s2; cbn; rewrite length_set_nth, R1; lia).
      assert (Hvalid2 : Forall (fun a => a < length (heap s2)) arguments)
        by (subst s2; cbn; rewrite L1; exact Hvalid).
      destruct (IH (S i) s2 Hlen2 Hvalid2) as (s' & E' & Hr' & Lr' & Lh' & D' & K').
      exists s'. split.
      { cbn [InitializeArgumentRegisters_loop]. rewrite Ha.
        assert (E0 : (reg <- load_reg i ;;
                      AddRef a (Z.of_nat (user_count reg)) ;;
                      modify (fun s => with_regs (set_nth i (mkReg (Some a) (user_count reg))
                                                    (regs s)) s)) s = Ok tt s2).
        { rewrite (bind_Ok _ _ s reg s)
            by (unfold load_reg, bind, get, from_option, ret; now rewrite Hreg).
          rewrite (bind_Ok _ _ s tt s1 E1). reflexivity. }
        rewrite (bind_Ok _ _ _ _ _ E0). exact E'. }
      split; [|split; [|split; [|split]]].
      * intros j r0 Hj. destruct (Nat.eq_dec j i) as [->|Hne].
        -- rewrite Hreg in Hj. injection Hj as <-.
           assert (H2 : nth_error (regs s2) i = Some (mkReg (Some a) (user_count reg))).
           { subst s2; cbn. apply nth_error_set_nth_eq. rewrite R1. lia. }
           rewrite (Hr' _ _ H2). rewrite Nat.leb_refl, Ha.
           destruct (Nat.leb_spec (S i) i); [lia|reflexivity].
        -- assert (H2 : nth_error (regs s2) j = Some r0).
           { subst s2; cbn. rewrite nth_error_set_nth_neq by exact Hne. now rewrite R1. }
           rewrite (Hr' _ _ H2).
           destruct (Nat.leb_spec (S i) j); destruct (Nat.leb_spec i j); try lia; reflexivity.
      * rewrite Lr'. subst s2; cbn. now rewrite length_set_nth, R1.
      * rewrite Lh'. subst s2; cbn. exact L1.
      * assert (D2 : heap_delta s1 s2 (fun _ => 0%Z)) by exact (heap_delta_refl s1).
        pose proof (heap_delta_trans _ _ _ _ _ (heap_delta_trans _ _ _ _ _ D1 D2) D') as D.
        eapply heap_delta_ext; [|exact D].
        intros p. rewrite (skipn_nth_error_cons i (regs s) reg Hreg).
        rewrite (skipn_nth_error_cons i arguments a Ha). cbn [arg_refs].
        subst s2; cbn [regs with_regs]. rewrite skipn_set_nth_after, R1.
        rewrite Nat.eqb_sym. lia.
      * rewrite K'. subst s2; cbn. exact K1.
    + assert (Hge : length arguments <= i) by (apply nth_error_None; exact Ha).
      destruct (IH (S i) s ltac:(lia) Hvalid) as (s' & E' & Hr' & Lr' & Lh' & D' & K').
      exists s'. split.
      { cbn [InitializeArgumentRegisters_loop]. rewrite Ha. exact E'. }
      split; [|split; [exact Lr'|split; [exact Lh'|split; [|exact K']]]].
      * intros j r0 Hj. rewrite (Hr' _ _ Hj).
        destruct (Nat.leb_spec (S i) j); destruct (Nat.leb_spec i j); try lia;
          [reflexivity| |reflexivity].
        assert (j = i) by lia. subst j. now rewrite Ha.
      * eapply heap_delta_ext; [|exact D']. intros p.
        rewrite (skipn_all2 arguments) by lia. rewrite (skipn_all2 arguments) by lia.
        now cbn.
Qed.

(** X11. [InitializeArgumentRegisters(arguments, register_infos)]: register
    [i] receives [arguments[i]] and keeps its user count (an argument beyond
    the last register is ignored), every other register is unchanged, each
    argument value gains one reference per user of each register it is
    installed in ([arg_refs]), and the kernel counters are untouched. *)
Theorem InitializeArgumentRegisters_spec (arguments : list ptr) (s : St)
    (Hvalid : Forall (fun a => a < length (heap s)) arguments) :
  exists s', InitializeArgumentRegisters arguments s = Ok tt s'
    /\ (forall i reg, nth_error (regs s) i = Some reg ->
          nth_error (regs s') i = Some match nth_error arguments i with
                                       | Some a => mkReg (Some a) (user_count reg)
                                       | None => reg
                                       end)
    /\ length (regs s') = length (regs s)
    /\ heap_delta s s' (arg_refs arguments (regs s))
    /\ kinfos s' = kinfos s.
Proof.
  destruct (InitializeArgumentRegisters_loop_from arguments 0 (length (regs s)) s
              eq_refl Hvalid)
    as (s' & E & Hr & Lr & _ & D & K).
  exists s'. split; [exact E|]. split; [|split; [exact Lr|split; [exact D|exact K]]].
  intros i reg Hi. rewrite (Hr i reg Hi). reflexivity.
Qed.

(* ------------------------------------------------------------------ *)
(** ** The worklist *)

(** X5. What [ProcessUsedBys] returns, for any result [v] it is given
    ([v] must be a value of the heap): the entry offset always advances by
    the result's [num_used_bys], and the worklist gains the used-by kernels
    exactly when the result has users and is already available; otherwise it
    is returned unchanged. *)
Theorem ProcessUsedBys_result go kernel rn v off ids s off' ids' s'
    (H : ProcessUsedBys go kernel rn v off ids s = Ok (off', ids') s') :
  exists av, nth_error (heap s) v = Some av
    /\ off' = off + num_used_bys kernel rn
    /\ ids' = if (num_used_bys kernel rn =? 0) || negb (is_available (state av)) then ids
              else ids ++ GetKernelEntries kernel off (num_used_bys kernel rn).
Proof.
  unfold ProcessUsedBys in H. binv H as u s1 E1. apply emit_Ok_inv in E1 as ->.
  destruct (num_used_bys kernel rn =? 0) eqn:Hn; cbn [orb].
  - apply Nat.eqb_eq in Hn. rewrite Hn.
    binv H as u2 s2 E2. apply ret_Ok_inv in H as [[= <- <-] ->].
    unfold MaybeAddRefForResult in E2. binv E2 as avail s3 E3.
    apply IsAvailable_Ok_inv in E3 as [-> (av & Hv & ->)].
    exists av. split; [exact Hv|]. split; [lia|reflexivity].
  - binv H as u2 s2 E2. apply assert_Ok_inv in E2 as [-> _].
    binv H as st s3 E3. apply av_state_Ok_inv in E3 as [-> (av & Hv & ->)].
    exists av. split; [exact Hv|].
    binv H as u4 s4 E4.
    destruct (is_available (state av)); cbn [negb].
    + binv H as u5 s5 E5. apply ret_Ok_inv in H as [[= <- <-] _]. auto.
    + binv H as u5 s5 E5. binv H as u6 s6 E6. apply ret_Ok_inv in H as [[= <- <-] _]. auto.
Qed.

Lemma publish_result_ids go kernel r rn frs off ids s off' ids' s' :
  publish_result go kernel r rn frs off ids s = Ok (off', ids') s' ->
  exists extra, ids' = ids ++ extra.
Proof.
  intros H. unfold publish_result in H.
  binv H as reg s1 E1. binv H as unset s2 E2. binv H as u3 s3 E3. binv H as res s4 E4.
  destruct (user_count reg =? 0).
  - binv H as u5 s5 E5. binv H as u6 s6 E6. apply ret_Ok_inv in H as [[= <- <-] _].
    exists []. now rewrite app_nil_r.
  - binv H as rb s5 E5. destruct rb as [rv already].
    binv H as oi s6 E6. destruct oi as [o i].
    apply ProcessUsedBys_Ok_inv in E6 as (_ & _ & _ & _ & _ & (extra & ->)).
    binv H as u7 s7 E7. apply ret_Ok_inv in H as [[= <- <-] _]. eauto.
Qed.

Lemma publish_results_ids go kernel results rn frs off ids s ids' s' :
  publish_results go kernel results rn frs off ids s = Ok ids' s' ->
  exists extra, ids' = ids ++ extra.
Proof.
  revert rn off ids s; induction results as [|r rest IH]; intros rn off ids s H;
    cbn [publish_results] in H.
  - apply ret_Ok_inv in H as [<- _]. exists []. now rewrite app_nil_r.
  - binv H as oi s1 E1. destruct oi as [o i].
    apply publish_result_ids in E1 as (e1 & ->). apply IH in H as (e2 & ->).
    exists (e1 ++ e2). now rewrite app_assoc.
Qed.

(** X3. One pop of the firing loop ([process_kernel]: the
    [fetch_sub], and the firing when the counter reaches zero) only appends
    to the worklist: the kernels already waiting are neither dropped nor
    reordered. *)
Theorem process_kernel_appends kernels_ kernel_impls cancel go k ids s ids' s'
    (H : process_kernel kernels_ kernel_impls cancel go k ids s = Ok ids' s') :
  exists extra, ids' = ids ++ extra.
Proof.
  unfold process_kernel in H. binv H as prior s1 E1.
  destruct (negb (prior =? 1)%Z).
  - apply ret_Ok_inv in H as [<- _]. exists []. now rewrite app_nil_r.
  - binv H as ki s2 E2. unfold fire_kernel in H.
    binv H as u3 s3 E3. binv H as kernel s4 E4. binv H as fn s5 E5.
    binv H as pa s6 E6. destruct pa as [args any].
    binv H as frs s7 E7. binv H as u8 s8 E8.
    eapply publish_results_ids; exact H.
Qed.

(* ------------------------------------------------------------------ *)
(** ** Registers and counters across the firing loop *)

Lemma preserves_MakeAvailableAsyncValue st : preserves (Sample.MakeAvailableAsyncValue st).
Proof.
  intros s p s' H. unfold Sample.MakeAvailableAsyncValue, bind, get, modify, ret in H.
  injection H as _ <-. apply evolves_frame; cbn; auto. rewrite length_app; lia.
Qed.

(** The sample kernels only allocate their result values. *)
Lemma Sample_impls_preserve :
  forall fn, In fn Sample.impls -> forall frame, preserves (fn frame).
Proof.
  intros fn Hin frame.
  destruct Hin as [<-|[<-|[<-|[]]]];
    unfold Sample.add_kernel, Sample.neg_kernel, Sample.fail_kernel, Sample.payload, av_state;
    pres_tac; auto using preserves_load_av, preserves_MakeAvailableAsyncValue.
Qed.

(** X1. [DecrementArgumentsNotReadyCounts], with everything it runs
    (firing, the continuations it runs at once, the forwarding of indirect
    values), when the kernel implementations themselves leave registers and
    counters alone: a register is never removed and never changes its user
    count, and a register that holds a value keeps it (registers are written
    once); a kernel's entry offset never changes and its readiness counter
    never grows; the heap only grows. *)
Theorem DecrementArgumentsNotReadyCounts_write_once kernels_ kernel_impls cancel fuel ids s s'
    (Himpls : forall fn, In fn kernel_impls -> forall frame, preserves (fn frame))
    (H : DecrementArgumentsNotReadyCounts kernels_ kernel_impls cancel fuel ids s = Ok tt s') :
  length (heap s) <= length (heap s')
  /\ regs_evolve (regs s) (regs s')
  /\ kinfos_evolve (kinfos s) (kinfos s').
Proof. exact (preserves_run kernels_ kernel_impls cancel Himpls fuel (TDecrement ids) s tt s' H). Qed.

Lemma DecrementArgumentsNotReadyCounts_write_once_witness :
  exists s', DecrementArgumentsNotReadyCounts Sample.stream Sample.impls None 50 [2; 1; 1; 1] s_args
             = Ok tt s'
    /\ length (heap s_args) <= length (heap s')
    /\ regs_evolve (regs s_args) (regs s')
    /\ kinfos_evolve (kinfos s_args) (kinfos s').
Proof.
  destruct (DecrementArgumentsNotReadyCounts Sample.stream Sample.impls None 50 [2; 1; 1; 1] s_args)
    as [u s'|f] eqn:E; [|vm_compute in E; discriminate].
  destruct u. exists s'. split; [reflexivity|].
  exact (DecrementArgumentsNotReadyCounts_write_once Sample.stream Sample.impls None 50
           [2; 1; 1; 1] s_args s' Sample_impls_preserve E).
Defined.

Lemma pop_back_snoc {A} (l : list A) x : pop_back (l ++ [x]) = Some (l, x).
Proof. unfold pop_back. rewrite rev_app_distr. cbn. now rewrite rev_involutive. Qed.

Lemma fetch_sub_at k s ki :
  nth_error (kinfos s) k = Some ki ->
  fetch_sub k s
  = Ok (arguments_not_ready ki)
       (with_trace (trace s ++ [EvFetchSub k (arguments_not_ready ki)])
          (with_kinfos (set_nth k (mkKI (offset ki) (arguments_not_ready ki - 1)) (kinfos s)) s)).
Proof.
  intros Hk. unfold fetch_sub, load_kinfo, store_not_ready, emit, modify, bind, get,
    from_option, ret. now rewrite Hk.
Qed.

(** X2. [DecrementArgumentsNotReadyCounts] over a worklist that
    decrements no counter to zero (each listed kernel occurs fewer times than
    its counter) fires nothing: it only subtracts from each kernel's counter
    the number of times the kernel occurs in the worklist, with one
    [fetch_sub] per entry, from the back of the worklist to the front; heap,
    registers and reference counts are untouched. *)
Theorem DecrementArgumentsNotReadyCounts_no_fire kernels_ kernel_impls cancel
    (kernel_ids : list nat) (s : St) (fuel : nat)
    (Hnot_ready : forall k, In k kernel_ids ->
        exists ki, nth_error (kinfos s) k = Some ki
          /\ (Z.of_nat (count_occ Nat.eq_dec kernel_ids k) < arguments_not_ready ki)%Z)
    (Hfuel : length kernel_ids < fuel) :
  exists s',
    DecrementArgumentsNotReadyCounts kernels_ kernel_impls cancel fuel kernel_ids s = Ok tt s'
    /\ heap s' = heap s /\ regs s' = regs s
    /\ exec_refs s' = exec_refs s /\ handler_refs s' = handler_refs s
    /\ (forall k, nth_error (kinfos s') k
                  = option_map (fun ki => mkKI (offset ki)
                        (arguments_not_ready ki - Z.of_nat (count_occ Nat.eq_dec kernel_ids k)))
                      (nth_error (kinfos s) k))
    /\ exists priors, length priors = length kernel_ids
         /\ trace s' = trace s ++ map (fun '(k, n) => EvFetchSub k n)
                                      (combine (rev kernel_ids) priors).
Proof.
  unfold DecrementArgumentsNotReadyCounts.
  revert s fuel Hnot_ready Hfuel.
  induction kernel_ids as [|k ids IH] using rev_ind; intros s fuel Hnr Hfuel.
  - destruct fuel as [|fuel]; [cbn in Hfuel; lia|].
    exists s. split; [reflexivity|]. do 4 (split; [reflexivity|]). split.
    + intros k. destruct (nth_error (kinfos s) k) as [[o n]|]; cbn; [|reflexivity].
      f_equal. f_equal. lia.
    + exists []. split; [reflexivity|]. cbn. now rewrite app_nil_r.
  - rewrite length_app in Hfuel. cbn in Hfuel.
    destruct fuel as [|fuel]; [lia|].
    assert (Hcnt : forall k', count_occ Nat.eq_dec (ids ++ [k]) k'
                              = count_occ Nat.eq_dec ids k' + if Nat.eqb k k' then 1 else 0).
    { intros k'. rewrite count_occ_app. cbn.
      destruct (Nat.eq_dec k k') as [->|Hne]; [now rewrite Nat.eqb_refl|].
      apply Nat.eqb_neq in Hne. now rewrite Hne. }
    destruct (Hnr k (in_or_app ids [k] k (or_intror (or_introl eq_refl)))) as (ki & Hk & Hlt).
    rewrite Hcnt, Nat.eqb_refl in Hlt.
    set (s1 := with_trace (trace s ++ [EvFetchSub k (arguments_not_ready ki)])
                 (with_kinfos (set_nth k (mkKI (offset ki) (arguments_not_ready ki - 1)) (kinfos s)) s)).
    assert (Hk1 : forall k', nth_error (kinfos s1) k'
                  = if Nat.eqb k k' then Some (mkKI (offset ki) (arguments_not_ready ki - 1))
                    else nth_error (kinfos s) k').
    { intros k'. subst s1; cbn. destruct (Nat.eqb_spec k k') as [<-|Hne].
      - apply nth_error_set_nth_eq. eapply nth_error_Some_lt; eassumption.
      - apply nth_error_set_nth_neq. congruence. }
    assert (Hnr1 : forall k', In k' ids ->
        exists ki', nth_error (kinfos s1) k' = Some ki'
          /\ (Z.of_nat (count_occ Nat.eq_dec ids k') < arguments_not_ready ki')%Z).
    { intros k' Hin. rewrite Hk1. destruct (Nat.eqb_spec k k') as [<-|Hne].
      - eexists. split; [reflexivity|]. cbn. lia.
      - destruct (Hnr k' (in_or_app _ _ _ (or_introl Hin))) as (ki' & Hk' & Hlt').
        exists ki'. split; [exact Hk'|]. rewrite Hcnt in Hlt'.
        apply Nat.eqb_neq in Hne. rewrite Hne in Hlt'. lia. }
    destruct (IH s1 fuel Hnr1 ltac:(lia)) as (s' & E' & Hh & Hr & He & Hhr & Hks & priors & Lp & Ht).
    exists s'. split.
    { cbn [run]. rewrite pop_back_snoc.
      rewrite (bind_Ok _ _ s ids s1); [exact E'|].
      unfold process_kernel. rewrite (bind_Ok _ _ s (arguments_not_ready ki) s1)
        by (apply fetch_sub_at; exact Hk).
      destruct (Z.eqb_spec (arguments_not_ready ki) 1); [lia|reflexivity]. }
    rewrite Hh, Hr, He, Hhr. subst s1; cbn [heap regs exec_refs handler_refs with_trace with_kinfos].
    do 4 (split; [reflexivity|]). split.
    + intros k'. rewrite Hks, Hk1, Hcnt. destruct (Nat.eqb_spec k k') as [<-|Hne].
      * rewrite Hk. cbn. f_equal. f_equal. lia.
      * destruct (nth_error (kinfos s) k'); cbn; [|reflexivity]. f_equal. f_equal. lia.
    + exists (arguments_not_ready ki :: priors). split; [cbn; rewrite length_app; cbn; lia|].
      rewrite Ht. cbn. rewrite rev_app_distr. cbn. now rewrite <- app_assoc.
Qed.

Lemma DecrementArgumentsNotReadyCounts_no_fire_witness :
  exists s',
    DecrementArgumentsNotReadyCounts Sample.stream Sample.impls None 4 [1; 2; 1] s_regs = Ok tt s'
    /\ heap s' = heap s_regs /\ regs s' = regs s_regs
    /\ exec_refs s' = exec_refs s_regs /\ handler_refs s' = handler_refs s_regs
    /\ (forall k, nth_error (kinfos s') k
                  = option_map (fun ki => mkKI (offset ki)
                        (arguments_not_ready ki - Z.of_nat (count_occ Nat.eq_dec [1; 2; 1] k)))
                      (nth_error (kinfos s_regs) k))
    /\ exists priors, length priors = length [1; 2; 1]
         /\ trace s' = trace s_regs ++ map (fun '(k, n) => EvFetchSub k n)
                                           (combine (rev [1; 2; 1]) priors).
Proof.
  apply (DecrementArgumentsNotReadyCounts_no_fire Sample.stream Sample.impls None [1; 2; 1] s_regs 4).
  - intros k Hin. destruct Hin as [<-|[<-|[<-|[]]]]; eexists; split; try reflexivity; vm_compute; reflexivity.
  - cbn. lia.
Defined.

(* ------------------------------------------------------------------ *)
(** ** Argument binding *)

(** The heap values present before a step are still there after it, in
    the same state. *)
Lemma heap_delta_states s s' d :
  heap_delta s s' d -> forall p av, nth_error (heap s) p = Some av ->
  exists av', nth_error (heap s') p = Some av' /\ state av' = state av.
Proof. intros H p av Hp. rewrite H, Hp. cbn. eexists; split; reflexivity. Qed.

Lemma AddRef_states p n s u s' :
  AddRef p n s = Ok u s' -> forall q av, nth_error (heap s) q = Some av ->
  exists av', nth_error (heap s') q = Some av' /\ state av' = state av.
Proof.
  intros H. pose proof H as H0. unfold AddRef in H0. binv H0 as a s1 E1.
  apply load_av_Ok_inv in E1 as [-> Ha].
  destruct (AddRef_Ok p n s a Ha) as (s2 & E2 & D2 & _). rewrite E2 in H. injection H as _ <-.
  eapply heap_delta_states, D2.
Qed.

Lemma DropRef_states p n s u s' :
  DropRef p n s = Ok u s' -> forall q av, nth_error (heap s) q = Some av ->
  exists av', nth_error (heap s') q = Some av' /\ state av' = state av.
Proof.
  intros H. pose proof H as H0. unfold DropRef in H0. binv H0 as a s1 E1.
  apply load_av_Ok_inv in E1 as [-> Ha].
  destruct (DropRef_Ok p n s a Ha) as (s2 & E2 & D2 & _). rewrite E2 in H. injection H as _ <-.
  eapply heap_delta_states, D2.
Qed.

Lemma GetOrCreateRegisterValue_states r s p s' :
  GetOrCreateRegisterValue r s = Ok p s' -> forall q av, nth_error (heap s) q = Some av ->
  exists av', nth_error (heap s') q = Some av' /\ state av' = state av.
Proof.
  intros H q av Hq. unfold GetOrCreateRegisterValue, GetOrCreateRegisterValue_race in H.
  binv H as reg s1 E1. apply load_reg_Ok in E1 as [-> _].
  destruct (value reg) as [v|].
  - apply ret_Ok_inv in H as [_ ->]. eauto.
  - binv H as iv s2 E2. unfold MakeIndirectAsyncValue, bind, get, modify, ret in E2.
    injection E2 as <- <-.
    assert (Hq2 : nth_error (heap (with_heap (heap s ++ [mkAV 1 Unavailable true None []]) s)) q
                  = Some av).
    { cbn. rewrite nth_error_app1; [exact Hq|eapply nth_error_Some_lt; eassumption]. }
    binv H as u3 s3 E3. destruct (AddRef_states _ _ _ _ _ E3 q av Hq2) as (av3 & Hq3 & St3).
    binv H as u4 s4 E4. cbn [interleave] in E4. apply ret_Ok_inv in E4 as [_ ->].
    binv H as ex s5 E5.
    assert (Hq5 : nth_error (heap s5) q = Some av3).
    { unfold compare_exchange_strong_reg in E5. binv E5 as reg5 s6 E6.
      apply load_reg_Ok in E6 as [-> _]. destruct (value reg5).
      - binv E5 as u7 s7 E7. apply emit_Ok_inv in E7 as ->. apply ret_Ok_inv in E5 as [_ ->].
        exact Hq3.
      - binv E5 as u7 s7 E7. unfold modify in E7. injection E7 as <- <-.
        binv E5 as u8 s8 E8. apply emit_Ok_inv in E8 as ->. apply ret_Ok_inv in E5 as [_ ->].
        exact Hq3. }
    destruct ex as [e|].
    + binv H as u6 s6 E6. apply ret_Ok_inv in H as [_ ->].
      destruct (DropRef_states _ _ _ _ _ E6 q av3 Hq5) as (av6 & Hq6 & St6).
      exists av6. split; [exact Hq6|congruence].
    + apply ret_Ok_inv in H as [_ ->]. exists av3. auto.
Qed.

(** X4. [bind_arguments] (the argument loop of
    [DecrementArgumentsNotReadyCounts]) returns one value per argument
    register, each now held by its register; the [any_error_argument] it
    returns is the last argument value in the Error state, or the initial
    one (the cancel value) when there is none. Binding never unsets a
    register and never changes the state of a value already in the heap. *)
Theorem bind_arguments_spec (args : list nat) (any : option ptr) (s : St)
    (vs : list ptr) (any' : option ptr) (s' : St)
    (H : bind_arguments args any s = Ok (vs, any') s') :
  length vs = length args
  /\ Forall2 (fun r v => exists uc, nth_error (regs s') r = Some (mkReg (Some v) uc)) args vs
  /\ any' = last_error (heap s') vs any
  /\ regs_mono (regs s) (regs s')
  /\ (forall p av, nth_error (heap s) p = Some av ->
        exists av', nth_error (heap s') p = Some av' /\ state av' = state av).
Proof.
  revert any s vs any' s' H.
  induction args as [|r rest IH]; intros any s vs any' s' H; cbn [bind_arguments] in H.
  - apply ret_Ok_inv in H as [[= <- <-] ->].
    split; [reflexivity|]. split; [constructor|]. split; [reflexivity|].
    split; [apply regs_mono_refl|eauto].
  - binv H as v s1 E1. pose proof (GetOrCreateRegisterValue_states _ _ _ _ E1) as St1.
    apply GetOrCreateRegisterValue_Ok_inv in E1 as [M1 [uc Hr1]].
    binv H as err s2 E2. unfold IsError in E2. binv E2 as st s3 E3.
    apply av_state_Ok_inv in E3 as [-> (av & Hv & ->)]. apply ret_Ok_inv in E2 as [<- ->].
    binv H as pr s3 E3. destruct pr as [vs0 any0].
    apply ret_Ok_inv in H as [[= <- <-] ->].
    destruct (IH _ _ _ _ _ E3) as (L & F & A & M3 & St3).
    split; [cbn; lia|]. split.
    + constructor; [exists uc; apply M3, Hr1|exact F].
    + split; [|split; [eapply regs_mono_trans; eassumption|]].
      * rewrite A. unfold last_error. cbn [fold_left].
        destruct (St3 v av Hv) as (av' & Hv' & Hst). rewrite Hv', Hst. reflexivity.
      * intros p a Hp. destruct (St1 p a Hp) as (a1 & Hp1 & S1).
        destruct (St3 p a1 Hp1) as (a3 & Hp3 & S3). exists a3. split; [exact Hp3|congruence].
Qed.

Lemma bind_arguments_spec_witness :
  exists s', bind_arguments [0; 1] None s_strict = Ok ([0; 1], Some 1) s'
    /\ length [0; 1] = length [0; 1]
    /\ Forall2 (fun r v => exists uc, nth_error (regs s') r = Some (mkReg (Some v) uc))
               [0; 1] [0; 1]
    /\ Some 1 = last_error (heap s') [0; 1] None
    /\ regs_mono (regs s_strict) (regs s')
    /\ (forall p av, nth_error (heap s_strict) p = Some av ->
          exists av', nth_error (heap s') p = Some av' /\ state av' = state av).
Proof.
  destruct (bind_arguments [0; 1] None s_strict) as [[vs any'] s'|f] eqn:E;
    [|vm_compute in E; discriminate].
  pose proof E as E'. vm_compute in E'. injection E' as Hvs Hany _. subst vs any'.
  exists s'. split; [reflexivity|].
  exact (bind_arguments_spec [0; 1] None s_strict [0; 1] (Some 1) s' E).
Defined.

(* ------------------------------------------------------------------ *)
(** ** Error acceleration *)

Lemma SetKernelsWithErrorInputReady_loop_valid ids s u s' :
  SetKernelsWithErrorInputReady_loop ids s = Ok u s' ->
  Forall (fun k => k < length (kinfos s)) ids.
Proof.
  revert s; induction ids as [|k ids IH]; intros s H; cbn [SetKernelsWithErrorInputReady_loop] in H.
  - constructor.
  - binv H as u1 s1 E1. apply SetKernelWithErrorInputReady_Ok_inv in E1 as (ki & Hk & Hks).
    apply IH in H. constructor; [eapply nth_error_Some_lt; eassumption|].
    assert (L : length (kinfos s1) = length (kinfos s)).
    { rewrite Hks. destruct (1 <? arguments_not_ready ki)%Z; [apply length_set_nth|reflexivity]. }
    now rewrite <- L.
Qed.

(** X12. [SetKernelsWithErrorInputReady] is idempotent: run a second time
    on the same kernels, it changes no counter (every counter it touched is
    already at most 1), only the trace records the second call. *)
Theorem SetKernelsWithErrorInputReady_idempotent (ids : list nat) (s s1 : St)
    (H : SetKernelsWithErrorInputReady ids s = Ok tt s1) :
  SetKernelsWithErrorInputReady ids s1
  = Ok tt (with_trace (trace s1 ++ [EvSetKernelsWithErrorInputReady ids]) s1).
Proof.
  unfold SetKernelsWithErrorInputReady in *. binv H as u0 s0 E0.
  pose proof (SetKernelsWithErrorInputReady_loop_valid _ _ _ _ E0) as Hv.
  destruct (SetKernelsWithErrorInputReady_loop_spec ids s Hv) as (kis1 & E1 & L1 & N1).
  rewrite E1 in E0. injection E0 as _ E0. subst s0. apply emit_Ok_inv in H as ->.
  set (s2 := with_trace (trace (with_kinfos kis1 s) ++ [EvSetKernelsWithErrorInputReady ids])
               (with_kinfos kis1 s)).
  assert (Hv2 : Forall (fun k => k < length (kinfos s2)) ids) by (subst s2; cbn; now rewrite L1).
  destruct (SetKernelsWithErrorInputReady_loop_spec ids s2 Hv2) as (kis2 & E2 & L2 & N2).
  assert (K : kis2 = kinfos s2).
  { apply nth_error_ext. intros k. rewrite N2. subst s2; cbn. rewrite N1.
    destruct (nth_error (kinfos s) k) as [ki|]; cbn; [|reflexivity].
    destruct (existsb (Nat.eqb k) ids); [now rewrite clamp_idem|reflexivity]. }
  rewrite (bind_Ok _ _ _ _ _ E2). rewrite K.
  unfold emit, modify. now destruct s2.
Qed.

Lemma SetKernelsWithErrorInputReady_idempotent_witness :
  exists s1, SetKernelsWithErrorInputReady [1; 2] s_regs = Ok tt s1
    /\ SetKernelsWithErrorInputReady [1; 2] s1
       = Ok tt (with_trace (trace s1 ++ [EvSetKernelsWithErrorInputReady [1; 2]]) s1).
Proof.
  destruct (SetKernelsWithErrorInputReady [1; 2] s_regs) as [u s1|f] eqn:E;
    [|vm_compute in E; discriminate].
  destruct u. exists s1. split; [reflexivity|].
  exact (SetKernelsWithErrorInputReady_idempotent [1; 2] s_regs s1 E).
Defined.

(* ------------------------------------------------------------------ *)
(** ** Witnesses of the further properties *)

Lemma ProcessUsedBys_available_witness :
  ProcessUsedBys idle_go Sample.k0 0 0 2 [] s_args
  = Ok (2 + num_used_bys Sample.k0 0, [] ++ GetKernelEntries Sample.k0 2 (num_used_bys Sample.k0 0))
       (with_trace (trace s_args ++ [EvDispatch 0 0;
          EvAppend (GetKernelEntries Sample.k0 2 (num_used_bys Sample.k0 0))]) s_args).
Proof.
  apply (ProcessUsedBys_available idle_go Sample.k0 0 0 2 [] s_args
           (mkAV 2 (Concrete 3) false None [])).
  - reflexivity.
  - reflexivity.
  - reflexivity.
  - vm_compute. congruence.
  - vm_compute. congruence.
Defined.

Lemma ProcessUsedBys_pending_witness :
  exists s', ProcessUsedBys idle_go Sample.k0 0 0 2 [] s_pending = Ok (3, []) s'
    /\ exec_refs s' = 1%Z.
Proof.
  destruct (ProcessUsedBys_pending idle_go Sample.k0 0 0 2 [] s_pending
              (mkAV 1 Unavailable false None []))
    as (s' & E & Hx & _); [reflexivity|reflexivity|vm_compute; congruence|vm_compute; congruence|].
  exists s'. split; [exact E|]. rewrite Hx. reflexivity.
Defined.

Lemma SetRegisterValue_then_lookup_witness :
  exists s', SetRegisterValue idle_go 0 0 s_race = Ok (1, true) s'
    /\ GetRegisterValue 0 s' = Ok (Some 1) s'.
Proof.
  destruct (SetRegisterValue idle_go 0 0 s_race) as [[p b] s'|f] eqn:E;
    [|vm_compute in E; discriminate].
  pose proof E as E'. vm_compute in E'. injection E' as Hp Hb _. subst p b.
  exists s'. split; [reflexivity|].
  exact (proj1 (SetRegisterValue_then_lookup idle_go (fun _ => preserves_ret tt) 0 0 s_race 1 true s' E)).
Defined.

Lemma GetOrCreateRegisterValue_idempotent_witness :
  exists p s1, GetOrCreateRegisterValue 2 s_regs = Ok p s1
    /\ GetOrCreateRegisterValue 2 s1 = Ok p s1.
Proof.
  destruct (GetOrCreateRegisterValue 2 s_regs) as [p s1|f] eqn:E;
    [|vm_compute in E; discriminate].
  exists p, s1. split; [reflexivity|].
  exact (proj1 (GetOrCreateRegisterValue_idempotent 2 s_regs p s1 E)).
Defined.

Lemma MaybeAddRefForResult_spec_witness :
  exists s', MaybeAddRefForResult idle_go 0 s_pending = Ok tt s' /\ handler_refs s' = 1%Z.
Proof.
  destruct (MaybeAddRefForResult_spec idle_go 0 s_pending (mkAV 1 Unavailable false None []))
    as [_ Hp]; [reflexivity|].
  destruct (Hp eq_refl) as (s' & E & Hh & _). exists s'. split; [exact E|]. rewrite Hh. reflexivity.
Defined.

Lemma InitializeArgumentRegisters_spec_witness :
  exists s', InitializeArgumentRegisters [0; 1] s_regs = Ok tt s'
    /\ nth_error (regs s') 1 = Some (mkReg (Some 1) 1)
    /\ kinfos s' = kinfos s_regs.
Proof.
  destruct (InitializeArgumentRegisters_spec [0; 1] s_regs) as (s' & E & Hr & _ & _ & K).
  - apply Forall_forall. intros a Ha. simpl in Ha |- *. lia.
  - exists s'. split; [exact E|]. split; [exact (Hr 1 (mkReg None 1) eq_refl)|exact K].
Defined.

Lemma ProcessUsedBys_result_witness :
  exists s', ProcessUsedBys idle_go Sample.k0 0 0 2 [5] s_pending = Ok (3, [5]) s'.
Proof.
  destruct (ProcessUsedBys idle_go Sample.k0 0 0 2 [5] s_pending) as [[off ids] s'|f] eqn:E;
    [|vm_compute in E; discriminate].
  destruct (ProcessUsedBys_result idle_go Sample.k0 0 0 2 [5] s_pending off ids s' E)
    as (av & Hv & Ho & Hi).
  vm_compute in Hv. injection Hv as <-. subst off ids. exists s'. reflexivity.
Defined.

Lemma process_kernel_appends_witness :
  exists s', process_kernel Sample.stream Sample.impls None idle_go 1 [7] s_fire = Ok [7; 2] s'
    /\ exists extra, [7; 2] = [7] ++ extra.
Proof.
  destruct (process_kernel Sample.stream Sample.impls None idle_go 1 [7] s_fire) as [ids s'|f] eqn:E;
    [|vm_compute in E; discriminate].
  pose proof E as E'. vm_compute in E'. injection E' as Hi _. subst ids.
  exists s'. split; [reflexivity|].
  exact (process_kernel_appends Sample.stream Sample.impls None idle_go 1 [7] s_fire [7; 2] s' E).
Defined.
